(** * RizzScript: lexer, environment and tree-walking evaluator

    A shallow embedding of the interpreter core of RizzScript
    ([frontend/lexer.ts], [runtime/values.ts], [runtime/environment.ts],
    [runtime/interpreter.ts], [runtime/eval/expressions.ts] and
    [runtime/eval/statements.ts]) together with the properties of the
    language description that can be stated over it.

    Conventions of the embedding.
    - A JavaScript [number] is an IEEE-754 binary64 value: Rocq's primitive
      [float].
    - Objects of the host with identity (the [Map] behind an object value,
      the array behind an array value, an [Environment]) live in a store
      and are named by their address; a runtime value holds the address, so
      two values built from the same container alias it.
    - A [throw] of the host is the outcome [Raise]; [process.exit] is
      [Exit]; a computation that needs more steps than the fuel it was
      given, or that follows an address outside the store, is [Abort]. *)

From Stdlib Require Import ZArith Floats Ascii.
From Stdlib Require String.
From stdpp Require Import base option list gmap strings.

Local Open Scope string_scope.
Local Open Scope list_scope.

(** ** Abstract syntax ([frontend/ast.ts], as the parser builds it) *)

(** [body_ref] names the array object that holds the body of a function
    declaration: function values are compared by the identity of that
    array, which every value built from one declaration shares. The
    [init] of a [ForStatement] is the variable declaration the parser
    puts there: its [constant] flag, [identifier] and optional [value]. *)
#[warnings="-register-all"]
Inductive Stmt : Type :=
| Program (body : list Stmt)
| VariableDeclaration (constant : bool) (identifier : string) (value : option Stmt)
| FunctionDeclaration (name : string) (params : list string) (body : list Stmt)
    (body_ref : nat)
| IfStatement (test : Stmt) (body : list Stmt) (alternate : option (list Stmt))
| ForStatement (init : bool * string * option Stmt) (test : Stmt) (update : Stmt)
    (body : list Stmt)
| TryCatchStatement (body : list Stmt) (alternate : list Stmt)
| AssignmentExpression (assignee : Stmt) (value : Stmt)
| BinaryExpression (left : Stmt) (right : Stmt) (operator : string)
| CallExpression (callee : Stmt) (args : list Stmt)
| MemberExpression (object : Stmt) (property : Stmt) (computed : bool)
| Identifier (symbol : string)
| NumericLiteral (value : float)
| StringLiteral (value : string)
| ArrayLiteral (values : list Stmt)
| ObjectLiteral (properties : list (string * option Stmt)).

(** [(e as Identifier).symbol]: only an identifier node has the field. *)
Definition symbol_of (e : Stmt) : option string :=
  match e with
  | Identifier symbol => Some symbol
  | _ => None
  end.

(** ** Runtime values ([runtime/values.ts]) *)

Definition loc := nat.

Inductive ValueType : Type :=
| t_null | t_number | t_boolean | t_object | t_native_fn | t_fn | t_string | t_array.

#[global] Instance ValueType_eq_dec : EqDecision ValueType.
Proof. solve_decision. Defined.

(** The strings the interpreter throws. The text of a message is not
    rendered: the template is kept, with the names it interpolates. *)
Inductive Message : Type :=
| AlreadyDefined (varname : string)
| CannotReassign (varname : string)
| CannotResolve (varname : option string)
| ArraysDoNotHaveKeys (property : Stmt)
| CannotLookupOrMutate (type : option ValueType)
| NotCallable (type : option ValueType)
| UnknownOperator (operator : string)
| UnhandledType (lhs : option ValueType) (rhs : option ValueType)
| InvalidLeftHandSide (assignee : Stmt)
| NoMemberOrAssignment.

(** What a slot of static type [RuntimeValue] holds at run time. The
    eight tagged variants are the language's values. The three host
    variants get there through casts: [args[i]] past the end of the
    argument array and [Map.get] of a missing key are [undefined], and
    [catch (e)] stores whatever was thrown, a string of the interpreter or
    a [TypeError] of the host, under the name [error]. *)
Inductive RuntimeValue : Type :=
| MK_NULL
| MK_BOOL (value : bool)
| MK_NUMBER (value : float)
| MK_STRING (value : string)
| MK_OBJECT (properties : loc)
| MK_ARRAY (elements : loc)
| MK_NATIVE_FN (call : nat)
| MK_FN (name : string) (params : list string) (declarationEnv : loc)
    (body : list Stmt) (body_ref : nat)
| HostUndefined
| HostString (text : Message)
| HostTypeError (reading : string).

(** The [type] field; [None] is a host value that has none. *)
Definition tag (v : RuntimeValue) : option ValueType :=
  match v with
  | MK_NULL => Some t_null
  | MK_BOOL _ => Some t_boolean
  | MK_NUMBER _ => Some t_number
  | MK_STRING _ => Some t_string
  | MK_OBJECT _ => Some t_object
  | MK_ARRAY _ => Some t_array
  | MK_NATIVE_FN _ => Some t_native_fn
  | MK_FN _ _ _ _ _ => Some t_fn
  | HostUndefined | HostString _ | HostTypeError _ => None
  end.

(** A value of the language: one of the eight tagged variants. *)
Definition is_runtime_value (v : RuntimeValue) : Prop := is_Some (tag v).

(** Results of code that may throw but touches no store. *)
Inductive Completion (A : Type) : Type :=
| Normal (a : A)
| Throw (e : RuntimeValue).
Arguments Normal {A} a.
Arguments Throw {A} e.

(** Values of the host, as far as the fields of a runtime value hold them. *)
Inductive RefKind : Type := r_body | r_call | r_properties | r_elements.

#[global] Instance RefKind_eq_dec : EqDecision RefKind.
Proof. solve_decision. Defined.

Inductive JsValue : Type :=
| JsUndefined
| JsNull
| JsBoolean (b : bool)
| JsNumber (n : float)
| JsString (s : string)
| JsReference (kind : RefKind) (address : nat).

Inductive Field : Type := f_value | f_body | f_call | f_properties | f_elements.

(** [v.type]: reading a property of [undefined] is a [TypeError]. *)
Definition get_type (v : RuntimeValue) : Completion (option ValueType) :=
  match v with
  | HostUndefined => Throw (HostTypeError "type")
  | _ => Normal (tag v)
  end.

Definition field_name (f : Field) : string :=
  match f with
  | f_value => "value"
  | f_body => "body"
  | f_call => "call"
  | f_properties => "properties"
  | f_elements => "elements"
  end.

(** [(v as T).f] for the fields the evaluator reads. *)
Definition get_field (f : Field) (v : RuntimeValue) : Completion JsValue :=
  match v with
  | HostUndefined => Throw (HostTypeError (field_name f))
  | _ =>
    Normal
      match f, v with
      | f_value, MK_NULL => JsNull
      | f_value, MK_BOOL b => JsBoolean b
      | f_value, MK_NUMBER n => JsNumber n
      | f_value, MK_STRING s => JsString s
      | f_body, MK_FN _ _ _ _ r => JsReference r_body r
      | f_call, MK_NATIVE_FN c => JsReference r_call c
      | f_properties, MK_OBJECT l => JsReference r_properties l
      | f_elements, MK_ARRAY l => JsReference r_elements l
      | _, _ => JsUndefined
      end
  end.

(** [a === b] *)
Definition strict_equal (a b : JsValue) : bool :=
  match a, b with
  | JsUndefined, JsUndefined => true
  | JsNull, JsNull => true
  | JsBoolean x, JsBoolean y => Bool.eqb x y
  | JsNumber x, JsNumber y => PrimFloat.eqb x y
  | JsString x, JsString y => bool_decide (x = y)
  | JsReference k x, JsReference k' y => bool_decide (k = k') && bool_decide (x = y)
  | _, _ => false
  end.

(** [a !== b] *)
Definition strict_not_equal (a b : JsValue) : bool := negb (strict_equal a b).

(** [ToBoolean] *)
Definition truthy (a : JsValue) : bool :=
  match a with
  | JsUndefined | JsNull => false
  | JsBoolean b => b
  | JsNumber n => negb (PrimFloat.eqb n 0%float) && PrimFloat.eqb n n
  | JsString s => negb (bool_decide (s = ""))
  | JsReference _ _ => true
  end.

(** [if (value)] on a slot of type [RuntimeValue]: every object is truthy,
    so are the strings the interpreter throws; [undefined] is not. *)
Definition present (v : RuntimeValue) : bool :=
  match v with
  | HostUndefined => false
  | _ => true
  end.

(** ** Numbers *)

(** [a % b] on doubles: the remainder of the truncating division, exact,
    with the sign of the dividend. *)
Definition float_rem (a b : float) : float :=
  match Prim2SF a, Prim2SF b with
  | S754_nan, _ | _, S754_nan => nan
  | S754_infinity _, _ => nan
  | _, S754_zero _ => nan
  | _, S754_infinity _ => a
  | S754_zero _, _ => a
  | S754_finite sa ma ea, S754_finite _ mb eb =>
    let e := Z.min ea eb in
    let r := Z.rem (Z.pos ma * 2 ^ (ea - e)) (Z.pos mb * 2 ^ (eb - e)) in
    SF2Prim (binary_normalize prec emax (cond_Zopp sa r) e sa)
  end.

(** The key [elements[num]] denotes: an array index when [num] is an
    integer from 0 to 2^32 - 2, any other number names an ordinary
    property of the array object. *)
Definition array_index (num : float) : option N :=
  match Prim2SF num with
  | S754_zero _ => Some 0%N
  | S754_finite false m e =>
    let i :=
      if (0 <=? e)%Z then Some (Z.pos m * 2 ^ e)%Z
      else if (Z.pos m mod 2 ^ (- e) =? 0)%Z then Some (Z.pos m / 2 ^ (- e))%Z
      else None in
    match i with
    | Some z => if (z <? 4294967295)%Z then Some (Z.to_N z) else None
    | None => None
    end
  | _ => None
  end.

(** ** The store *)

(** [runtime/environment.ts]: the fields of an [Environment]. *)
Record Environment : Type := {
  parent : option loc;
  variables : gmap string RuntimeValue;
  constants : gset string
}.

(** The array behind an array value: the elements at array indices, its
    [length], and the properties other numeric keys have created. *)
Record JsArray : Type := {
  items : gmap N RuntimeValue;
  arr_length : N;
  named : list (spec_float * RuntimeValue)
}.

(** The [Map] behind an object value. The interpreter keys it by strings,
    and by [undefined] when a property expression has no [symbol]
    ([None] here). Insertion order, which only native functions observe,
    is not kept. *)
Record State : Type := {
  envs : list Environment;
  objects : list (gmap (option string) RuntimeValue);
  arrays : list JsArray
}.

Definition set_envs (f : list Environment -> list Environment) (st : State) : State :=
  {| envs := f (envs st); objects := objects st; arrays := arrays st |}.

Definition set_objects (f : list (gmap (option string) RuntimeValue) ->
                            list (gmap (option string) RuntimeValue))
  (st : State) : State :=
  {| envs := envs st; objects := f (objects st); arrays := arrays st |}.

Definition set_arrays (f : list JsArray -> list JsArray) (st : State) : State :=
  {| envs := envs st; objects := objects st; arrays := f (arrays st) |}.

(** ** Computations *)

Inductive Reason : Type := OutOfFuel | Dangling.

Inductive Outcome (A : Type) : Type :=
| Ret (a : A) (st : State)
| Raise (e : RuntimeValue) (st : State)
| Exit (st : State)
| Abort (why : Reason).
Arguments Ret {A} a st.
Arguments Raise {A} e st.
Arguments Exit {A} st.
Arguments Abort {A} why.

Definition M (A : Type) : Type := State -> Outcome A.

Definition ret {A} (a : A) : M A := fun st => Ret a st.

Definition bind {A B} (c : M A) (k : A -> M B) : M B :=
  fun st =>
    match c st with
    | Ret a st' => k a st'
    | Raise e st' => Raise e st'
    | Exit st' => Exit st'
    | Abort why => Abort why
    end.

Notation "x <- c ;; k" := (bind c (fun x => k))
  (at level 100, c at next level, right associativity).

Definition throw {A} (e : RuntimeValue) : M A := fun st => Raise e st.

Definition lift {A} (c : Completion A) : M A :=
  match c with
  | Normal a => ret a
  | Throw e => throw e
  end.

(** [try { c } catch (e) { h e }] *)
Definition try_catch {A} (c : M A) (h : RuntimeValue -> M A) : M A :=
  fun st =>
    match c st with
    | Raise e st' => h e st'
    | o => o
    end.

(** ** Environments ([runtime/environment.ts]) *)

Module Env.

(** [new Environment(parentEnv)] *)
Definition new (parentEnv : option loc) : M loc :=
  fun st =>
    Ret (length (envs st))
        (set_envs (fun es => es ++ [{| parent := parentEnv; variables := ∅;
                                       constants := ∅ |}]) st).

Definition read (this : loc) : M Environment :=
  fun st =>
    match envs st !! this with
    | Some e => Ret e st
    | None => Abort Dangling
    end.

Definition write (this : loc) (e : Environment) : M unit :=
  fun st => Ret tt (set_envs (fun es => <[this := e]> es) st).

(** [this.variables.has(varname)]; the name is [undefined] when it was
    read off a node that is not an identifier. *)
Definition has (e : Environment) (varname : option string) : bool :=
  match varname with
  | Some x => bool_decide (is_Some (variables e !! x))
  | None => false
  end.

(** [this.variables.get(varname)] *)
Definition get (e : Environment) (varname : option string) : RuntimeValue :=
  match varname with
  | Some x => default HostUndefined (variables e !! x)
  | None => HostUndefined
  end.

Definition declareVariable (this : loc) (varname : string) (value : RuntimeValue)
  (isConst : bool) : M RuntimeValue :=
  e <- read this ;;
  if has e (Some varname) then throw (HostString (AlreadyDefined varname))
  else
    _ <- write this {| parent := parent e;
                       variables := <[varname := value]> (variables e);
                       constants := if isConst then {[varname]} ∪ constants e
                                    else constants e |} ;;
    ret value.

(** [resolve] walks the parent links. A chain longer than the number of
    environments of the store runs through a cycle, on which the
    recursion of the source does not end. *)
Fixpoint resolve_walk (n : nat) (this : loc) (varname : option string) (st : State)
  : Outcome loc :=
  match envs st !! this with
  | None => Abort Dangling
  | Some e =>
    if has e varname then Ret this st
    else
      match parent e with
      | None => Raise (HostString (CannotResolve varname)) st
      | Some p =>
        match n with
        | O => Abort OutOfFuel
        | S n' => resolve_walk n' p varname st
        end
      end
  end.

Definition resolve (this : loc) (varname : option string) : M loc :=
  fun st => resolve_walk (length (envs st)) this varname st.

Definition assignVariable (this : loc) (varname : string) (value : RuntimeValue)
  : M RuntimeValue :=
  env <- resolve this (Some varname) ;;
  e <- read env ;;
  if bool_decide (varname ∈ constants e)
  then throw (HostString (CannotReassign varname))
  else
    _ <- write env {| parent := parent e;
                      variables := <[varname := value]> (variables e);
                      constants := constants e |} ;;
    ret value.

Definition lookupVariable (this : loc) (varname : string) : M RuntimeValue :=
  env <- resolve this (Some varname) ;;
  e <- read env ;;
  ret (get e (Some varname)).

End Env.

(** ** Containers *)

#[global] Instance spec_float_eq_dec : EqDecision spec_float.
Proof. solve_decision. Defined.

(** [new Map()] *)
Definition new_object : M loc :=
  fun st => Ret (length (objects st)) (set_objects (fun os => os ++ [∅]) st).

(** [properties.set(key, value)] *)
Definition object_set (l : loc) (key : option string) (value : RuntimeValue) : M unit :=
  fun st =>
    match objects st !! l with
    | Some m => Ret tt (set_objects (fun os => <[l := <[key := value]> m]> os) st)
    | None => Abort Dangling
    end.

(** [properties.get(key)] *)
Definition object_get (l : loc) (key : option string) : M RuntimeValue :=
  fun st =>
    match objects st !! l with
    | Some m => Ret (default HostUndefined (m !! key)) st
    | None => Abort Dangling
    end.

(** [[]] *)
Definition new_array : M loc :=
  fun st =>
    Ret (length (arrays st))
        (set_arrays (fun l => l ++ [{| items := ∅; arr_length := 0; named := [] |}]) st).

Definition named_get (k : spec_float) (l : list (spec_float * RuntimeValue))
  : RuntimeValue :=
  default HostUndefined (snd <$> List.find (fun p => bool_decide (fst p = k)) l).

Definition named_set (k : spec_float) (v : RuntimeValue)
  (l : list (spec_float * RuntimeValue)) : list (spec_float * RuntimeValue) :=
  (k, v) :: List.filter (fun p => negb (bool_decide (fst p = k))) l.

(** [elements[num] = value]: writing at or past [length] extends the
    array, and the indices skipped stay empty. *)
Definition array_store (num : float) (value : RuntimeValue) (a : JsArray) : JsArray :=
  match array_index num with
  | Some i => {| items := <[i := value]> (items a);
                 arr_length := N.max (arr_length a) (i + 1);
                 named := named a |}
  | None => {| items := items a; arr_length := arr_length a;
               named := named_set (Prim2SF num) value (named a) |}
  end.

(** [elements[num]]: an empty or absent slot reads as [undefined]. *)
Definition array_load (num : float) (a : JsArray) : RuntimeValue :=
  match array_index num with
  | Some i => default HostUndefined (items a !! i)
  | None => named_get (Prim2SF num) (named a)
  end.

Definition array_set (l : loc) (num : float) (value : RuntimeValue) : M unit :=
  fun st =>
    match arrays st !! l with
    | Some a => Ret tt (set_arrays (fun l' => <[l := array_store num value a]> l') st)
    | None => Abort Dangling
    end.

Definition array_get (l : loc) (num : float) : M RuntimeValue :=
  fun st =>
    match arrays st !! l with
    | Some a => Ret (array_load num a) st
    | None => Abort Dangling
    end.

(** [elements.push(value)] *)
Definition array_push (l : loc) (value : RuntimeValue) : M unit :=
  fun st =>
    match arrays st !! l with
    | Some a =>
      Ret tt (set_arrays
                (fun l' => <[l := {| items := <[arr_length a := value]> (items a);
                                     arr_length := arr_length a + 1;
                                     named := named a |}]> l') st)
    | None => Abort Dangling
    end.

(** ** Binary operators ([runtime/eval/expressions.ts]) *)

#[global] Instance Completion_ret : MRet Completion := fun A a => Normal a.

#[global] Instance Completion_bind : MBind Completion :=
  fun A B f c =>
    match c with
    | Normal a => f a
    | Throw e => Throw e
    end.

(** [strict ? (a, b) => a === b : (a, b) => a !== b] *)
Definition compare (strict : bool) : JsValue -> JsValue -> bool :=
  if strict then strict_equal else strict_not_equal.

Definition equals (lhs rhs : RuntimeValue) (strict : bool) : Completion RuntimeValue :=
  let by_field f :=
    a ← get_field f lhs;
    b ← get_field f rhs;
    Normal (MK_BOOL (compare strict a b)) in
  t ← get_type lhs;
  match t with
  | Some t_boolean => by_field f_value
  | Some t_number => by_field f_value
  | Some t_string => by_field f_value
  | Some t_fn => by_field f_body
  | Some t_native_fn => by_field f_call
  | Some t_null => by_field f_value
  | Some t_object => by_field f_properties
  | Some t_array => by_field f_elements
  | None => t' ← get_type rhs; Throw (HostString (UnhandledType t t'))
  end.

(** [lhs.type !== t || rhs.type !== t], which reads [rhs.type] only when
    the left operand has the type. *)
Definition type_mismatch (t : ValueType) (lhs rhs : RuntimeValue) : Completion bool :=
  tl ← get_type lhs;
  if bool_decide (tl ≠ Some t) then Normal true
  else tr ← get_type rhs; Normal (bool_decide (tr ≠ Some t)).

(** [(v as BooleanValue).value] and [(v as NumberValue).value], read once
    the type has been checked. *)
Definition boolean_of (v : RuntimeValue) : bool :=
  match v with
  | MK_BOOL b => b
  | _ => false
  end.

Definition number_of (v : RuntimeValue) : float :=
  match v with
  | MK_NUMBER n => n
  | _ => nan
  end.

Definition evaluateNumericBinaryExpression (lhs rhs : RuntimeValue) (operator : string)
  : Completion RuntimeValue :=
  if String.eqb operator "|" then
    m ← type_mismatch t_boolean lhs rhs;
    if m : bool then Normal (MK_BOOL false)
    else Normal (MK_BOOL (boolean_of lhs || boolean_of rhs))
  else if String.eqb operator "&&" then
    m ← type_mismatch t_boolean lhs rhs;
    if m : bool then Normal (MK_BOOL false)
    else Normal (MK_BOOL (boolean_of lhs && boolean_of rhs))
  else if String.eqb operator "!=" then equals lhs rhs false
  else if String.eqb operator "==" then equals lhs rhs true
  else
    m ← type_mismatch t_number lhs rhs;
    if m : bool then Normal (MK_BOOL false)
    else
      let llhs := number_of lhs in
      let rrhs := number_of rhs in
      if String.eqb operator "+" then Normal (MK_NUMBER (llhs + rrhs)%float)
      else if String.eqb operator "-" then Normal (MK_NUMBER (llhs - rrhs)%float)
      else if String.eqb operator "*" then Normal (MK_NUMBER (llhs * rrhs)%float)
      else if String.eqb operator "/" then Normal (MK_NUMBER (llhs / rrhs)%float)
      else if String.eqb operator "%" then Normal (MK_NUMBER (float_rem llhs rrhs))
      else if String.eqb operator "<" then Normal (MK_BOOL (PrimFloat.ltb llhs rrhs))
      else if String.eqb operator ">" then Normal (MK_BOOL (PrimFloat.ltb rrhs llhs))
      else Throw (HostString (UnknownOperator operator)).

(** ** The lexer ([frontend/lexer.ts])

    The source text is the array of its characters, [sourceCode.split('')],
    here the characters with codes below 256; [tokens] is the array of the
    tokens emitted so far, oldest first. *)

Module Lexer.

Definition char_str (c : ascii) : string := String c EmptyString.

Definition add_char (s : string) (c : ascii) : string := String.append s (char_str c).

Definition double_quote : ascii := "034"%char.

Definition is_char (c : ascii) (o : option ascii) : bool := bool_decide (o = Some c).

Inductive TokenType : Type :=
| Number | Identifier | String
| Let | Const | Fn | If | Else | For
| BinaryOperator | Equals | Comma | Dot | Colon | Semicolon
| OpenParen | CloseParen | OpenBrace | CloseBrace | OpenBracket | CloseBracket
| Quotation | Greater | Lesser | EqualsCompare | NotEqualsCompare | Exclamation
| And | Ampersand | Bar | Ternary
| EOF | NewLine.

#[global] Instance TokenType_eq_dec : EqDecision TokenType.
Proof. solve_decision. Defined.

Definition KEYWORDS (ident : string) : option TokenType :=
  if String.eqb ident "let" then Some Let
  else if String.eqb ident "const" then Some Const
  else if String.eqb ident "fn" then Some Fn
  else if String.eqb ident "if" then Some If
  else if String.eqb ident "else" then Some Else
  else if String.eqb ident "for" then Some For
  else None.

Definition TOKEN_CHARS (char : ascii) : option TokenType :=
  if Ascii.eqb char "(" then Some OpenParen
  else if Ascii.eqb char ")" then Some CloseParen
  else if Ascii.eqb char "{" then Some OpenBrace
  else if Ascii.eqb char "}" then Some CloseBrace
  else if Ascii.eqb char "[" then Some OpenBracket
  else if Ascii.eqb char "]" then Some CloseBracket
  else if Ascii.eqb char "+" then Some BinaryOperator
  else if Ascii.eqb char "-" then Some BinaryOperator
  else if Ascii.eqb char "*" then Some BinaryOperator
  else if Ascii.eqb char "%" then Some BinaryOperator
  else if Ascii.eqb char "/" then Some BinaryOperator
  else if Ascii.eqb char "<" then Some Lesser
  else if Ascii.eqb char ">" then Some Greater
  else if Ascii.eqb char "." then Some Dot
  else if Ascii.eqb char ";" then Some Semicolon
  else if Ascii.eqb char ":" then Some Colon
  else if Ascii.eqb char "," then Some Comma
  else if Ascii.eqb char "|" then Some Bar
  else if Ascii.eqb char "010" then Some NewLine
  else None.

Definition ESCAPED (key : ascii) : option ascii :=
  if Ascii.eqb key "n" then Some "010"%char
  else if Ascii.eqb key "t" then Some "009"%char
  else if Ascii.eqb key "r" then Some "013"%char
  else None.

Record Token : Type := { value : string; type : TokenType; raw : string }.

#[global] Instance Token_eq_dec : EqDecision Token.
Proof. solve_decision. Defined.

(** [token(value, type, raw = value)] *)
Definition token (value : string) (type : TokenType) : Token :=
  {| value := value; type := type; raw := value |}.

Definition between (lo hi : nat) (c : ascii) : bool :=
  (lo <=? nat_of_ascii c)%nat && (nat_of_ascii c <=? hi)%nat.

Definition isInt (str : ascii) : bool := between 48 57 str.

Definition isAlpha (src : ascii) (isFirstChar : bool) : bool :=
  let letter := between 65 90 src || between 97 122 src || Ascii.eqb src "_" in
  if isFirstChar then letter else letter || between 48 57 src.

Definition isSkippable (str : ascii) : bool :=
  Ascii.eqb str " " || Ascii.eqb str "010" || Ascii.eqb str "009" || Ascii.eqb str "013".

(** What one run of the lexer, or one turn of its loop, comes to:
    [HostError] is a [TypeError] of the host on reading the named
    property of [undefined], [ProcessExit] is [process.exit(1)]. *)
Inductive LexResult (A : Type) : Type :=
| Lexed (a : A)
| HostError (reading : string)
| ProcessExit
| Timeout.
Arguments Lexed {A} a.
Arguments HostError {A} reading.
Arguments ProcessExit {A}.
Arguments Timeout {A}.

Definition getPrevIdents_step (tokens : list Token) (token : Token)
  (newTokens : list Token) : bool :=
  bool_decide (type token = Identifier)
  || bool_decide (type token = Dot)
  || bool_decide (type token = OpenBracket)
  || bool_decide (type token = CloseBracket)
  || (let i := (Z.of_nat (length tokens) - Z.of_nat (length newTokens) - 2)%Z in
      match (if (0 <=? i)%Z then tokens !! Z.to_nat i else None) with
      | Some before =>
        bool_decide (type before = OpenBracket) && bool_decide (type token = Number)
      | None => false
      end).

Fixpoint getPrevIdents_loop (tokens reversed newTokens : list Token) : list Token :=
  match reversed with
  | [] => newTokens
  | token :: rest =>
    if getPrevIdents_step tokens token newTokens
    then getPrevIdents_loop tokens rest (newTokens ++ [token])
    else newTokens
  end.

(** [None] is [null]. *)
Definition getPrevIdents (tokens : list Token) : option (list Token) :=
  let newTokens := getPrevIdents_loop tokens (rev tokens) [] in
  if (0 <? length newTokens)%nat then Some (rev newTokens) else None.

(** The digits and the one period that follow the first character of a
    number. *)
Fixpoint lexNumber (src : list ascii) (num : string) (period : bool)
  : string * list ascii :=
  match src with
  | c :: rest =>
    if Ascii.eqb c "." && negb period then lexNumber rest (add_char num c) true
    else if isInt c then lexNumber rest (add_char num c) period
    else (num, src)
  | [] => (num, [])
  end.

(** The characters of a string literal after its opening quote. *)
Fixpoint lexString (src : list ascii) (str raw : string) (escaped : bool)
  : string * string * list ascii :=
  match src with
  | [] => (str, raw, [])
  | key :: rest =>
    let raw := add_char raw key in
    if Ascii.eqb key "\" then
      if negb escaped then lexString rest str raw true
      else lexString rest (add_char str key) raw false
    else if Ascii.eqb key double_quote then
      if negb escaped then (str, raw, rest)
      else lexString rest (add_char str key) raw false
    else if escaped then
      match ESCAPED key with
      | Some c => lexString rest (add_char str c) raw false
      | None => lexString rest (add_char (add_char str "\") key) raw false
      end
    else lexString rest (add_char str key) raw escaped
  end.

(** [/* ... */], read from the slash that opens it. *)
Fixpoint skipBlock (src : list ascii) (lastVal : option ascii) : list ascii :=
  match src with
  | [] => []
  | nextVal :: rest =>
    if is_char "*" lastVal && Ascii.eqb nextVal "/" then rest
    else skipBlock rest (Some nextVal)
  end.

(** The [while] of a line comment: up to the end of line, not past it. *)
Fixpoint skipLine (src : list ascii) : list ascii :=
  match src with
  | [] => []
  | c :: rest => if Ascii.eqb c "010" then src else skipLine rest
  end.

Fixpoint lexIdent (src : list ascii) (ident : string) : string * list ascii :=
  match src with
  | c :: rest => if isAlpha c false then lexIdent rest (add_char ident c) else (ident, src)
  | [] => (ident, [])
  end.

(** The arms of the [switch], on [src = char :: rest]. An arm that does
    not [break] falls through to the next. *)
Definition case_default (tokens : list Token) (char : ascii) (rest : list ascii)
  : LexResult (list Token * list ascii) :=
  match TOKEN_CHARS char with
  | Some tokenType => Lexed (tokens ++ [token (char_str char) tokenType], rest)
  | None =>
    if isAlpha char true then
      let '(ident, src) := lexIdent rest (char_str char) in
      match KEYWORDS ident with
      | Some reserved => Lexed (tokens ++ [token ident reserved], src)
      | None => Lexed (tokens ++ [token ident Identifier], src)
      end
    else if isSkippable char then Lexed (tokens, rest)
    else ProcessExit
  end.

Definition case_star_slash (tokens : list Token) (char : ascii) (rest : list ascii)
  : LexResult (list Token * list ascii) :=
  if is_char "=" (head rest) then
    match getPrevIdents tokens with
    | None => Lexed (tokens, char :: rest)
    | Some prevtokens =>
      Lexed (tokens ++ [token "=" Equals] ++ prevtokens
               ++ [token (char_str char) BinaryOperator], tail rest)
    end
  else if Ascii.eqb char "/" then
    if is_char "*" (head rest) then Lexed (tokens, skipBlock (char :: rest) None)
    else if is_char "/" (head rest) then Lexed (tokens, tail (skipLine rest))
    else case_default tokens char rest
  else case_default tokens char rest.

Definition case_plus (tokens : list Token) (char : ascii) (rest : list ascii)
  : LexResult (list Token * list ascii) :=
  if is_char char (head rest) then
    match getPrevIdents tokens with
    | Some prevtokens =>
      Lexed (tokens ++ [token "=" Equals] ++ prevtokens
               ++ [token (char_str char) BinaryOperator; token "1" Number], tail rest)
    | None => case_star_slash tokens char rest
    end
  else case_star_slash tokens char rest.

Definition case_minus (tokens : list Token) (char : ascii) (rest : list ascii)
  : LexResult (list Token * list ascii) :=
  if is_char ">" (head rest) then Lexed (tokens ++ [token "->" Ternary], tail rest)
  else if negb (is_char char (head rest)) then
    match getPrevIdents tokens with
    | None =>
      match last tokens with
      | None => HostError "type"
      | Some before =>
        if negb (bool_decide (type before = CloseParen))
        then Lexed (tokens ++ [token "0" Number; token (char_str char) BinaryOperator],
                    rest)
        else case_plus tokens char rest
      end
    | Some _ => case_plus tokens char rest
    end
  else case_plus tokens char rest.

(** [isInt(char) || (char == '-' && isInt(src[1]))]; past the end of the
    text [src[1]] is [undefined], and [isInt] fails on it. *)
Definition startsNumber (char : ascii) (rest : list ascii) : LexResult bool :=
  if isInt char then Lexed true
  else if Ascii.eqb char "-" then
    match head rest with
    | Some next => Lexed (isInt next)
    | None => HostError "charCodeAt"
    end
  else Lexed false.

(** One turn of the [while (src.length > 0)] loop. *)
Definition step (tokens : list Token) (src : list ascii)
  : LexResult (list Token * list ascii) :=
  match src with
  | [] => Lexed (tokens, [])
  | char :: rest =>
    match startsNumber char rest with
    | Lexed true =>
      let '(num, src') := lexNumber rest (char_str char) false in
      Lexed (tokens ++ [token num Number], src')
    | Lexed false =>
      if Ascii.eqb char "=" then
        if is_char "=" (head rest)
        then Lexed (tokens ++ [token "==" EqualsCompare], tail rest)
        else Lexed (tokens ++ [token "=" Equals], rest)
      else if Ascii.eqb char "&" then
        if is_char "&" (head rest)
        then Lexed (tokens ++ [token "&&" And], tail rest)
        else Lexed (tokens ++ [token "&" Ampersand], rest)
      else if Ascii.eqb char "!" then
        if is_char "=" (head rest)
        then Lexed (tokens ++ [token "!=" NotEqualsCompare], tail rest)
        else Lexed (tokens ++ [token "!" Exclamation], rest)
      else if Ascii.eqb char double_quote then
        let '(str, raw, src') := lexString rest "" "" false in
        Lexed (tokens ++ [{| value := str; type := String;
                             raw := String.substring 0 (String.length raw - 1) raw |}], src')
      else if Ascii.eqb char "-" then case_minus tokens char rest
      else if Ascii.eqb char "+" then case_plus tokens char rest
      else if Ascii.eqb char "*" then case_star_slash tokens char rest
      else if Ascii.eqb char "/" then case_star_slash tokens char rest
      else case_default tokens char rest
    | HostError reading => HostError reading
    | ProcessExit => ProcessExit
    | Timeout => Timeout
    end
  end.

Fixpoint tokenize_loop (fuel : nat) (tokens : list Token) (src : list ascii)
  : LexResult (list Token) :=
  match src with
  | [] => Lexed (tokens ++ [token "EndOfFile" EOF])
  | _ :: _ =>
    match fuel with
    | O => Timeout
    | S fuel' =>
      match step tokens src with
      | Lexed (tokens', src') => tokenize_loop fuel' tokens' src'
      | HostError reading => HostError reading
      | ProcessExit => ProcessExit
      | Timeout => Timeout
      end
    end
  end.

(** A turn of the loop either shortens [src] or leaves [tokens] and
    [src] as they were, and then every later turn does the same: as
    many turns as there are characters decide the run. *)
Definition tokenize (sourceCode : string) : LexResult (list Token) :=
  tokenize_loop (String.length sourceCode) [] (String.list_ascii_of_string sourceCode).

End Lexer.

(** ** The evaluator

    [expressions.ts] and [statements.ts] call back into [evaluate] of
    [interpreter.ts]; here they take it as a parameter, and [evaluate]
    closes the recursion, on fuel. A native function is an address into
    the table of the host callbacks, [native_call]. *)

Section Evaluator.

Variable native_call : nat -> list RuntimeValue -> loc -> M RuntimeValue.

Section Callbacks.

Variable evaluate : Stmt -> loc -> M RuntimeValue.

(** [for (const statement of body) last = evaluate(statement, scope)] *)
Fixpoint evalStatements (body : list Stmt) (scope : loc) (last : RuntimeValue)
  : M RuntimeValue :=
  match body with
  | [] => ret last
  | stmt :: rest =>
    result <- evaluate stmt scope ;;
    evalStatements rest scope result
  end.

Definition evaluateProgram (body : list Stmt) (env : loc) : M RuntimeValue :=
  evalStatements body env MK_NULL.

Definition evaluateVariableDeclaration (declaration : bool * string * option Stmt)
  (env : loc) : M RuntimeValue :=
  let '(constant, identifier, value) := declaration in
  v <- match value with
       | Some e => evaluate e env
       | None => ret MK_NULL
       end ;;
  Env.declareVariable env identifier v constant.

Definition evalFunctionDeclaration (name : string) (params : list string)
  (body : list Stmt) (body_ref : nat) (env : loc) : M RuntimeValue :=
  let fn := MK_FN name params env body body_ref in
  if String.eqb name "<anonymous>" then ret fn
  else Env.declareVariable env name fn true.

Definition evalBody (body : list Stmt) (env : loc) (newEnv : bool) : M RuntimeValue :=
  scope <- (if newEnv then Env.new (Some env) else ret env) ;;
  evalStatements body scope MK_NULL.

Definition evalIfStatement (test : Stmt) (body : list Stmt)
  (alternate : option (list Stmt)) (env : loc) : M RuntimeValue :=
  t <- evaluate test env ;;
  flag <- lift (get_field f_value t) ;;
  if strict_equal flag (JsBoolean true) then evalBody body env true
  else
    match alternate with
    | Some alt => evalBody alt env true
    | None => ret MK_NULL
    end.

(** The [switch (pastVal.type)] of [lookupOrMutObject]: the access to the
    slot of the container [pastVal] that [expr.property] names. The
    optional [value] is [undefined] when absent. *)
Definition accessMember (this : loc) (pastVal : RuntimeValue) (expr_property : Stmt)
  (value : RuntimeValue) (property : option Stmt) : M RuntimeValue :=
  match pastVal with
  | HostUndefined => throw (HostTypeError "type")
  | MK_OBJECT l =>
    let currentProp := symbol_of expr_property in
    let prop :=
      match property with
      | Some p => symbol_of p
      | None => currentProp
      end in
    _ <- (if present value then object_set l prop value else ret tt) ;;
    match currentProp with
    | Some name => if String.eqb name "" then ret pastVal else object_get l currentProp
    | None => ret pastVal
    end
  | MK_ARRAY l =>
    numRT <- evaluate expr_property this ;;
    t <- lift (get_type numRT) ;;
    if bool_decide (t ≠ Some t_number)
    then throw (HostString (ArraysDoNotHaveKeys expr_property))
    else
      let num := number_of numRT in
      _ <- (if present value then array_set l num value else ret tt) ;;
      array_get l num
  | _ => throw (HostString (CannotLookupOrMutate (tag pastVal)))
  end.

(** [lookupOrMutObject] of [Environment]. The recursion into
    [expr.object] passes the inner property along as [property], which is
    read only when a value is written, and no value is written there. *)
Fixpoint lookupOrMutObject (this : loc) (expr_object expr_property : Stmt)
  (value : RuntimeValue) (property : option Stmt) {struct expr_object}
  : M RuntimeValue :=
  pastVal <-
    match expr_object with
    | MemberExpression o p _ => lookupOrMutObject this o p HostUndefined (Some p)
    | _ =>
      let varname := symbol_of expr_object in
      env <- Env.resolve this varname ;;
      e <- Env.read env ;;
      ret (Env.get e varname)
    end ;;
  accessMember this pastVal expr_property value property.

(** [evaluateMemberExpression(env, node?, expr?)]: [expr] is the member
    expression to read, [node] the assignment to perform. *)
Definition evaluateMemberExpression (env : loc) (node : option (Stmt * Stmt))
  (expr : option (Stmt * Stmt)) : M RuntimeValue :=
  match expr, node with
  | Some (object, property), _ => lookupOrMutObject env object property HostUndefined None
  | None, Some (assignee, value) =>
    v <- evaluate value env ;;
    match assignee with
    | MemberExpression object property _ => lookupOrMutObject env object property v None
    | _ => throw (HostTypeError "kind")
    end
  | None, None => throw (HostString NoMemberOrAssignment)
  end.

(** A node that is not an assignment has no [assignee], and reading its
    [kind] fails in the host. *)
Definition evaluateAssignment (node : Stmt) (env : loc) : M RuntimeValue :=
  match node with
  | AssignmentExpression assignee value =>
    match assignee with
    | MemberExpression _ _ _ => evaluateMemberExpression env (Some (assignee, value)) None
    | Identifier varname =>
      v <- evaluate value env ;;
      Env.assignVariable env varname v
    | _ => throw (HostString (InvalidLeftHandSide assignee))
    end
  | _ => throw (HostTypeError "kind")
  end.

Definition evaluateBinaryExpression (left right : Stmt) (operator : string) (env : loc)
  : M RuntimeValue :=
  leftHandSide <- evaluate left env ;;
  rightHandSide <- evaluate right env ;;
  lift (evaluateNumericBinaryExpression leftHandSide rightHandSide operator).

Definition evaluateIdentifier (symbol : string) (env : loc) : M RuntimeValue :=
  Env.lookupVariable env symbol.

Fixpoint fillProperties (object : loc) (properties : list (string * option Stmt))
  (env : loc) : M unit :=
  match properties with
  | [] => ret tt
  | (key, value) :: rest =>
    runtimeVal <- match value with
                  | None => Env.lookupVariable env key
                  | Some e => evaluate e env
                  end ;;
    _ <- object_set object (Some key) runtimeVal ;;
    fillProperties object rest env
  end.

Definition evaluateObjectExpression (properties : list (string * option Stmt))
  (env : loc) : M RuntimeValue :=
  object <- new_object ;;
  _ <- fillProperties object properties env ;;
  ret (MK_OBJECT object).

Fixpoint pushValues (array : loc) (values : list Stmt) (env : loc) : M unit :=
  match values with
  | [] => ret tt
  | value :: rest =>
    runtimeVal <- evaluate value env ;;
    _ <- array_push array runtimeVal ;;
    pushValues array rest env
  end.

Definition evaluateArrayExpression (values : list Stmt) (env : loc) : M RuntimeValue :=
  array <- new_array ;;
  _ <- pushValues array values env ;;
  ret (MK_ARRAY array).

(** [for (let i = 0; i < params.length; i++)
       scope.declareVariable(params[i], args[i], false)] *)
Fixpoint declareParams (scope : loc) (params : list string) (args : list RuntimeValue)
  (i : nat) : M unit :=
  match params with
  | [] => ret tt
  | varname :: rest =>
    _ <- Env.declareVariable scope varname (default HostUndefined (args !! i)) false ;;
    declareParams scope rest args (S i)
  end.

Definition evaluateFunction (params : list string) (declarationEnv : loc)
  (body : list Stmt) (args : list RuntimeValue) : M RuntimeValue :=
  scope <- Env.new (Some declarationEnv) ;;
  _ <- declareParams scope params args 0 ;;
  evalStatements body scope MK_NULL.

(** [expr.args.map((arg) => evaluate(arg, env))] *)
Fixpoint evalArgs (args : list Stmt) (env : loc) : M (list RuntimeValue) :=
  match args with
  | [] => ret []
  | arg :: rest =>
    v <- evaluate arg env ;;
    vs <- evalArgs rest env ;;
    ret (v :: vs)
  end.

(** What [evalCallExpression] does with the evaluated callee. *)
Definition callValue (fn : RuntimeValue) (args : list RuntimeValue) (env : loc)
  : M RuntimeValue :=
  match fn with
  | MK_NATIVE_FN call => native_call call args env
  | MK_FN _ params declarationEnv body _ => evaluateFunction params declarationEnv body args
  | _ => throw (HostString (NotCallable (tag fn)))
  end.

Definition evalCallExpression (callee : Stmt) (args : list Stmt) (env : loc)
  : M RuntimeValue :=
  args' <- evalArgs args env ;;
  fn <- evaluate callee env ;;
  callValue fn args' env.

(** The [do ... while] of [evalForStatement]. *)
Fixpoint doWhile (fuel : nat) (body : list Stmt) (update : Stmt) (test : Stmt)
  (env : loc) : M unit :=
  match fuel with
  | O => fun _ => Abort OutOfFuel
  | S fuel' =>
    scope <- Env.new (Some env) ;;
    _ <- evalBody body scope false ;;
    _ <- evaluateAssignment update env ;;
    t <- evaluate test env ;;
    flag <- lift (get_field f_value t) ;;
    if truthy flag then doWhile fuel' body update test env else ret tt
  end.

Definition evalForStatement (fuel : nat) (init : bool * string * option Stmt)
  (test : Stmt) (update : Stmt) (body : list Stmt) (env : loc) : M RuntimeValue :=
  env' <- Env.new (Some env) ;;
  _ <- evaluateVariableDeclaration init env' ;;
  t <- evaluate test env' ;;
  flag <- lift (get_field f_value t) ;;
  if strict_not_equal flag (JsBoolean true) then ret MK_NULL
  else
    _ <- doWhile fuel body update test env' ;;
    ret MK_NULL.

Definition evalTryCatchStatement (env : loc) (body alternate : list Stmt)
  : M RuntimeValue :=
  try_env <- Env.new (Some env) ;;
  catch_env <- Env.new (Some env) ;;
  try_catch (evalBody body try_env false)
    (fun e =>
       _ <- Env.assignVariable env "error" e ;;
       evalBody alternate catch_env false).

End Callbacks.

(** [interpreter.ts] *)
Fixpoint evaluate (fuel : nat) (astNode : Stmt) (env : loc) : M RuntimeValue :=
  match fuel with
  | O => fun _ => Abort OutOfFuel
  | S fuel' =>
    let ev := evaluate fuel' in
    match astNode with
    | Program body => evaluateProgram ev body env
    | NumericLiteral value => ret (MK_NUMBER value)
    | StringLiteral value => ret (MK_STRING value)
    | Identifier symbol => evaluateIdentifier symbol env
    | ObjectLiteral properties => evaluateObjectExpression ev properties env
    | ArrayLiteral values => evaluateArrayExpression ev values env
    | CallExpression callee args => evalCallExpression ev callee args env
    | AssignmentExpression _ _ => evaluateAssignment ev astNode env
    | BinaryExpression lhs rhs operator =>
      evaluateBinaryExpression ev lhs rhs operator env
    | IfStatement test body alternate => evalIfStatement ev test body alternate env
    | ForStatement init test update body =>
      evalForStatement ev fuel' init test update body env
    | MemberExpression object property _ =>
      evaluateMemberExpression ev env None (Some (object, property))
    | TryCatchStatement body alternate => evalTryCatchStatement ev env body alternate
    | VariableDeclaration constant identifier value =>
      evaluateVariableDeclaration ev (constant, identifier, value) env
    | FunctionDeclaration name params body body_ref =>
      evalFunctionDeclaration name params body body_ref env
    end
  end.

End Evaluator.

(** ** Programs, stores and notions the statements use *)

(** A host without native functions: every callback returns null. *)
Definition no_natives : nat -> list RuntimeValue -> loc -> M RuntimeValue :=
  fun _ _ _ => ret MK_NULL.

(** The first declarations of [createGlobalEnvironment]: [true], [false]
    and [null] are constants, [error] is a variable. *)
Definition global_scope : Environment :=
  {| parent := None;
     variables := <["error" := MK_NULL]>
                    (<["null" := MK_NULL]>
                       (<["false" := MK_BOOL false]> (<["true" := MK_BOOL true]> ∅)));
     constants := {["true"; "false"; "null"]} |}.

Definition initial : State := {| envs := [global_scope]; objects := []; arrays := [] |}.

Definition result_of {A} (o : Outcome A) : option A :=
  match o with
  | Ret a _ => Some a
  | _ => None
  end.

Definition raised_by {A} (o : Outcome A) : option RuntimeValue :=
  match o with
  | Raise e _ => Some e
  | _ => None
  end.

Definition state_of {A} (o : Outcome A) : option State :=
  match o with
  | Ret _ st | Raise _ st | Exit st => Some st
  | Abort _ => None
  end.

(** The value a scope of the final store holds for a name. *)
Definition variable_of {A} (o : Outcome A) (scope : loc) (name : string)
  : option RuntimeValue :=
  st ← state_of o; e ← envs st !! scope; variables e !! name.

Definition run (program : Stmt) : Outcome RuntimeValue :=
  evaluate no_natives 20 program 0 initial.

(** The store after [new Environment(env)]. *)
Definition with_child (env : loc) (st : State) : State :=
  set_envs (fun es => es ++ [{| parent := Some env; variables := ∅; constants := ∅ |}]) st.

(** [x = e] *)
Definition assign (x : string) (e : Stmt) : Stmt := AssignmentExpression (Identifier x) e.

(** [let t = true; let m = 1; let n = 0; let c = 0;
     for (let i = 0; t; t = n) { c = c + 1  n = m  m = 0 }]:
    the test is the boolean [true] at first, the number 1 after the first
    update and the number 0 after the second; [c] counts the runs of the
    body. *)
Definition loop_with_numeric_test : Stmt :=
  Program
    [VariableDeclaration false "t" (Some (Identifier "true"));
     VariableDeclaration false "m" (Some (NumericLiteral 1));
     VariableDeclaration false "n" (Some (NumericLiteral 0));
     VariableDeclaration false "c" (Some (NumericLiteral 0));
     ForStatement (false, "i", Some (NumericLiteral 0)) (Identifier "t")
       (assign "t" (Identifier "n"))
       [assign "c" (BinaryExpression (Identifier "c") (NumericLiteral 1) "+");
        assign "n" (Identifier "m");
        assign "m" (NumericLiteral 0)]].

(** [for (let i = 0; i < 2; i = i + 1) { "last" }] *)
Definition for_twice : Stmt :=
  ForStatement (false, "i", Some (NumericLiteral 0))
    (BinaryExpression (Identifier "i") (NumericLiteral 2) "<")
    (assign "i" (BinaryExpression (Identifier "i") (NumericLiteral 1) "+"))
    [StringLiteral "last"].

(** [if (1) { "a" } else { "b" }] *)
Definition if_one : Stmt :=
  IfStatement (NumericLiteral 1) [StringLiteral "a"] (Some [StringLiteral "b"]).

(** [let o = { a: 1 }  let seen = 0  if (o.b) { "a" } else { seen = 1 }] *)
Definition if_missing_property : Stmt :=
  Program
    [VariableDeclaration false "o" (Some (ObjectLiteral [("a", Some (NumericLiteral 1))]));
     VariableDeclaration false "seen" (Some (NumericLiteral 0));
     IfStatement (MemberExpression (Identifier "o") (Identifier "b") false)
       [StringLiteral "a"] (Some [assign "seen" (NumericLiteral 1)])].

(** [fn h(x) { if (x) { "a" } else { "b" } }  h()] *)
Definition if_missing_argument : Stmt :=
  Program
    [FunctionDeclaration "h" ["x"]
       [IfStatement (Identifier "x") [StringLiteral "a"] (Some [StringLiteral "b"])] 0;
     CallExpression (Identifier "h") []].



(** [fn f(x, y) { y }  f(1)] *)
Definition call_with_missing_argument : Stmt :=
  Program [FunctionDeclaration "f" ["x"; "y"] [Identifier "y"] 0;
           CallExpression (Identifier "f") [NumericLiteral 1]].

(** [fn g(x) { x == null }  g()] *)
Definition compare_missing_argument_with_null : Stmt :=
  Program [FunctionDeclaration "g" ["x"]
             [BinaryExpression (Identifier "x") (Identifier "null") "=="] 0;
           CallExpression (Identifier "g") []].

(** [let seen = 0;
     if (true) { const error = 1; try { nope } catch { seen = 1 } }] *)
Definition catch_with_constant_error : Stmt :=
  Program
    [VariableDeclaration false "seen" (Some (NumericLiteral 0));
     IfStatement (Identifier "true")
       [VariableDeclaration true "error" (Some (NumericLiteral 1));
        TryCatchStatement [Identifier "nope"] [assign "seen" (NumericLiteral 1)]]
       None].

(** [if (true) { try { nope } catch { "caught" } }] *)
Definition catch_in_block : Stmt :=
  Program
    [IfStatement (Identifier "true")
       [TryCatchStatement [Identifier "nope"] [StringLiteral "caught"]] None].

(** [try { nope } catch { error }] *)
Definition catch_reads_error : Stmt :=
  TryCatchStatement [Identifier "nope"] [Identifier "error"].


(** [const a = { "b": { "c": 1 } };  a.b.c = 5  a.b.c] *)
Definition path_write : Stmt :=
  Program
    [VariableDeclaration true "a"
       (Some (ObjectLiteral [("b", Some (ObjectLiteral [("c", Some (NumericLiteral 1))]))]));
     AssignmentExpression
       (MemberExpression (MemberExpression (Identifier "a") (Identifier "b") false)
          (Identifier "c") false)
       (NumericLiteral 5);
     MemberExpression (MemberExpression (Identifier "a") (Identifier "b") false)
       (Identifier "c") false].

(** [const a = { "x": 1 };  let b = a;  b.x = 2  a.x] *)
Definition alias_write : Stmt :=
  Program
    [VariableDeclaration true "a" (Some (ObjectLiteral [("x", Some (NumericLiteral 1))]));
     VariableDeclaration false "b" (Some (Identifier "a"));
     AssignmentExpression (MemberExpression (Identifier "b") (Identifier "x") false)
       (NumericLiteral 2);
     MemberExpression (Identifier "a") (Identifier "x") false].

(** [o'] is what [o] becomes with more fuel: the same, unless [o] ran
    out of it. *)
Definition with_more_fuel {A : Type} (o o' : Outcome A) : Prop :=
  o = Abort OutOfFuel \/ o = o'.

(** The operators of the two groups that answer [false] on operands of
    the wrong type. *)
Definition logical_operators : list string := ["&&"; "|"].

Definition numeric_operators : list string := ["+"; "-"; "*"; "/"; "%"; "<"; ">"].

(** ** Notions of the store properties *)

(** Every parent link of the store points to an older environment: the
    constructor of [Environment] is the only place that sets it. *)
Definition well_scoped (st : State) : Prop :=
  forall (l : loc) e p, envs st !! l = Some e -> parent e = Some p -> p < l.

(** The environment [e] with [x] bound to [v]. *)
Definition bound (x : string) (v : RuntimeValue) (isConst : bool) (e : Environment)
  : Environment :=
  {| parent := parent e;
     variables := <[x := v]> (variables e);
     constants := if isConst then {[x]} ∪ constants e else constants e |}.

(** The store with the environment at [l] replaced. *)
Definition with_scope (l : loc) (e : Environment) (st : State) : State :=
  set_envs (fun es => <[l := e]> es) st.

(** The same outcome, reached in another store. *)
Definition in_store {A : Type} (st : State) (o : Outcome A) : Outcome A :=
  match o with
  | Ret a _ => Ret a st
  | Raise e _ => Raise e st
  | Exit _ => Exit st
  | Abort why => Abort why
  end.

(** The store an outcome ends in satisfies [P]. *)
Definition holds_after {A : Type} (P : State -> Prop) (o : Outcome A) : Prop :=
  match o with
  | Ret _ st | Raise _ st | Exit st => P st
  | Abort _ => True
  end.

(** A computation that keeps [P]. *)
Definition keeps {A : Type} (P : State -> Prop) (c : M A) : Prop :=
  forall st, P st -> holds_after P (c st).

(** No container of [st] is missing from [st']. *)
Definition grows (st st' : State) : Prop :=
  length (envs st) <= length (envs st')
  /\ length (objects st) <= length (objects st')
  /\ length (arrays st) <= length (arrays st').

(** What the scope [e] has become in [e']: the same parent, no name
    lost, every constant still constant and, where it was bound, still
    bound to the same value. *)
Definition scope_kept (e e' : Environment) : Prop :=
  parent e' = parent e
  /\ (forall x, is_Some (variables e !! x) -> is_Some (variables e' !! x))
  /\ (forall x, x ∈ constants e ->
                x ∈ constants e'
                /\ (is_Some (variables e !! x) -> variables e' !! x = variables e !! x)).

Definition scopes_kept (st st' : State) : Prop :=
  forall (l : loc) e, envs st !! l = Some e ->
                      exists e', envs st' !! l = Some e' /\ scope_kept e e'.

(** ** Notions of the lexer properties *)

(** No character, or one that [p] refuses, is next. *)
Definition stops (p : ascii -> bool) (src : list ascii) : bool :=
  match src with
  | [] => true
  | c :: _ => negb (p c)
  end.

(** The text of a string literal for the characters [str]: a backslash
    before a backslash and before a quote, and the letters of [ESCAPED]
    after a backslash for the characters they stand for. *)
Fixpoint escape (str : list ascii) : list ascii :=
  match str with
  | [] => []
  | c :: rest =>
    (if Ascii.eqb c "\" || Ascii.eqb c Lexer.double_quote then ["\"%char; c]
     else if Ascii.eqb c "010" then ["\"; "n"]%char
     else if Ascii.eqb c "009" then ["\"; "t"]%char
     else if Ascii.eqb c "013" then ["\"; "r"]%char
     else [c]) ++ escape rest
  end.

(** No quote of [text] closes the literal: each one follows a backslash
    that escapes it. [escaped]: an escaping backslash is before [text]. *)
Fixpoint unclosed (escaped : bool) (text : list ascii) : bool :=
  match text with
  | [] => true
  | c :: rest =>
    if Ascii.eqb c "\" then unclosed (negb escaped) rest
    else if Ascii.eqb c Lexer.double_quote then escaped && unclosed false rest
    else unclosed false rest
  end.

(** The characters a literal with the text [text] stands for: a
    backslash escapes the character after it, the letters of [ESCAPED]
    stand for their characters, a backslash and a quote for themselves,
    another character keeps its backslash; a last backslash that escapes
    nothing is dropped. *)
Fixpoint unescape (escaped : bool) (text : list ascii) : list ascii :=
  match text with
  | [] => []
  | c :: rest =>
    if Ascii.eqb c "\" then
      if escaped then c :: unescape false rest else unescape true rest
    else if escaped then
      (if Ascii.eqb c Lexer.double_quote then [c]
       else match Lexer.ESCAPED c with
            | Some c' => [c']
            | None => ["\"%char; c]
            end)
      ++ unescape false rest
    else c :: unescape false rest
  end.

(** The characters the lexer has an arm for. *)
Definition recognized (c : ascii) : bool :=
  Lexer.isInt c || Lexer.isAlpha c true || Lexer.isSkippable c
  || bool_decide (is_Some (Lexer.TOKEN_CHARS c))
  || Ascii.eqb c "=" || Ascii.eqb c "&" || Ascii.eqb c "!"
  || Ascii.eqb c Lexer.double_quote.

(** [[1] == [1]] *)
Definition same_literal_twice : Stmt :=
  BinaryExpression (ArrayLiteral [NumericLiteral 1]) (ArrayLiteral [NumericLiteral 1]) "==".

(** ** The parser ([frontend/parser.ts])

    The parser reads the array of tokens from its front. Its counters of
    lines and columns only feed the message [expect] prints before it
    exits, and are left out. [next_ref] names the next array that the
    parser makes for the body of a function. *)

Module Parser.

Record State : Type := { tokens : list Lexer.Token; next_ref : nat }.

(** What the parser throws: five texts and two [Error] objects. *)
Inductive Thrown : Type :=
| ArgumentsMustBeStrings
| NoValueForConstant
| TernaryNeedsTest
| TernaryNeedsBar
| TryNeedsCatch
| IdentifierExpectedInObject
| PropertyNameExpected.

(** What a call of the parser comes to: [Exited] is [process.exit(1)],
    [HostError] a [TypeError] of the host on reading the named property
    of [undefined], [Hangs] a lexer that does not return. *)
Inductive Result (A : Type) : Type :=
| Parsed (a : A) (st : State)
| Threw (why : Thrown)
| Exited
| HostError (reading : string)
| Hangs
| Timeout.
Arguments Parsed {A} a st.
Arguments Threw {A} why.
Arguments Exited {A}.
Arguments HostError {A} reading.
Arguments Hangs {A}.
Arguments Timeout {A}.

Definition P (A : Type) : Type := State -> Result A.

Definition ret {A} (a : A) : P A := fun st => Parsed a st.

Definition bind {A B} (c : P A) (k : A -> P B) : P B :=
  fun st =>
    match c st with
    | Parsed a st' => k a st'
    | Threw why => Threw why
    | Exited => Exited
    | HostError reading => HostError reading
    | Hangs => Hangs
    | Timeout => Timeout
    end.

Notation "x <~ c ;; k" := (bind c (fun x => k))
  (at level 100, c at next level, right associativity).

Definition throw {A} (why : Thrown) : P A := fun _ => Threw why.

Definition exit {A} : P A := fun _ => Exited.

Definition timeout {A} : P A := fun _ => Timeout.

Definition is_type (t : Lexer.Token) (type : Lexer.TokenType) : bool :=
  bool_decide (Lexer.type t = type).

(** [this.tokens.shift()], and the [switch (token.type)] that follows. *)
Definition shift : P Lexer.Token :=
  fun st =>
    match tokens st with
    | [] => HostError "type"
    | t :: rest => Parsed t {| tokens := rest; next_ref := next_ref st |}
    end.

(** The tokens after the new lines [at] and [eat] shift away. *)
Fixpoint skipNewLines (ts : list Lexer.Token) : list Lexer.Token :=
  match ts with
  | [] => []
  | t :: rest => if is_type t Lexer.NewLine then skipNewLines rest else ts
  end.

Definition at_ : P Lexer.Token :=
  fun st =>
    match skipNewLines (tokens st) with
    | [] => HostError "type"
    | t :: rest => Parsed t {| tokens := t :: rest; next_ref := next_ref st |}
    end.

Definition notEOF : P bool := t <~ at_ ;; ret (negb (is_type t Lexer.EOF)).

Definition eat : P Lexer.Token :=
  fun st =>
    match skipNewLines (tokens st) with
    | [] => HostError "type"
    | t :: rest => Parsed t {| tokens := rest; next_ref := next_ref st |}
    end.

Definition expect (type : Lexer.TokenType) : P Lexer.Token :=
  prev <~ eat ;;
  if is_type prev type then ret prev else exit.

(** A new array for the body of a function. *)
Definition fresh : P nat :=
  fun st => Parsed (next_ref st) {| tokens := tokens st; next_ref := S (next_ref st) |}.

Definition is_identifier (e : Stmt) : bool :=
  match e with
  | Identifier _ => true
  | _ => false
  end.

(** [array.includes(value)] *)
Definition includes (array : list string) (value : string) : bool :=
  existsb (String.eqb value) array.

Section Parse.

(** [parseFloat] of the host, on the text of a number token. *)
Variable parseFloat : string -> float.

Section Callbacks.

Variable parseExpression : P Stmt.
Variable parseAssignmentExpression : P Stmt.
Variable parseStatement : P Stmt.

Definition parsePrimaryExpression : P Stmt :=
  token <~ at_ ;;
  match Lexer.type token with
  | Lexer.Identifier => t <~ eat ;; ret (Identifier (Lexer.value t))
  | Lexer.Number => t <~ eat ;; ret (NumericLiteral (parseFloat (Lexer.value t)))
  | Lexer.String => t <~ eat ;; ret (StringLiteral (Lexer.value t))
  | Lexer.OpenParen =>
    _ <~ eat ;;
    value <~ parseExpression ;;
    _ <~ expect Lexer.CloseParen ;;
    ret value
  | _ => exit
  end.

(** The [while] of [parseMemberExpression]. *)
Fixpoint memberLoop (fuel : nat) (object : Stmt) : P Stmt :=
  match fuel with
  | O => timeout
  | S fuel' =>
    t <~ at_ ;;
    if is_type t Lexer.Dot || is_type t Lexer.OpenBracket then
      operator <~ eat ;;
      if is_type operator Lexer.Dot then
        property <~ parsePrimaryExpression ;;
        if is_identifier property
        then memberLoop fuel' (MemberExpression object property false)
        else throw PropertyNameExpected
      else
        property <~ parseExpression ;;
        _ <~ expect Lexer.CloseBracket ;;
        memberLoop fuel' (MemberExpression object property true)
    else ret object
  end.

Definition parseMemberExpression (fuel : nat) : P Stmt :=
  object <~ parsePrimaryExpression ;;
  memberLoop fuel object.

(** [while (this.at().type === TokenType.Comma && this.eat())] *)
Fixpoint argumentsLoop (fuel : nat) (args : list Stmt) : P (list Stmt) :=
  match fuel with
  | O => timeout
  | S fuel' =>
    t <~ at_ ;;
    if is_type t Lexer.Comma then
      _ <~ eat ;;
      arg <~ parseAssignmentExpression ;;
      argumentsLoop fuel' (args ++ [arg])
    else ret args
  end.

Definition parseArgumentsList (fuel : nat) : P (list Stmt) :=
  first <~ parseExpression ;;
  argumentsLoop fuel [first].

Definition parseArguments (fuel : nat) : P (list Stmt) :=
  _ <~ expect Lexer.OpenParen ;;
  t <~ at_ ;;
  args <~ (if is_type t Lexer.CloseParen then ret [] else parseArgumentsList fuel) ;;
  _ <~ expect Lexer.CloseParen ;;
  ret args.

Fixpoint parseCallExpression (fuel : nat) (caller : Stmt) : P Stmt :=
  match fuel with
  | O => timeout
  | S fuel' =>
    args <~ parseArguments fuel' ;;
    let callExpr := CallExpression caller args in
    t <~ at_ ;;
    if is_type t Lexer.OpenParen then parseCallExpression fuel' callExpr
    else ret callExpr
  end.

Definition parseCallMemberExpression (fuel : nat) : P Stmt :=
  member <~ parseMemberExpression fuel ;;
  t <~ at_ ;;
  if is_type t Lexer.OpenParen then parseCallExpression fuel member
  else ret member.

(** The [while] of a level of binary operators over the level [operand]. *)
Fixpoint binaryLoop (operators : list string) (operand : P Stmt) (fuel : nat)
  (left : Stmt) : P Stmt :=
  match fuel with
  | O => timeout
  | S fuel' =>
    t <~ at_ ;;
    if includes operators (Lexer.value t) then
      op <~ eat ;;
      right <~ operand ;;
      binaryLoop operators operand fuel' (BinaryExpression left right (Lexer.value op))
    else ret left
  end.

Definition parseMultiplicativeExpression (fuel : nat) : P Stmt :=
  left <~ parseCallMemberExpression fuel ;;
  binaryLoop ["/"; "*"; "%"] (parseCallMemberExpression fuel) fuel left.

Definition parseAdditiveExpression (fuel : nat) : P Stmt :=
  left <~ parseMultiplicativeExpression fuel ;;
  binaryLoop ["+"; "-"; "=="; "!="; "<"; ">"] (parseMultiplicativeExpression fuel) fuel left.

(** The [while] of [parseAndStatement]: its right operand is a whole
    expression. *)
Fixpoint andLoop (fuel : nat) (left : Stmt) : P Stmt :=
  match fuel with
  | O => timeout
  | S fuel' =>
    t <~ at_ ;;
    if is_type t Lexer.And || is_type t Lexer.Bar then
      op <~ eat ;;
      right <~ parseExpression ;;
      andLoop fuel' (BinaryExpression left right (Lexer.value op))
    else ret left
  end.

Definition parseAndStatement (fuel : nat) : P Stmt :=
  left <~ parseAdditiveExpression fuel ;;
  t <~ at_ ;;
  if includes ["&&"; "|"] (Lexer.value t) then
    op <~ eat ;;
    right <~ parseAdditiveExpression fuel ;;
    andLoop fuel (BinaryExpression left right (Lexer.value op))
  else ret left.

(** The [while] of [parseBlockStatement]. *)
Fixpoint blockLoop (fuel : nat) (body : list Stmt) : P (list Stmt) :=
  match fuel with
  | O => timeout
  | S fuel' =>
    more <~ notEOF ;;
    if more then
      t <~ at_ ;;
      if negb (is_type t Lexer.CloseBrace) then
        stmt <~ parseStatement ;;
        blockLoop fuel' (body ++ [stmt])
      else ret body
    else ret body
  end.

Definition parseBlockStatement (fuel : nat) : P (list Stmt) :=
  _ <~ expect Lexer.OpenBrace ;;
  body <~ blockLoop fuel [] ;;
  _ <~ expect Lexer.CloseBrace ;;
  ret body.

Definition is_word (t : Lexer.Token) (word : string) : bool :=
  is_type t Lexer.Identifier && String.eqb (Lexer.value t) word.

Definition parseTryCatchExpression (fuel : nat) : P Stmt :=
  t <~ at_ ;;
  if negb (is_word t "try") then parseAndStatement fuel
  else
    _ <~ eat ;;
    body <~ parseBlockStatement fuel ;;
    t' <~ at_ ;;
    if negb (is_word t' "catch") then throw TryNeedsCatch
    else
      _ <~ eat ;;
      alternate <~ parseBlockStatement fuel ;;
      ret (TryCatchStatement body alternate).

(** The [while] of [parseArrayExpression]. *)
Fixpoint arrayLoop (fuel : nat) (values : list Stmt) : P (list Stmt) :=
  match fuel with
  | O => timeout
  | S fuel' =>
    more <~ notEOF ;;
    if more then
      t <~ at_ ;;
      if negb (is_type t Lexer.CloseBracket) then
        value <~ parseExpression ;;
        t' <~ at_ ;;
        _ <~ (if negb (is_type t' Lexer.CloseBracket)
              then _ <~ expect Lexer.Comma ;; ret tt else ret tt) ;;
        arrayLoop fuel' (values ++ [value])
      else ret values
    else ret values
  end.

Definition parseArrayExpression (fuel : nat) : P Stmt :=
  t <~ at_ ;;
  if negb (is_type t Lexer.OpenBracket) then parseTryCatchExpression fuel
  else
    _ <~ eat ;;
    values <~ arrayLoop fuel [] ;;
    _ <~ expect Lexer.CloseBracket ;;
    ret (ArrayLiteral values).

(** The [while] of [parseObjectExpression]. *)
Fixpoint objectLoop (fuel : nat) (properties : list (string * option Stmt))
  : P (list (string * option Stmt)) :=
  match fuel with
  | O => timeout
  | S fuel' =>
    more <~ notEOF ;;
    if more then
      t <~ at_ ;;
      if negb (is_type t Lexer.CloseBrace) then
        if negb (is_type t Lexer.Identifier) && negb (is_type t Lexer.String)
        then throw IdentifierExpectedInObject
        else
          k <~ eat ;;
          let key := Lexer.value k in
          t' <~ at_ ;;
          if is_type t' Lexer.Comma then
            _ <~ eat ;;
            objectLoop fuel' (properties ++ [(key, None)])
          else if is_type t' Lexer.CloseBrace then ret (properties ++ [(key, None)])
          else
            _ <~ expect Lexer.Colon ;;
            value <~ parseExpression ;;
            t'' <~ at_ ;;
            _ <~ (if negb (is_type t'' Lexer.CloseBrace)
                  then _ <~ expect Lexer.Comma ;; ret tt else ret tt) ;;
            objectLoop fuel' (properties ++ [(key, Some value)])
      else ret properties
    else ret properties
  end.

Definition parseObjectExpression (fuel : nat) : P Stmt :=
  t <~ at_ ;;
  if negb (is_type t Lexer.OpenBrace) then parseArrayExpression fuel
  else
    _ <~ eat ;;
    properties <~ objectLoop fuel [] ;;
    _ <~ expect Lexer.CloseBrace ;;
    ret (ObjectLiteral properties).

Definition parseAssignmentExpression_body (fuel : nat) : P Stmt :=
  left <~ parseObjectExpression fuel ;;
  t <~ at_ ;;
  if is_type t Lexer.Equals then
    _ <~ eat ;;
    value <~ parseAssignmentExpression ;;
    ret (AssignmentExpression left value)
  else ret left.

Definition parseExpression_body : P Stmt :=
  data <~ parseAssignmentExpression ;;
  t <~ at_ ;;
  if is_type t Lexer.Ternary then
    match data with
    | BinaryExpression _ _ _ | Identifier _ =>
      _ <~ eat ;;
      expr <~ parseExpression ;;
      match expr with
      | BinaryExpression lhs rhs operator =>
        if String.eqb operator "|" then
          body_ref <~ fresh ;;
          ret (CallExpression
                 (FunctionDeclaration "<anonymous>" []
                    [IfStatement data [lhs] (Some [rhs])] body_ref)
                 [])
        else throw TernaryNeedsBar
      | _ => throw TernaryNeedsBar
      end
    | _ => throw TernaryNeedsTest
    end
  else ret data.

(** The fields of the declaration: [constant], [identifier], [value]. *)
Definition parseVariableDeclaration : P (bool * string * option Stmt) :=
  first <~ eat ;;
  let isConst := is_type first Lexer.Const in
  name <~ expect Lexer.Identifier ;;
  let identifier := Lexer.value name in
  t <~ at_ ;;
  if is_type t Lexer.Semicolon then
    _ <~ eat ;;
    if isConst then throw NoValueForConstant
    else ret (false, identifier, None)
  else
    _ <~ expect Lexer.Equals ;;
    value <~ parseExpression ;;
    _ <~ expect Lexer.Semicolon ;;
    ret (isConst, identifier, Some value).

(** [for (const arg of args)]: the names of the parameters. *)
Fixpoint paramsOf (args : list Stmt) : option (list string) :=
  match args with
  | [] => Some []
  | Identifier symbol :: rest => cons symbol <$> paramsOf rest
  | _ :: _ => None
  end.

Definition parseFunctionDeclaration (fuel : nat) : P Stmt :=
  _ <~ eat ;;
  t <~ at_ ;;
  name <~ (if is_type t Lexer.Identifier
           then n <~ eat ;; ret (Lexer.value n) else ret "<anonymous>") ;;
  args <~ parseArguments fuel ;;
  match paramsOf args with
  | None => throw ArgumentsMustBeStrings
  | Some params =>
    body_ref <~ fresh ;;
    body <~ parseBlockStatement fuel ;;
    ret (FunctionDeclaration name params body body_ref)
  end.

Fixpoint parseIfStatement (fuel : nat) : P Stmt :=
  match fuel with
  | O => timeout
  | S fuel' =>
    _ <~ eat ;;
    _ <~ expect Lexer.OpenParen ;;
    test <~ parseExpression ;;
    _ <~ expect Lexer.CloseParen ;;
    body <~ parseBlockStatement fuel' ;;
    t <~ at_ ;;
    alternate <~ (if is_type t Lexer.Else then
                    _ <~ eat ;;
                    t' <~ at_ ;;
                    if is_type t' Lexer.If
                    then nested <~ parseIfStatement fuel' ;; ret [nested]
                    else parseBlockStatement fuel'
                  else ret []) ;;
    ret (IfStatement test body (Some alternate))
  end.

Definition parseForStatement (fuel : nat) : P Stmt :=
  _ <~ eat ;;
  _ <~ expect Lexer.OpenParen ;;
  init <~ parseVariableDeclaration ;;
  test <~ parseExpression ;;
  _ <~ expect Lexer.Semicolon ;;
  update <~ parseExpression ;;
  _ <~ expect Lexer.CloseParen ;;
  body <~ parseBlockStatement fuel ;;
  ret (ForStatement init test update body).

Definition parseStatement_body (fuel : nat) : P Stmt :=
  t <~ at_ ;;
  match Lexer.type t with
  | Lexer.Let | Lexer.Const =>
    declaration <~ parseVariableDeclaration ;;
    let '(constant, identifier, value) := declaration in
    ret (VariableDeclaration constant identifier value)
  | Lexer.Fn => parseFunctionDeclaration fuel
  | Lexer.If => parseIfStatement fuel
  | Lexer.For => parseForStatement fuel
  | Lexer.NewLine => _ <~ at_ ;; parseStatement
  | _ => parseExpression
  end.

End Callbacks.

(** The three functions through which the parser calls itself, closed
    on fuel. *)
Fixpoint parseExpression (fuel : nat) : P Stmt :=
  match fuel with
  | O => timeout
  | S fuel' =>
    parseExpression_body (fun st => parseExpression fuel' st)
      (fun st => parseAssignmentExpression fuel' st)
  end
with parseAssignmentExpression (fuel : nat) : P Stmt :=
  match fuel with
  | O => timeout
  | S fuel' =>
    parseAssignmentExpression_body (fun st => parseExpression fuel' st)
      (fun st => parseAssignmentExpression fuel' st)
      (fun st => parseStatement fuel' st) fuel'
  end
with parseStatement (fuel : nat) : P Stmt :=
  match fuel with
  | O => timeout
  | S fuel' =>
    parseStatement_body (fun st => parseExpression fuel' st)
      (fun st => parseAssignmentExpression fuel' st)
      (fun st => parseStatement fuel' st) fuel'
  end.

(** The [while (this.notEOF())] of [produceAST]. *)
Fixpoint programLoop (fuel : nat) (body : list Stmt) : P (list Stmt) :=
  match fuel with
  | O => timeout
  | S fuel' =>
    more <~ notEOF ;;
    if more then
      stmt <~ parseStatement fuel ;;
      programLoop fuel' (body ++ [stmt])
    else ret body
  end.

(** What [produceAST] does with the tokens. *)
Definition program (fuel : nat) : P Stmt :=
  body <~ programLoop fuel [] ;;
  ret (Program body).

(** [produceAST]; [next_ref] is the number of arrays that earlier calls
    have made. *)
Definition produceAST (fuel : nat) (sourceCode : string) (next_ref : nat) : Result Stmt :=
  match Lexer.tokenize sourceCode with
  | Lexer.Lexed tokens => program fuel {| tokens := tokens; next_ref := next_ref |}
  | Lexer.HostError reading => HostError reading
  | Lexer.ProcessExit => Exited
  | Lexer.Timeout => Hangs
  end.

End Parse.

End Parser.

(** ** Notions of the parser properties *)

(** The tokens without the new lines. *)
Definition strip (ts : list Lexer.Token) : list Lexer.Token :=
  List.filter (fun t => negb (Parser.is_type t Lexer.NewLine)) ts.

(** Two states of the parser that differ in new lines only. *)
Definition same_scan (s1 s2 : Parser.State) : Prop :=
  strip (Parser.tokens s1) = strip (Parser.tokens s2)
  /\ Parser.next_ref s1 = Parser.next_ref s2.

(** Two results that are the same, up to the new lines left to read. *)
Definition alike {A : Type} (r1 r2 : Parser.Result A) : Prop :=
  match r1, r2 with
  | Parser.Parsed a s1, Parser.Parsed b s2 => a = b /\ same_scan s1 s2
  | Parser.Threw why, Parser.Threw why' => why = why'
  | Parser.Exited, Parser.Exited => True
  | Parser.HostError reading, Parser.HostError reading' => reading = reading'
  | Parser.Hangs, Parser.Hangs => True
  | Parser.Timeout, Parser.Timeout => True
  | _, _ => False
  end.

(** A computation that new lines do not change. *)
Definition blind {A : Type} (c : Parser.P A) : Prop :=
  forall s1 s2, same_scan s1 s2 -> alike (c s1) (c s2).

(** The tree a call of the parser gives, when it gives one. *)
Definition tree_of {A : Type} (r : Parser.Result A) : option A :=
  match r with
  | Parser.Parsed a _ => Some a
  | _ => None
  end.

(** The number of tokens left to read. *)
Definition left_to_read (st : Parser.State) : nat := length (Parser.tokens st).

(** [c] does not run out of fuel from [st], and [Q] holds of what it
    returns. *)
Definition returns {A : Type} (c : Parser.P A) (st : Parser.State)
  (Q : A -> Parser.State -> Prop) : Prop :=
  match c st with
  | Parser.Parsed a st' => Q a st'
  | Parser.Timeout => False
  | _ => True
  end.

(** The types of the tokens a statement starts with. *)
Definition starts_statement (type : Lexer.TokenType) : bool :=
  match type with
  | Lexer.Let | Lexer.Const | Lexer.Fn | Lexer.If | Lexer.For
  | Lexer.Identifier | Lexer.Number | Lexer.String
  | Lexer.OpenParen | Lexer.OpenBrace | Lexer.OpenBracket => true
  | _ => false
  end.

(** The operators of the two levels of [parseAdditiveExpression] and
    [parseMultiplicativeExpression]. *)
Definition additive : list string := ["+"; "-"; "=="; "!="; "<"; ">"].

Definition multiplicative : list string := ["/"; "*"; "%"].

(** A token that is read as an operator of these levels, and is not a
    new line or the start of a member access or of a call. *)
Definition infix (operators : list string) (t : Lexer.Token) : bool :=
  Parser.includes operators (Lexer.value t)
  && negb (Parser.is_type t Lexer.NewLine) && negb (Parser.is_type t Lexer.Dot)
  && negb (Parser.is_type t Lexer.OpenBracket) && negb (Parser.is_type t Lexer.OpenParen).

(** A token after which an expression of names and these operators goes
    no further. *)
Definition closes (t : Lexer.Token) : bool :=
  negb (Parser.includes (additive ++ multiplicative ++ ["&&"; "|"]) (Lexer.value t))
  && negb (Parser.is_type t Lexer.NewLine) && negb (Parser.is_type t Lexer.Dot)
  && negb (Parser.is_type t Lexer.OpenBracket) && negb (Parser.is_type t Lexer.OpenParen)
  && negb (Parser.is_type t Lexer.Equals) && negb (Parser.is_type t Lexer.Ternary).

(** [x op y] *)
Definition binary (x : string) (op : Lexer.Token) (y : Stmt) : Stmt :=
  BinaryExpression (Identifier x) y (Lexer.value op).

(** A host whose [parseFloat] reads every text as zero. *)
Definition parse_zero (text : string) : float := 0%float.

(** ** The transcriber ([utils/transcriber.ts])

    [replace_str] replaces every match of a pattern: the target, between
    two word boundaries, where the text that follows holds an even
    number of quotes. The targets and the replacements of [transcribe]
    have no character that the pattern or the replacement would read as
    a command. *)

Module Transcriber.

(** [\w] *)
Definition isWord (c : ascii) : bool :=
  Lexer.between 48 57 c || Lexer.between 65 90 c || Lexer.between 97 122 c
  || Ascii.eqb c "_".

Definition wordAt (c : option ascii) : bool := from_option isWord false c.

(** [\b] between two characters; [None] is an end of the text. *)
Definition boundary (prev next : option ascii) : bool := xorb (wordAt prev) (wordAt next).

Fixpoint quotes (text : list ascii) : nat :=
  match text with
  | [] => 0
  | c :: rest => (if Ascii.eqb c Lexer.double_quote then 1 else 0) + quotes rest
  end.

(** The text after [target], when the text starts with it. *)
Fixpoint after (target text : list ascii) : option (list ascii) :=
  match target, text with
  | [], _ => Some text
  | t :: target', c :: text' => if Ascii.eqb t c then after target' text' else None
  | _ :: _, [] => None
  end.

(** A match of the pattern at the start of [text], which [prev]
    precedes: the text after the match. *)
Definition matchAt (target : list ascii) (prev : option ascii) (text : list ascii)
  : option (list ascii) :=
  match after target text with
  | Some rest =>
    if boundary prev (head text) && boundary (last target) (head rest)
       && Nat.even (quotes rest)
    then Some rest
    else None
  | None => None
  end.

(** The scan of [String.prototype.replace] with a global pattern, from
    left to right: [skip] counts the characters of a match that are
    still to pass. *)
Fixpoint scan (target replacement : list ascii) (prev : option ascii) (skip : nat)
  (text : list ascii) : list ascii :=
  match text with
  | [] => []
  | c :: rest =>
    match skip with
    | S skip' => scan target replacement (Some c) skip' rest
    | O =>
      match matchAt target prev text with
      | Some _ => replacement ++ scan target replacement (Some c) (length target - 1) rest
      | None => c :: scan target replacement (Some c) 0 rest
      end
    end
  end.

Definition replace_str (target replacement : string) (text : list ascii) : list ascii :=
  scan (String.list_ascii_of_string target) (String.list_ascii_of_string replacement)
    None 0 text.

(** The calls of [replace_str] in [transcribe], in their order. *)
Definition words : list (string * string) :=
  [("ahh", ";"); ("is", "="); ("bet", "let"); ("based", "const"); ("yap", "println");
   ("sus", "if"); ("npc", "null"); ("goon", "else"); ("nah", "!="); ("fr", "==");
   ("btw", "&&"); ("maybe", "|"); ("rizz", "fn"); ("nerd", "math"); ("grind", "for");
   ("smol", "<"); ("thicc", ">"); ("deadass", "true"); ("cap", "false");
   ("fuck_around", "try"); ("find_out", "catch"); ("snoop", "input"); ("lose", "-");
   ("gain", "+"); ("down", "--"); ("up", "++"); ("massive", "*"); ("edge", "/");
   ("bye", "exit"); ("lag", "setTimeout"); ("yappachino", "setInterval");
   ("stack", "+="); ("london", "-="); ("betimes", "*="); ("ratio", "/=");
   ("then", "->"); ("lock in", "import"); ("glue", "strcon")].

Definition transcribe_with (table : list (string * string)) (text : list ascii)
  : list ascii :=
  fold_left (fun text' word => replace_str (fst word) (snd word) text') table text.

Definition transcribe (source : string) : string :=
  String.string_of_list_ascii
    (transcribe_with words (String.list_ascii_of_string source)).

End Transcriber.

(** ** Notions of the transcriber properties *)

(** A text without a quote. *)
Definition plain (text : list ascii) : bool :=
  forallb (fun c => negb (Ascii.eqb c Lexer.double_quote)) text.

(** A word of the table that the pattern reads as it is written: a
    target that is not empty, and no quote in it or in what replaces it. *)
Definition literal_word (word : string * string) : bool :=
  negb (String.eqb (fst word) "")
  && plain (String.list_ascii_of_string (fst word))
  && plain (String.list_ascii_of_string (snd word)).

(** ** Notions of the scoping of blocks *)

(** The node may declare a name in the scope it is evaluated in: it is
    a declaration, or it evaluates one in that scope. The bodies of
    [if], [for], [try] and of functions run in scopes of their own. *)
Fixpoint declares (node : Stmt) : bool :=
  match node with
  | Program body => existsb declares body
  | VariableDeclaration _ _ _ => true
  | FunctionDeclaration name _ _ _ => negb (String.eqb name "<anonymous>")
  | IfStatement test _ _ => declares test
  | ForStatement _ _ _ _ => false
  | TryCatchStatement _ _ => false
  | AssignmentExpression assignee value =>
    match assignee with
    | MemberExpression _ _ _ => declares value || declares assignee
    | Identifier _ => declares value
    | _ => false
    end
  | BinaryExpression lhs rhs _ => declares lhs || declares rhs
  | CallExpression callee args => existsb declares args || declares callee
  | MemberExpression object property _ =>
    declares property
    || match object with
       | MemberExpression _ _ _ => declares object
       | _ => false
       end
  | Identifier _ | NumericLiteral _ | StringLiteral _ => false
  | ArrayLiteral values => existsb declares values
  | ObjectLiteral properties =>
    existsb (fun property => from_option declares false (snd property)) properties
  end.

(** Every scope of [st] is in [st'], with the names, the constants and
    the parent it had. *)
Definition same_names (st st' : State) : Prop :=
  forall (l : loc) e,
    envs st !! l = Some e ->
    exists e', envs st' !! l = Some e'
               /\ dom (variables e') = dom (variables e)
               /\ constants e' = constants e
               /\ parent e' = parent e.


(** ** Notions of the soundness of the store *)

(** The value refers to a scope or a container of the store, or to
    none. *)
Definition valid (st : State) (v : RuntimeValue) : Prop :=
  match v with
  | MK_OBJECT l => l < length (objects st)
  | MK_ARRAY l => l < length (arrays st)
  | MK_FN _ _ declarationEnv _ _ => declarationEnv < length (envs st)
  | _ => True
  end.

(** Every parent link points to an older scope, and every value held by
    a scope, an object or an array is valid. *)
Definition well_formed (st : State) : Prop :=
  well_scoped st
  /\ (forall (l : loc) e x v,
         envs st !! l = Some e -> variables e !! x = Some v -> valid st v)
  /\ (forall (l : loc) m k v,
         objects st !! l = Some m -> m !! k = Some v -> valid st v)
  /\ (forall (l : loc) a,
         arrays st !! l = Some a ->
         (forall i v, items a !! i = Some v -> valid st v)
         /\ (forall k v, (k, v) ∈ named a -> valid st v)).

(** The outcome of a computation started in [st]: it followed no address
    outside the store, the store it ends in has lost no container and is
    well formed, and what it returns satisfies [Q], what it raises is
    valid. *)
Definition sound_after {A : Type} (Q : A -> State -> Prop) (st : State)
  (o : Outcome A) : Prop :=
  match o with
  | Ret a st' => grows st st' /\ well_formed st' /\ Q a st'
  | Raise e st' => grows st st' /\ well_formed st' /\ valid st' e
  | Exit st' => grows st st' /\ well_formed st'
  | Abort why => why = OutOfFuel
  end.

(** A value that refers to nothing. *)
Definition plain_value (v : RuntimeValue) : bool :=
  match v with
  | MK_OBJECT _ | MK_ARRAY _ | MK_FN _ _ _ _ _ => false
  | _ => true
  end.

Definition plain_completion (c : Completion RuntimeValue) : bool :=
  match c with
  | Normal v | Throw v => plain_value v
  end.

(** ** Notions of the words of a text *)

(** The word a text starts with: its characters up to the first that is
    not a word character. *)
Fixpoint word_prefix (text : list ascii) : list ascii :=
  match text with
  | [] => []
  | c :: rest => if Transcriber.isWord c then c :: word_prefix rest else []
  end.

(** The whole words of a text that [prev] precedes: its longest runs of
    word characters, from left to right. *)
Fixpoint whole_words (prev : option ascii) (text : list ascii) : list (list ascii) :=
  match text with
  | [] => []
  | c :: rest =>
    (if negb (Transcriber.wordAt prev) && Transcriber.isWord c
     then [word_prefix text] else [])
    ++ whole_words (Some c) rest
  end.

(** The first word of the target of an entry of the table. *)
Definition first_word (word : string * string) : list ascii :=
  word_prefix (String.list_ascii_of_string (fst word)).

(** ** Properties *)

Ltac unfold_m := unfold bind, ret, throw, lift, try_catch in *.


Section Operators.

Lemma get_type_runtime_value (v : RuntimeValue) :
  is_runtime_value v -> get_type v = Normal (tag v).
Proof. destruct v; intros [t Ht]; simpl in *; congruence. Qed.

Lemma get_field_defined (f : Field) (v : RuntimeValue) :
  v <> HostUndefined -> exists j, get_field f v = Normal j.
Proof. destruct v; intros Hv; try congruence; simpl; eauto. Qed.

(** [!==] is the negation of [===], whatever is compared. *)
Lemma compare_negb (a b : JsValue) : compare false a b = negb (compare true a b).
Proof. reflexivity. Qed.

(** On any two slots, [!=] and [==] fail alike or answer opposite
    booleans. *)
Lemma equals_both (lhs rhs : RuntimeValue) :
  match equals lhs rhs true, equals lhs rhs false with
  | Normal (MK_BOOL r), Normal (MK_BOOL r') => r' = negb r
  | Throw e, Throw e' => e = e'
  | _, _ => False
  end.
Proof.
  unfold equals.
  destruct lhs; simpl; try (destruct rhs; simpl; reflexivity).
Qed.

(** C9. For every pair of runtime values [a] and [b], [a != b] evaluates
    to the boolean negation of [a == b]: both answers are booleans, and
    one is true exactly when the other is false. *)
Theorem C9_not_equal_negates_equal (a b : RuntimeValue) :
  is_runtime_value a -> is_runtime_value b ->
  exists r : bool,
    evaluateNumericBinaryExpression a b "==" = Normal (MK_BOOL r) /\
    evaluateNumericBinaryExpression a b "!=" = Normal (MK_BOOL (negb r)).
Proof.
  intros Ha Hb.
  change (evaluateNumericBinaryExpression a b "==") with (equals a b true).
  change (evaluateNumericBinaryExpression a b "!=") with (equals a b false).
  destruct a; destruct Ha as [ta Ha]; try discriminate Ha;
    destruct b; destruct Hb as [tb Hb]; try discriminate Hb;
    simpl in *; eexists; split; reflexivity.
Qed.

(** An instance with the one number that is not equal to itself. *)
Lemma C9_witness :
  exists r : bool,
    evaluateNumericBinaryExpression (MK_NUMBER nan) (MK_NUMBER nan) "==" = Normal (MK_BOOL r) /\
    evaluateNumericBinaryExpression (MK_NUMBER nan) (MK_NUMBER nan) "!=" = Normal (MK_BOOL (negb r)).
Proof.
  apply (C9_not_equal_negates_equal (MK_NUMBER nan) (MK_NUMBER nan));
    eexists; reflexivity.
Defined.

Lemma logical_mismatch (lhs rhs : RuntimeValue) (operator : string) :
  is_runtime_value lhs -> is_runtime_value rhs ->
  operator ∈ logical_operators ->
  tag lhs <> Some t_boolean \/ tag rhs <> Some t_boolean ->
  evaluateNumericBinaryExpression lhs rhs operator = Normal (MK_BOOL false).
Proof.
  intros [tl Hl] [tr Hr] Hop Hty.
  unfold logical_operators in Hop. set_unfold.
  destruct Hop as [-> | [-> | []]];
    destruct lhs; try discriminate Hl; destruct rhs; try discriminate Hr;
    try reflexivity; simpl in Hty; destruct Hty; congruence.
Qed.

Lemma numeric_mismatch (lhs rhs : RuntimeValue) (operator : string) :
  is_runtime_value lhs -> is_runtime_value rhs ->
  operator ∈ numeric_operators ->
  tag lhs <> Some t_number \/ tag rhs <> Some t_number ->
  evaluateNumericBinaryExpression lhs rhs operator = Normal (MK_BOOL false).
Proof.
  intros [tl Hl] [tr Hr] Hop Hty.
  unfold numeric_operators in Hop. set_unfold.
  destruct Hop as [-> | [-> | [-> | [-> | [-> | [-> | [-> | []]]]]]]];
    destruct lhs; try discriminate Hl; destruct rhs; try discriminate Hr;
    try reflexivity; simpl in Hty; destruct Hty; congruence.
Qed.

End Operators.

(** Writing the environment created last. *)
Lemma insert_last {A : Type} (l : list A) (x y : A) :
  <[length l := y]> (l ++ [x]) = l ++ [y].
Proof.
  rewrite insert_app_r_alt by lia. rewrite Nat.sub_diag. reflexivity.
Qed.

Section Calls.

Variable native_call : nat -> list RuntimeValue -> loc -> M RuntimeValue.

Variable ev : Stmt -> loc -> M RuntimeValue.


(** The parameter loop on the scope just created, the last environment
    of the store. *)
Lemma declareParams_binds (params : list string) :
  forall (args : list RuntimeValue) (i : nat) (es : list Environment)
         (p : option loc) (vars : gmap string RuntimeValue) (cs : gset string)
         (os : list (gmap (option string) RuntimeValue)) (ars : list JsArray),
    NoDup params ->
    (forall x, x ∈ params -> vars !! x = None) ->
    exists vars' : gmap string RuntimeValue,
      declareParams (length es) params args i
        {| envs := es ++ [{| parent := p; variables := vars; constants := cs |}];
           objects := os; arrays := ars |}
      = Ret tt {| envs := es ++ [{| parent := p; variables := vars'; constants := cs |}];
                  objects := os; arrays := ars |}
      /\ (forall j x, params !! j = Some x ->
                      vars' !! x = Some (default HostUndefined (args !! (i + j))))
      /\ (forall x, x ∉ params -> vars' !! x = vars !! x).
Proof.
  induction params as [| x rest IH]; intros args i es p vars cs os ars Hnd Hfresh.
  - exists vars. split; [reflexivity | split; [| reflexivity]].
    intros j x Hj. discriminate Hj.
  - apply NoDup_cons in Hnd as [Hx Hnd].
    destruct (IH args (S i) es p (<[x := default HostUndefined (args !! i)]> vars) cs os ars Hnd)
      as (vars' & Hrun & Hbound & Hother).
    { intros y Hy. rewrite lookup_insert_ne; [apply Hfresh; by right |].
      intros ->. contradiction. }
    exists vars'. split; [| split].
    + cbn [declareParams]. unfold Env.declareVariable, Env.read, Env.write. unfold_m.
      cbn [envs]. rewrite list_lookup_middle by reflexivity.
      cbn [Env.has variables]. rewrite (Hfresh x) by left.
      rewrite bool_decide_eq_false_2 by (intros [? ?]; discriminate).
      unfold set_envs. cbn [envs objects arrays parent variables constants].
      rewrite insert_last. exact Hrun.
    + intros [| j] y Hj.
      * injection Hj as <-. rewrite Hother by exact Hx.
        rewrite lookup_insert_eq. by rewrite Nat.add_0_r.
      * rewrite (Hbound j y Hj). by rewrite Nat.add_succ_r.
    + intros y Hy. apply not_elem_of_cons in Hy as [Hne Hy].
      rewrite Hother by exact Hy. by rewrite lookup_insert_ne.
Qed.

(** C6, as the code has it. A call of a user function, from whatever
    scope it is made, runs the body in a scope that is a child of the
    environment the function captured, with no constants, whose variables
    are exactly the parameters: each bound to the argument at its
    position, and to the host's [undefined] when there is none; arguments
    past the parameters are bound to nothing, and no arity failure is
    raised. (Parameter names are distinct.) *)
Theorem C6_parameters_bound_positionally (name : string) (params : list string)
  (declarationEnv : loc) (body : list Stmt) (body_ref : nat)
  (args : list RuntimeValue) (env : loc) (st : State) :
  NoDup params ->
  exists vars : gmap string RuntimeValue,
    (forall i x, params !! i = Some x ->
                 vars !! x = Some (default HostUndefined (args !! i)))
    /\ (forall i x, params !! i = Some x -> length args <= i ->
                    vars !! x = Some HostUndefined)
    /\ (forall x, x ∉ params -> vars !! x = None)
    /\ callValue native_call ev (MK_FN name params declarationEnv body body_ref) args env st
       = evalStatements ev body (length (envs st)) MK_NULL
           (set_envs (fun es => es ++ [{| parent := Some declarationEnv;
                                          variables := vars;
                                          constants := ∅ |}]) st).
Proof.
  intros Hnd. destruct st as [es os ars].
  destruct (declareParams_binds params args 0 es (Some declarationEnv) ∅ ∅ os ars Hnd)
    as (vars & Hrun & Hbound & Hother).
  { intros x _. apply lookup_empty. }
  exists vars. split; [| split; [| split]].
  - intros i x Hi. exact (Hbound i x Hi).
  - intros i x Hi Hlen. rewrite (Hbound i x Hi). cbn [Nat.add].
    by rewrite lookup_ge_None_2.
  - intros x Hx. rewrite Hother by exact Hx. apply lookup_empty.
  - cbn [callValue]. unfold evaluateFunction, Env.new. unfold_m. unfold set_envs.
    cbn [envs objects arrays]. rewrite Hrun. reflexivity.
Qed.

(** Two parameters of one name: the second declaration fails. *)
Lemma declareParams_duplicate (x : string) (args : list RuntimeValue)
  (declarationEnv : loc) (body : list Stmt) (st : State) :
  exists st',
    evaluateFunction ev [x; x] declarationEnv body args st
    = Raise (HostString (AlreadyDefined x)) st'.
Proof.
  destruct st as [es os ars]. eexists.
  unfold evaluateFunction, Env.new. unfold_m. cbn [declareParams].
  unfold Env.declareVariable, Env.read, Env.write. unfold_m. unfold set_envs.
  cbn [envs objects arrays]. rewrite list_lookup_middle by reflexivity.
  cbn [Env.has variables]. rewrite lookup_empty.
  rewrite bool_decide_eq_false_2 by (intros [? ?]; discriminate).
  cbn [envs objects arrays parent variables constants].
  rewrite insert_last. rewrite list_lookup_middle by reflexivity.
  cbn [Env.has variables]. rewrite lookup_insert_eq.
  rewrite bool_decide_eq_true_2 by eauto. reflexivity.
Qed.

End Calls.

Section Stores.




End Stores.

Section LexerProperties.

Lemma append_assoc (a b c : string) :
  String.append (String.append a b) c = String.append a (String.append b c).
Proof.
  induction a as [| x a IH]; [reflexivity |].
  change (String x (String.append (String.append a b) c)
          = String x (String.append a (String.append b c))).
  by f_equal.
Qed.

Lemma append_empty (a : string) : String.append a EmptyString = a.
Proof.
  induction a as [| x a IH]; [reflexivity |].
  change (String x (String.append a EmptyString) = String x a). by f_equal.
Qed.


(** The backward scan only ever adds to what it has collected. *)
Lemma getPrevIdents_loop_length (tokens reversed : list Lexer.Token) :
  forall newTokens,
    length newTokens <= length (Lexer.getPrevIdents_loop tokens reversed newTokens).
Proof.
  induction reversed as [| t rest IH]; intros newTokens; simpl; [lia |].
  destruct (Lexer.getPrevIdents_step tokens t newTokens); [| lia].
  specialize (IH (newTokens ++ [t])). rewrite last_length in IH. lia.
Qed.

(** The scan finds nothing exactly when the last token emitted is not
    one it accepts: an identifier, a dot, a bracket, or a number right
    after an opening bracket. *)
Lemma getPrevIdents_None (tokens : list Lexer.Token) (before : Lexer.Token) :
  last tokens = Some before ->
  Lexer.getPrevIdents tokens = None <-> Lexer.getPrevIdents_step tokens before [] = false.
Proof.
  intros Hlast. apply last_Some in Hlast as [init ->].
  unfold Lexer.getPrevIdents. rewrite rev_app_distr. cbn [rev app Lexer.getPrevIdents_loop].
  destruct (Lexer.getPrevIdents_step (init ++ [before]) before []) eqn:Hstep.
  - pose proof (getPrevIdents_loop_length (init ++ [before]) (rev init) ([] ++ [before])) as Hlen.
    cbn [app length] in Hlen.
    destruct (0 <? length _)%nat eqn:Hpos; [split; discriminate |].
    apply Nat.ltb_ge in Hpos. lia.
  - split; reflexivity.
Qed.

(** The loops that read a number, a string, a comment or a name return
    a suffix of the text they were given. *)
Lemma lexNumber_length (src : list ascii) :
  forall num period num' src',
    Lexer.lexNumber src num period = (num', src') -> length src' <= length src.
Proof.
  induction src as [| c rest IH]; intros num period num' src' H;
    cbn [Lexer.lexNumber] in H.
  - injection H as _ <-. reflexivity.
  - destruct (Ascii.eqb c "." && negb period).
    + apply IH in H. simpl. lia.
    + destruct (Lexer.isInt c).
      * apply IH in H. simpl. lia.
      * injection H as _ <-. reflexivity.
Qed.

Lemma lexIdent_length (src : list ascii) :
  forall ident ident' src',
    Lexer.lexIdent src ident = (ident', src') -> length src' <= length src.
Proof.
  induction src as [| c rest IH]; intros ident ident' src' H;
    cbn [Lexer.lexIdent] in H.
  - injection H as _ <-. reflexivity.
  - destruct (Lexer.isAlpha c false).
    + apply IH in H. simpl. lia.
    + injection H as _ <-. reflexivity.
Qed.

Lemma lexString_length (src : list ascii) :
  forall str raw escaped str' raw' src',
    Lexer.lexString src str raw escaped = (str', raw', src') ->
    length src' <= length src.
Proof.
  induction src as [| key rest IH]; intros str raw escaped str' raw' src' H;
    cbn [Lexer.lexString] in H.
  - injection H as _ _ <-. reflexivity.
  - repeat case_match; try (apply IH in H; simpl; lia).
    injection H as _ _ <-. simpl. lia.
Qed.

Lemma skipBlock_length (src : list ascii) :
  forall lastVal, length (Lexer.skipBlock src lastVal) <= length src.
Proof.
  induction src as [| c rest IH]; intros lastVal; cbn [Lexer.skipBlock length]; [lia |].
  case_match; [lia |]. specialize (IH (Some c)). lia.
Qed.

Lemma skipLine_length (src : list ascii) : length (Lexer.skipLine src) <= length src.
Proof.
  induction src as [| c rest IH]; cbn [Lexer.skipLine length]; [lia |].
  case_match; cbn [length]; lia.
Qed.

Lemma tail_length {A : Type} (l : list A) : length (tail l) <= length l.
Proof. destruct l; simpl; lia. Qed.

(** A turn of the loop consumes a character, or changes nothing. *)
Lemma step_progress (tokens tokens' : list Lexer.Token) (char : ascii)
  (rest src' : list ascii) :
  Lexer.step tokens (char :: rest) = Lexer.Lexed (tokens', src') ->
  length src' <= length rest \/ (tokens' = tokens /\ src' = char :: rest).
Proof.
  pose proof (tail_length rest) as Htail.
  pose proof (skipBlock_length rest (Some char)) as Hblock.
  pose proof (skipLine_length rest) as Hline.
  pose proof (tail_length (Lexer.skipLine rest)) as Hline'.
  unfold Lexer.step, Lexer.case_minus, Lexer.case_plus, Lexer.case_star_slash,
    Lexer.case_default.
  intros H.
  repeat case_match; simplify_eq;
    try (left; lia);
    try (right; split; reflexivity);
    left;
    match goal with
    | Hn : Lexer.lexNumber _ _ _ = _ |- _ => exact (lexNumber_length _ _ _ _ _ Hn)
    | Hi : Lexer.lexIdent _ _ = _ |- _ => exact (lexIdent_length _ _ _ _ Hi)
    | Hs : Lexer.lexString _ _ _ _ = _ |- _ => exact (lexString_length _ _ _ _ _ _ _ Hs)
    | _ => idtac
    end.
Qed.

(** Where a turn changes nothing, the loop never ends. *)
Lemma tokenize_loop_stuck (tokens : list Lexer.Token) (char : ascii) (rest : list ascii) :
  Lexer.step tokens (char :: rest) = Lexer.Lexed (tokens, char :: rest) ->
  forall fuel, Lexer.tokenize_loop fuel tokens (char :: rest) = Lexer.Timeout.
Proof.
  intros Hstuck fuel. induction fuel as [| fuel IH]; [reflexivity |].
  cbn [Lexer.tokenize_loop]. rewrite Hstuck. exact IH.
Qed.

(** A run that is not over after as many turns as the text has
    characters is never over. *)
Lemma tokenize_loop_timeout (fuel : nat) :
  forall tokens src,
    length src <= fuel ->
    Lexer.tokenize_loop fuel tokens src = Lexer.Timeout ->
    forall fuel', Lexer.tokenize_loop fuel' tokens src = Lexer.Timeout.
Proof.
  induction fuel as [| fuel IH]; intros tokens [| char rest] Hlen Hrun fuel';
    try discriminate Hrun; cbn [length] in Hlen; [lia |].
  cbn [Lexer.tokenize_loop] in Hrun.
  destruct (Lexer.step tokens (char :: rest)) as [[tokens' src'] | | |] eqn:Hstep;
    try discriminate Hrun.
  - destruct (step_progress _ _ _ _ _ Hstep) as [Hshorter | [-> ->]].
    + destruct fuel' as [| fuel']; [reflexivity |].
      cbn [Lexer.tokenize_loop]. rewrite Hstep. apply IH; [lia | exact Hrun].
    + by apply tokenize_loop_stuck.
  - destruct fuel' as [| fuel']; [reflexivity |].
    cbn [Lexer.tokenize_loop]. by rewrite Hstep.
Qed.

(** A run that is over stays as it is with more turns allowed. *)
Lemma tokenize_loop_more_fuel (fuel : nat) :
  forall tokens src fuel',
    Lexer.tokenize_loop fuel tokens src <> Lexer.Timeout ->
    fuel <= fuel' ->
    Lexer.tokenize_loop fuel' tokens src = Lexer.tokenize_loop fuel tokens src.
Proof.
  induction fuel as [| fuel IH]; intros tokens [| char rest] fuel' Hrun Hle.
  - by destruct fuel'.
  - by contradict Hrun.
  - by destruct fuel'.
  - destruct fuel' as [| fuel']; [lia |]. cbn [Lexer.tokenize_loop] in *.
    destruct (Lexer.step tokens (char :: rest)) as [[tokens' src'] | | |];
      try reflexivity.
    apply IH; [exact Hrun | lia].
Qed.

Lemma list_ascii_length (source : string) :
  length (String.list_ascii_of_string source) = String.length source.
Proof. induction source as [| c source IH]; simpl; congruence. Qed.

(** The number of turns [tokenize] allows decides the run: no other
    number, if it is not smaller, gives another result. *)
Lemma tokenize_fuel (sourceCode : string) (fuel : nat) :
  String.length sourceCode <= fuel ->
  Lexer.tokenize_loop fuel [] (String.list_ascii_of_string sourceCode)
  = Lexer.tokenize sourceCode.
Proof.
  intros Hle. unfold Lexer.tokenize.
  destruct (Lexer.tokenize_loop (String.length sourceCode) []
              (String.list_ascii_of_string sourceCode)) eqn:Hrun.
  1-3: rewrite <- Hrun; apply tokenize_loop_more_fuel; [by rewrite Hrun | exact Hle].
  eapply tokenize_loop_timeout; [| exact Hrun]. by rewrite list_ascii_length.
Qed.


End LexerProperties.

(** ** Fuel

    The result of an evaluation that does not run out of fuel is its
    result with any larger amount. *)

Section Fuel.

Variable native_call : nat -> list RuntimeValue -> loc -> M RuntimeValue.

Lemma with_more_fuel_refl {A : Type} (o : Outcome A) : with_more_fuel o o.
Proof. by right. Qed.

Lemma bind_more_fuel {A B : Type} (c c' : M A) (k k' : A -> M B) (st : State) :
  with_more_fuel (c st) (c' st) ->
  (forall a st', with_more_fuel (k a st') (k' a st')) ->
  with_more_fuel (bind c k st) (bind c' k' st).
Proof.
  intros [Hc | Hc] Hk; unfold bind; rewrite Hc; [by left |].
  destruct (c' st); try apply with_more_fuel_refl. apply Hk.
Qed.

Lemma try_catch_more_fuel {A : Type} (c c' : M A) (h h' : RuntimeValue -> M A)
  (st : State) :
  with_more_fuel (c st) (c' st) ->
  (forall e st', with_more_fuel (h e st') (h' e st')) ->
  with_more_fuel (try_catch c h st) (try_catch c' h' st).
Proof.
  intros [Hc | Hc] Hh; unfold try_catch; rewrite Hc; [by left |].
  destruct (c' st); try apply with_more_fuel_refl. apply Hh.
Qed.

Section Step.

Variables ev ev' : Stmt -> loc -> M RuntimeValue.

Hypothesis Hev : forall node env st, with_more_fuel (ev node env st) (ev' node env st).

Ltac more_fuel :=
  repeat first
    [ apply with_more_fuel_refl
    | apply Hev
    | apply bind_more_fuel; [| intros ? ?]
    | apply try_catch_more_fuel; [| intros ? ?]
    | progress cbv beta
    | case_match ].

Lemma evalStatements_more_fuel (body : list Stmt) :
  forall scope last st,
    with_more_fuel (evalStatements ev body scope last st)
      (evalStatements ev' body scope last st).
Proof.
  induction body as [| stmt rest IH]; intros scope last st; cbn [evalStatements];
    more_fuel. apply IH.
Qed.

Lemma evalBody_more_fuel (body : list Stmt) (env : loc) (newEnv : bool) (st : State) :
  with_more_fuel (evalBody ev body env newEnv st) (evalBody ev' body env newEnv st).
Proof. unfold evalBody. more_fuel. apply evalStatements_more_fuel. Qed.

Lemma evaluateVariableDeclaration_more_fuel (declaration : bool * string * option Stmt)
  (env : loc) (st : State) :
  with_more_fuel (evaluateVariableDeclaration ev declaration env st)
    (evaluateVariableDeclaration ev' declaration env st).
Proof. destruct declaration as [[constant identifier] value]. cbn. more_fuel. Qed.

Lemma accessMember_more_fuel (this : loc) (pastVal : RuntimeValue) (p : Stmt)
  (value : RuntimeValue) (property : option Stmt) (st : State) :
  with_more_fuel (accessMember ev this pastVal p value property st)
    (accessMember ev' this pastVal p value property st).
Proof. unfold accessMember. destruct pastVal; more_fuel. Qed.

Lemma lookupOrMutObject_more_fuel (this : loc) (object : Stmt) :
  forall p value property st,
    with_more_fuel (lookupOrMutObject ev this object p value property st)
      (lookupOrMutObject ev' this object p value property st).
Proof.
  induction object; intros q v property' st'; cbn [lookupOrMutObject];
    (apply bind_more_fuel; [| intros ? ?; apply accessMember_more_fuel]);
    first [apply with_more_fuel_refl | solve [auto]].
Qed.

Lemma evaluateAssignment_more_fuel (node : Stmt) (env : loc) (st : State) :
  with_more_fuel (evaluateAssignment ev node env st) (evaluateAssignment ev' node env st).
Proof.
  unfold evaluateAssignment, evaluateMemberExpression.
  more_fuel; apply lookupOrMutObject_more_fuel.
Qed.

Lemma fillProperties_more_fuel (object : loc) (properties : list (string * option Stmt)) :
  forall env st,
    with_more_fuel (fillProperties ev object properties env st)
      (fillProperties ev' object properties env st).
Proof.
  induction properties as [| [key value] rest IH]; intros env st; cbn [fillProperties];
    more_fuel. apply IH.
Qed.

Lemma pushValues_more_fuel (array : loc) (values : list Stmt) :
  forall env st,
    with_more_fuel (pushValues ev array values env st) (pushValues ev' array values env st).
Proof.
  induction values as [| value rest IH]; intros env st; cbn [pushValues]; more_fuel.
  apply IH.
Qed.

Lemma evalArgs_more_fuel (args : list Stmt) :
  forall env st, with_more_fuel (evalArgs ev args env st) (evalArgs ev' args env st).
Proof.
  induction args as [| arg rest IH]; intros env st; cbn [evalArgs]; more_fuel. apply IH.
Qed.

Lemma callValue_more_fuel (fn : RuntimeValue) (args : list RuntimeValue) (env : loc)
  (st : State) :
  with_more_fuel (callValue native_call ev fn args env st)
    (callValue native_call ev' fn args env st).
Proof.
  unfold callValue, evaluateFunction. destruct fn; more_fuel.
  apply evalStatements_more_fuel.
Qed.

Lemma doWhile_more_fuel (fuel : nat) (body : list Stmt) (update test : Stmt) (env : loc) :
  forall st,
    with_more_fuel (doWhile ev fuel body update test env st)
      (doWhile ev' (S fuel) body update test env st).
Proof.
  induction fuel as [| fuel IH]; intros st; [by left |].
  cbn [doWhile].
  repeat first [ apply with_more_fuel_refl | apply Hev | apply IH
               | apply evalBody_more_fuel | apply evaluateAssignment_more_fuel
               | apply bind_more_fuel; [| intros ? ?] | case_match ].
Qed.

End Step.

Theorem evaluate_more_fuel (n : nat) :
  forall node env st,
    with_more_fuel (evaluate native_call n node env st)
      (evaluate native_call (S n) node env st).
Proof.
  induction n as [| n IH]; intros node env st; [by left |].
  destruct node; cbn [evaluate]; try apply with_more_fuel_refl.
  - apply evalStatements_more_fuel, IH.
  - apply evaluateVariableDeclaration_more_fuel, IH.
  - unfold evalIfStatement.
    repeat first [ apply with_more_fuel_refl | apply IH | apply evalBody_more_fuel
                 | apply bind_more_fuel; [| intros ? ?] | case_match ].
  - unfold evalForStatement.
    repeat first [ apply with_more_fuel_refl | apply IH
                 | apply evaluateVariableDeclaration_more_fuel
                 | apply doWhile_more_fuel
                 | apply bind_more_fuel; [| intros ? ?] | case_match ].
  - unfold evalTryCatchStatement.
    repeat first [ apply with_more_fuel_refl | apply IH | apply evalBody_more_fuel
                 | apply bind_more_fuel; [| intros ? ?]
                 | apply try_catch_more_fuel; [| intros ? ?] ].
  - apply evaluateAssignment_more_fuel, IH.
  - unfold evaluateBinaryExpression.
    repeat first [ apply with_more_fuel_refl | apply IH
                 | apply bind_more_fuel; [| intros ? ?] ].
  - unfold evalCallExpression.
    repeat first [ apply with_more_fuel_refl | apply IH
                 | apply evalArgs_more_fuel | apply callValue_more_fuel
                 | apply bind_more_fuel; [| intros ? ?] ].
  - unfold evaluateMemberExpression. apply lookupOrMutObject_more_fuel, IH.
  - unfold evaluateArrayExpression.
    repeat first [ apply with_more_fuel_refl | apply pushValues_more_fuel, IH
                 | apply bind_more_fuel; [| intros ? ?] ].
  - unfold evaluateObjectExpression.
    repeat first [ apply with_more_fuel_refl | apply fillProperties_more_fuel, IH
                 | apply bind_more_fuel; [| intros ? ?] ].
Qed.

(** Enough fuel gives the result. *)
Corollary evaluate_enough_fuel (n m : nat) (node : Stmt) (env : loc) (st : State) :
  evaluate native_call n node env st <> Abort OutOfFuel ->
  n <= m ->
  evaluate native_call m node env st = evaluate native_call n node env st.
Proof.
  intros Hres Hle. induction Hle as [| m Hle IH]; [reflexivity |].
  destruct (evaluate_more_fuel m node env st) as [H | H]; congruence.
Qed.

End Fuel.

Section EvaluatorProperties.

Variable native_call : nat -> list RuntimeValue -> loc -> M RuntimeValue.

Local Abbreviation eval := (evaluate native_call).

(** A value that is neither a function nor a native function is not
    callable: the call raises. *)
Lemma not_callable_raises (ev : Stmt -> loc -> M RuntimeValue) (fn : RuntimeValue)
  (args : list RuntimeValue) (env : loc) (st : State) :
  tag fn <> Some t_fn -> tag fn <> Some t_native_fn ->
  callValue native_call ev fn args env st = Raise (HostString (NotCallable (tag fn))) st.
Proof. destruct fn; simpl; intros; congruence || reflexivity. Qed.

(** An array indexed by a value that is not a number: the access raises,
    on a read as on a write. *)
Lemma non_numeric_index_raises (ev : Stmt -> loc -> M RuntimeValue) (this l : loc)
  (p : Stmt) (value : RuntimeValue) (property : option Stmt) (st st' : State)
  (v : RuntimeValue) :
  ev p this st = Ret v st' ->
  is_runtime_value v -> tag v <> Some t_number ->
  accessMember ev this (MK_ARRAY l) p value property st
  = Raise (HostString (ArraysDoNotHaveKeys p)) st'.
Proof.
  intros Hev Hv Hnum. unfold accessMember. unfold_m. rewrite Hev.
  rewrite (get_type_runtime_value v Hv). simpl.
  rewrite bool_decide_true by exact Hnum. reflexivity.
Qed.

(** C8. An operand of the wrong type makes [&&] and [|] (operands not both
    boolean) and [+ - * / % < >] (operands not both number) answer the
    boolean [false], on the values and in the evaluation of the binary
    expression, and nothing is raised; a call of a value that is not
    callable and an array index that is not a number do raise. *)
Theorem C8_operand_mismatch_is_silent (lhs rhs : RuntimeValue) (operator : string) :
  is_runtime_value lhs -> is_runtime_value rhs ->
  (operator ∈ logical_operators /\
   (tag lhs <> Some t_boolean \/ tag rhs <> Some t_boolean)) \/
  (operator ∈ numeric_operators /\
   (tag lhs <> Some t_number \/ tag rhs <> Some t_number)) ->
  evaluateNumericBinaryExpression lhs rhs operator = Normal (MK_BOOL false)
  /\ (forall n l r env st st1 st2,
        eval n l env st = Ret lhs st1 ->
        eval n r env st1 = Ret rhs st2 ->
        eval (S n) (BinaryExpression l r operator) env st = Ret (MK_BOOL false) st2)
  /\ (forall ev fn args env st,
        is_runtime_value fn -> tag fn <> Some t_fn -> tag fn <> Some t_native_fn ->
        exists e, callValue native_call ev fn args env st = Raise e st)
  /\ (forall ev this l p value property st v st',
        ev p this st = Ret v st' ->
        is_runtime_value v -> tag v <> Some t_number ->
        exists e, accessMember ev this (MK_ARRAY l) p value property st = Raise e st').
Proof.
  intros Hl Hr Hop.
  assert (Hval : evaluateNumericBinaryExpression lhs rhs operator = Normal (MK_BOOL false)).
  { destruct Hop as [[Hop Hty] | [Hop Hty]].
    - by apply logical_mismatch.
    - by apply numeric_mismatch. }
  split; [exact Hval |].
  split.
  { intros n l r env st st1 st2 H1 H2.
    cbn [evaluate]. unfold evaluateBinaryExpression. unfold_m.
    rewrite H1, H2, Hval. reflexivity. }
  split.
  - intros ev fn args env st _ Hfn Hnat. eexists. by apply not_callable_raises.
  - intros ev this l p value property st v st' Hev Hv Hnum. eexists.
    by eapply non_numeric_index_raises.
Qed.

(** C4. An [if] whose test evaluates to the boolean [true] runs its body,
    in a fresh child scope of the scope of the statement; on any other
    value of the test that has fields, the boolean [false] or a value
    that is not a boolean, it runs the alternate, in a fresh child scope
    too, or yields null when there is none. On the host's [undefined],
    which a missing property, an empty slot of an array and a parameter
    without an argument evaluate to, reading [value] raises a
    [TypeError]: neither the body nor the alternate runs. *)
Theorem C4_if_tests_for_boolean_true (n : nat) (test : Stmt) (body : list Stmt)
  (alternate : option (list Stmt)) (env : loc) (st st1 : State) (v : RuntimeValue) :
  eval n test env st = Ret v st1 ->
  eval (S n) (IfStatement test body alternate) env st =
    match v with
    | HostUndefined => Raise (HostTypeError "value") st1
    | MK_BOOL true =>
      evalStatements (eval n) body (length (envs st1)) MK_NULL (with_child env st1)
    | _ =>
      match alternate with
      | Some alt =>
        evalStatements (eval n) alt (length (envs st1)) MK_NULL (with_child env st1)
      | None => Ret MK_NULL st1
      end
    end.
Proof.
  intros Htest. cbn [evaluate]. unfold evalIfStatement. unfold_m. rewrite Htest.
  destruct v as [| [|] | | | | | | | | |];
    cbn; unfold evalBody; unfold_m; destruct alternate; reflexivity.
Qed.

(** C10. A [for] statement that yields a value yields null, after any
    number of iterations and whatever the body evaluated to; and what it
    yields with some fuel it yields with any larger amount. *)
Theorem C10_for_yields_null (n : nat) (init : bool * string * option Stmt)
  (test update : Stmt) (body : list Stmt) (env : loc) (st st' : State)
  (v : RuntimeValue) :
  eval n (ForStatement init test update body) env st = Ret v st' ->
  v = MK_NULL
  /\ forall m, n <= m -> eval m (ForStatement init test update body) env st = Ret MK_NULL st'.
Proof.
  intros H.
  assert (Hnull : v = MK_NULL).
  { destruct n as [| n]; [discriminate |].
    cbn [evaluate] in H. unfold evalForStatement in H. unfold_m.
    repeat (case_match; try discriminate); congruence. }
  split; [exact Hnull |].
  intros m Hle. subst v. rewrite <- H.
  apply evaluate_enough_fuel; [by rewrite H | exact Hle].
Qed.

(** The [do ... while] goes on when the [value] of the test is truthy,
    boolean or not. *)
Lemma doWhile_goes_on (ev : Stmt -> loc -> M RuntimeValue) (fuel : nat)
  (body : list Stmt) (update test : Stmt) (env : loc) (st st1 st2 st3 : State)
  (last assigned t : RuntimeValue) (flag : JsValue) :
  evalStatements ev body (length (envs st)) MK_NULL (with_child env st) = Ret last st1 ->
  evaluateAssignment ev update env st1 = Ret assigned st2 ->
  ev test env st2 = Ret t st3 ->
  get_field f_value t = Normal flag ->
  truthy flag = true ->
  doWhile ev (S fuel) body update test env st = doWhile ev fuel body update test env st3.
Proof.
  intros Hbody Hupd Htest Hflag Htruthy.
  cbn [doWhile]. unfold evalBody. unfold_m. cbn [Env.new].
  change (set_envs _ st) with (with_child env st).
  rewrite Hbody, Hupd, Htest, Hflag. unfold ret. rewrite Htruthy. reflexivity.
Qed.




(** A first test that is not the boolean [true]: no iteration, null. *)
Lemma for_skips_on_first_test (n : nat) (init : bool * string * option Stmt)
  (test update : Stmt) (body : list Stmt) (env : loc) (st st1 st2 : State)
  (declared v : RuntimeValue) :
  evaluateVariableDeclaration (eval n) init (length (envs st)) (with_child env st)
  = Ret declared st1 ->
  eval n test (length (envs st)) st1 = Ret v st2 ->
  v <> HostUndefined -> v <> MK_BOOL true ->
  eval (S n) (ForStatement init test update body) env st = Ret MK_NULL st2.
Proof.
  intros Hinit Htest Hv Htrue. cbn [evaluate]. unfold evalForStatement, Env.new.
  unfold_m. change (set_envs _ st) with (with_child env st).
  rewrite Hinit, Htest.
  destruct v as [| [|] | | | | | | | | |]; try congruence; reflexivity.
Qed.

(** The [do ... while] ends when the [value] of the test is falsy. *)
Lemma doWhile_stops (ev : Stmt -> loc -> M RuntimeValue) (fuel : nat)
  (body : list Stmt) (update test : Stmt) (env : loc) (st st1 st2 st3 : State)
  (last assigned t : RuntimeValue) (flag : JsValue) :
  evalStatements ev body (length (envs st)) MK_NULL (with_child env st) = Ret last st1 ->
  evaluateAssignment ev update env st1 = Ret assigned st2 ->
  ev test env st2 = Ret t st3 ->
  get_field f_value t = Normal flag ->
  truthy flag = false ->
  doWhile ev (S fuel) body update test env st = Ret tt st3.
Proof.
  intros Hbody Hupd Htest Hflag Htruthy.
  cbn [doWhile]. unfold evalBody. unfold_m. cbn [Env.new].
  change (set_envs _ st) with (with_child env st).
  rewrite Hbody, Hupd, Htest, Hflag. unfold ret. rewrite Htruthy. reflexivity.
Qed.

(** C2, as the code has it. The body of a [try] runs in a child scope of
    the scope of the statement, and its last value is the value of the
    statement when nothing is raised. When the body raises, the raised
    value is assigned to [error] as the scope of the statement resolves
    the name (in the nearest scope, from that one outward, that declares
    it), provided that variable exists and is not constant; the
    alternate then runs in a child scope of its own, created before the
    body ran. *)
Theorem C2_catch_assigns_error (n : nat) (body alternate : list Stmt) (env : loc)
  (st : State) :
  (forall v st1,
      evalStatements (eval n) body (length (envs st)) MK_NULL
        (with_child env (with_child env st)) = Ret v st1 ->
      eval (S n) (TryCatchStatement body alternate) env st = Ret v st1)
  /\ (forall e st1 target scope,
        evalStatements (eval n) body (length (envs st)) MK_NULL
          (with_child env (with_child env st)) = Raise e st1 ->
        Env.resolve env (Some "error") st1 = Ret target st1 ->
        envs st1 !! target = Some scope ->
        "error" ∉ constants scope ->
        eval (S n) (TryCatchStatement body alternate) env st
        = evalStatements (eval n) alternate (S (length (envs st))) MK_NULL
            (set_envs
               (fun es => <[target := {| parent := parent scope;
                                         variables := <["error" := e]> (variables scope);
                                         constants := constants scope |}]> es) st1)).
Proof.
  split.
  - intros v st1 Hbody. cbn [evaluate].
    unfold evalTryCatchStatement, evalBody, Env.new. unfold_m.
    change (set_envs _ (set_envs _ st)) with (with_child env (with_child env st)).
    by rewrite Hbody.
  - intros e st1 target scope Hbody Hres Hscope Hconst. cbn [evaluate].
    unfold evalTryCatchStatement, evalBody, Env.new. unfold_m.
    change (set_envs _ (set_envs _ st)) with (with_child env (with_child env st)).
    rewrite Hbody. unfold Env.assignVariable, Env.read, Env.write. unfold_m.
    rewrite Hres, Hscope. rewrite bool_decide_eq_false_2 by exact Hconst.
    cbn [envs set_envs]. rewrite last_length. reflexivity.
Qed.


End EvaluatorProperties.

(** ** Instances *)

(** C1, at a loop whose test is [true], then the number 1, then the number
    0: the body runs twice. The number 1 is not the boolean [true], and the
    loop does not stop on it. *)
Theorem C1_loop_goes_on_after_numeric_test :
  result_of (run loop_with_numeric_test) = Some MK_NULL /\
  variable_of (run loop_with_numeric_test) 0 "t" = Some (MK_NUMBER 0) /\
  variable_of (run loop_with_numeric_test) 0 "c" = Some (MK_NUMBER 2).
Proof. vm_compute. repeat split; reflexivity. Qed.


(** C8 at [1 + "a"]. *)
Lemma C8_witness :
  evaluateNumericBinaryExpression (MK_NUMBER 1) (MK_STRING "a") "+" = Normal (MK_BOOL false).
Proof.
  refine (proj1 (C8_operand_mismatch_is_silent no_natives
                   (MK_NUMBER 1) (MK_STRING "a") "+" _ _ _)).
  - eexists; reflexivity.
  - eexists; reflexivity.
  - right. split.
    + unfold numeric_operators. apply list_elem_of_here.
    + right. simpl. discriminate.
Defined.

(** C4 at [if (1) { "a" } else { "b" }]: the alternate runs. *)
Lemma C4_witness :
  evaluate no_natives 3 if_one 0 initial = Ret (MK_STRING "b") (with_child 0 initial).
Proof.
  unfold if_one.
  rewrite (C4_if_tests_for_boolean_true no_natives 2 (NumericLiteral 1)
             [StringLiteral "a"] (Some [StringLiteral "b"]) 0 initial initial
             (MK_NUMBER 1)).
  - reflexivity.
  - reflexivity.
Defined.

(** C4 refuted: a test that reads a property the object lacks, or a
    parameter the call gave no argument for, is not a boolean, and the
    alternate does not run: the statement raises. *)
Lemma C4_counterexample :
  raised_by (run if_missing_property) = Some (HostTypeError "value")
  /\ variable_of (run if_missing_property) 0 "seen" = Some (MK_NUMBER 0)
  /\ raised_by (run if_missing_argument) = Some (HostTypeError "value").
Proof. vm_compute. repeat split; reflexivity. Qed.

(** C10 at a loop that runs its body twice; the last statement of the
    body is a string. *)
Lemma C10_witness : result_of (evaluate no_natives 20 for_twice 0 initial) = Some MK_NULL.
Proof.
  destruct (evaluate no_natives 20 for_twice 0 initial) as [v st' | e st' | st' | why] eqn:E.
  - rewrite (proj1 (C10_for_yields_null no_natives 20 _ _ _ _ 0 initial st' v E)).
    reflexivity.
  - vm_compute in E. discriminate E.
  - vm_compute in E. discriminate E.
  - vm_compute in E. discriminate E.
Defined.



(** C6 refuted: the parameter without an argument holds the host's
    [undefined], which is not the null value, and comparing it to null
    raises where null would compare equal. *)
Lemma C6_counterexample :
  result_of (run call_with_missing_argument) = Some HostUndefined
  /\ HostUndefined <> MK_NULL
  /\ raised_by (run compare_missing_argument_with_null) = Some (HostTypeError "type")
  /\ evaluateNumericBinaryExpression MK_NULL MK_NULL "==" = Normal (MK_BOOL true).
Proof. vm_compute. repeat split; try reflexivity. discriminate. Qed.

(** C6 at [f(x, y)] called with the one argument 1, from a scope that is
    not the one it was declared in. *)
Lemma C6_witness :
  exists vars : gmap string RuntimeValue,
    (forall i x, ["x"; "y"] !! i = Some x ->
                 vars !! x = Some (default HostUndefined ([MK_NUMBER 1] !! i)))
    /\ (forall i x, ["x"; "y"] !! i = Some x -> length [MK_NUMBER 1] <= i ->
                    vars !! x = Some HostUndefined)
    /\ (forall x, x ∉ ["x"; "y"] -> vars !! x = None)
    /\ callValue no_natives (evaluate no_natives 5)
         (MK_FN "f" ["x"; "y"] 0 [Identifier "y"] 0) [MK_NUMBER 1] 1
         (with_child 0 initial)
       = evalStatements (evaluate no_natives 5) [Identifier "y"]
           (length (envs (with_child 0 initial))) MK_NULL
           (set_envs (fun es => es ++ [{| parent := Some 0; variables := vars;
                                          constants := ∅ |}]) (with_child 0 initial)).
Proof.
  apply (C6_parameters_bound_positionally no_natives (evaluate no_natives 5) "f"
           ["x"; "y"] 0 [Identifier "y"] 0 [MK_NUMBER 1] 1 (with_child 0 initial)).
  apply NoDup_cons. split.
  - intros H. apply list_elem_of_singleton in H. discriminate H.
  - apply NoDup_singleton.
Defined.

(** C2 refuted. In a block that declares a constant [error], a failure
    in the body of a [try] is not bound to [error] and the alternate does
    not run: the statement raises the failure of the assignment. And in
    a block that declares no [error], the raised value lands in the
    global scope, not in the scope that encloses the [try]. *)
Lemma C2_counterexample :
  raised_by (run catch_with_constant_error) = Some (HostString (CannotReassign "error"))
  /\ variable_of (run catch_with_constant_error) 0 "seen" = Some (MK_NUMBER 0)
  /\ variable_of (run catch_with_constant_error) 1 "error" = Some (MK_NUMBER 1)
  /\ result_of (run catch_in_block) = Some (MK_STRING "caught")
  /\ variable_of (run catch_in_block) 1 "error" = None
  /\ variable_of (run catch_in_block) 0 "error"
     = Some (HostString (CannotResolve (Some "nope"))).
Proof. vm_compute. repeat split; reflexivity. Qed.

(** C2 at [try { nope } catch { error }] in the global scope. *)
Lemma C2_witness :
  result_of (evaluate no_natives 3 catch_reads_error 0 initial)
  = Some (HostString (CannotResolve (Some "nope"))).
Proof.
  unfold catch_reads_error.
  rewrite (proj2 (C2_catch_assigns_error no_natives 2 [Identifier "nope"]
                    [Identifier "error"] 0 initial)
             (HostString (CannotResolve (Some "nope")))
             (with_child 0 (with_child 0 initial)) 0 global_scope).
  - vm_compute. reflexivity.
  - vm_compute. reflexivity.
  - vm_compute. reflexivity.
  - reflexivity.
  - unfold global_scope. cbn [constants].
    rewrite !not_elem_of_union, !not_elem_of_singleton. repeat split; discriminate.
Defined.





(** The whole of [y = -x]: the tokens of [y = 0 - x]. *)
Lemma tokenize_negated_name :
  Lexer.tokenize "y = -x"
  = Lexer.Lexed [Lexer.token "y" Lexer.Identifier; Lexer.token "=" Lexer.Equals;
                 Lexer.token "0" Lexer.Number; Lexer.token "-" Lexer.BinaryOperator;
                 Lexer.token "x" Lexer.Identifier; Lexer.token "EndOfFile" Lexer.EOF].
Proof. vm_compute. reflexivity. Qed.

(** A write through a path of two levels, and a write through an alias,
    are read back. *)
Lemma path_and_alias_writes :
  result_of (run path_write) = Some (MK_NUMBER 5)
  /\ result_of (run alias_write) = Some (MK_NUMBER 2).
Proof. vm_compute. split; reflexivity. Qed.

(** ** Scopes and stores *)
(** ** Environments: declaration, assignment, lookup *)

Section Scopes.

(** What a walk that ends on a scope has found. *)
Lemma resolve_walk_found (n : nat) (x : option string) (st : State) :
  forall this target st',
    Env.resolve_walk n this x st = Ret target st' ->
    st' = st /\ exists e, envs st !! target = Some e /\ Env.has e x = true.
Proof.
  induction n as [| n IH]; intros this target st' H; simpl in H;
    destruct (envs st !! this) as [e |] eqn:He; try discriminate H;
    destruct (Env.has e x) eqn:Hhas.
  - injection H as <- <-. eauto.
  - destruct (parent e); discriminate H.
  - injection H as <- <-. eauto.
  - destruct (parent e); [| discriminate H]. by eapply IH.
Qed.

(** A walk raises nothing but the failure to resolve the name, and
    leaves the store as it was. *)
Lemma resolve_walk_raises (n : nat) (x : option string) (st : State) :
  forall this e st',
    Env.resolve_walk n this x st = Raise e st' ->
    e = HostString (CannotResolve x) /\ st' = st.
Proof.
  induction n as [| n IH]; intros this e st' H; simpl in H;
    destruct (envs st !! this) as [sc |]; try discriminate H;
    destruct (Env.has sc x); try discriminate H;
    destruct (parent sc); try discriminate H;
    try (injection H as <- <-; by split).
  by eapply IH.
Qed.

(** One step of the walk. *)
Lemma resolve_walk_step (n : nat) (this : loc) (x : option string) (st : State)
  (e : Environment) :
  envs st !! this = Some e ->
  Env.resolve_walk n this x st
  = if Env.has e x then Ret this st
    else match parent e with
         | None => Raise (HostString (CannotResolve x)) st
         | Some p => match n with
                     | O => Abort OutOfFuel
                     | S n' => Env.resolve_walk n' p x st
                     end
         end.
Proof. intros He. destruct n; simpl; rewrite He; reflexivity. Qed.

Lemma resolve_walk_dangling (n : nat) (this : loc) (x : option string) (st : State) :
  envs st !! this = None -> Env.resolve_walk n this x st = Abort Dangling.
Proof. intros He. destruct n; simpl; rewrite He; reflexivity. Qed.

(** In a well-scoped store the walk from a scope of the store ends: on
    a scope that is not younger and has the name, or on the failure to
    resolve. *)
Lemma resolve_walk_ends (x : option string) (st : State) :
  well_scoped st ->
  forall n this,
    this <= n -> this < length (envs st) ->
    (exists target e,
        Env.resolve_walk n this x st = Ret target st
        /\ target <= this /\ envs st !! target = Some e /\ Env.has e x = true)
    \/ Env.resolve_walk n this x st = Raise (HostString (CannotResolve x)) st.
Proof.
  intros Hws. induction n as [| n IH]; intros this Hn Hlen;
    destruct (lookup_lt_is_Some_2 _ _ Hlen) as [e He];
    rewrite (resolve_walk_step _ _ _ _ _ He);
    destruct (Env.has e x) eqn:Hhas; try (left; by eauto 10);
    destruct (parent e) as [p |] eqn:Hp; try (by right);
    pose proof (Hws this e p He Hp) as Hlt.
  - lia.
  - destruct (IH p) as [(target & e' & Hwalk & Hle & He' & Hhas') | Hwalk];
      [lia | lia | |].
    + left. exists target, e'. repeat split; try done. lia.
    + by right.
Qed.

(** Two stores whose scopes have the same parents and the same names
    resolve alike. *)
Lemma resolve_walk_same_names (n : nat) (x : option string) (st st' : State) :
  (forall l : loc, match envs st !! l, envs st' !! l with
             | Some e, Some e' => parent e = parent e' /\ Env.has e x = Env.has e' x
             | None, None => True
             | _, _ => False
             end) ->
  forall this,
    Env.resolve_walk n this x st' = in_store st' (Env.resolve_walk n this x st).
Proof.
  intros Hsame. induction n as [| n IH]; intros this;
    generalize (Hsame this);
    destruct (envs st !! this) as [e |] eqn:He, (envs st' !! this) as [e' |] eqn:He';
    intros Hthis; try contradiction.
  - rewrite (resolve_walk_step _ _ _ _ _ He), (resolve_walk_step _ _ _ _ _ He').
    destruct Hthis as [<- <-].
    destruct (Env.has e x); try reflexivity. by destruct (parent e).
  - by rewrite (resolve_walk_dangling _ _ _ _ He), (resolve_walk_dangling _ _ _ _ He').
  - rewrite (resolve_walk_step _ _ _ _ _ He), (resolve_walk_step _ _ _ _ _ He').
    destruct Hthis as [<- <-].
    destruct (Env.has e x); try reflexivity. destruct (parent e); [apply IH | reflexivity].
  - by rewrite (resolve_walk_dangling _ _ _ _ He), (resolve_walk_dangling _ _ _ _ He').
Qed.

End Scopes.

Section Bindings.

Lemma has_bound (x : string) (v : RuntimeValue) (isConst : bool) (e : Environment) :
  Env.has (bound x v isConst e) (Some x) = true.
Proof.
  unfold Env.has, bound. cbn [variables]. rewrite lookup_insert_eq.
  by apply bool_decide_eq_true_2.
Qed.

Lemma has_bound_other (x : string) (v : RuntimeValue) (isConst : bool) (e : Environment)
  (y : option string) :
  y <> Some x -> Env.has (bound x v isConst e) y = Env.has e y.
Proof.
  intros Hy. destruct y as [y |]; [| reflexivity].
  unfold Env.has, bound. cbn [variables]. rewrite lookup_insert_ne; [reflexivity |].
  congruence.
Qed.

(** Binding a name a scope already has changes no name of the scope. *)
Lemma has_rebound (x : string) (v : RuntimeValue) (e : Environment) (y : option string) :
  Env.has e (Some x) = true -> Env.has (bound x v false e) y = Env.has e y.
Proof.
  intros Hx. destruct (decide (y = Some x)) as [-> | Hy].
  - by rewrite has_bound.
  - by apply has_bound_other.
Qed.

Lemma lookup_with_scope (l : loc) (e e0 : Environment) (st : State) :
  envs st !! l = Some e0 -> envs (with_scope l e st) !! l = Some e.
Proof.
  intros He0. unfold with_scope, set_envs. cbn [envs].
  apply list_lookup_insert_eq. by eapply lookup_lt_Some.
Qed.

Lemma lookup_with_scope_other (l l' : loc) (e : Environment) (st : State) :
  l <> l' -> envs (with_scope l e st) !! l' = envs st !! l'.
Proof.
  intros Hne. unfold with_scope, set_envs. cbn [envs]. by apply list_lookup_insert_ne.
Qed.

(** The lookup of a name in the scope that has it. *)
Lemma lookupVariable_here (this : loc) (x : string) (st : State) (e : Environment) :
  envs st !! this = Some e -> Env.has e (Some x) = true ->
  Env.lookupVariable this x st = Ret (Env.get e (Some x)) st.
Proof.
  intros He Hhas. unfold Env.lookupVariable, Env.resolve, Env.read. unfold_m.
  rewrite (resolve_walk_step _ _ _ _ _ He), Hhas. by rewrite He.
Qed.

(** A declaration in a scope that lacks the name, and the lookup after
    it. *)
Lemma declareVariable_binds (this : loc) (x : string) (v : RuntimeValue)
  (isConst : bool) (st : State) (e : Environment) :
  envs st !! this = Some e ->
  variables e !! x = None ->
  Env.declareVariable this x v isConst st
  = Ret v (with_scope this (bound x v isConst e) st)
  /\ Env.lookupVariable this x (with_scope this (bound x v isConst e) st)
     = Ret v (with_scope this (bound x v isConst e) st).
Proof.
  intros He Hx.
  pose proof (lookup_with_scope this (bound x v isConst e) e st He) as He'.
  split.
  - unfold Env.declareVariable, Env.read, Env.write. unfold_m. rewrite He.
    cbn [Env.has]. rewrite Hx.
    by rewrite bool_decide_eq_false_2 by (intros [? ?]; discriminate).
  - rewrite (lookupVariable_here this x _ _ He' (has_bound x v isConst e)).
    unfold Env.get, bound. cbn [variables]. by rewrite lookup_insert_eq.
Qed.

(** X1. A declaration of a name the scope does not have binds it there:
    it returns the value, a lookup from the scope returns it, and a
    second declaration of the name in the scope, constant or not, fails
    and leaves the store and the first binding as they are. *)
Theorem declare_then_lookup (this : loc) (x : string) (v w : RuntimeValue)
  (isConst isConst' : bool) (st : State) (e : Environment) :
  envs st !! this = Some e ->
  variables e !! x = None ->
  let st' := with_scope this (bound x v isConst e) st in
  Env.declareVariable this x v isConst st = Ret v st'
  /\ Env.lookupVariable this x st' = Ret v st'
  /\ Env.declareVariable this x w isConst' st' = Raise (HostString (AlreadyDefined x)) st'.
Proof.
  intros He Hx st'.
  pose proof (lookup_with_scope this (bound x v isConst e) e st He) as He'.
  fold st' in He'. repeat apply conj.
  - unfold Env.declareVariable, Env.read, Env.write. unfold_m. rewrite He.
    cbn [Env.has]. rewrite Hx.
    by rewrite bool_decide_eq_false_2 by (intros [? ?]; discriminate).
  - rewrite (lookupVariable_here this x st' _ He' (has_bound x v isConst e)).
    unfold Env.get, bound. cbn [variables]. by rewrite lookup_insert_eq.
  - unfold Env.declareVariable, Env.read. unfold_m. rewrite He'.
    by rewrite has_bound.
Qed.

(** X2. A constant cannot be assigned, from the scope that declares it or
    from a scope below it: the assignment raises, and the store and the
    value of the constant stay as they are. *)
Theorem constant_is_not_assignable (this : loc) (x : string) (v w : RuntimeValue)
  (st : State) (e : Environment) :
  envs st !! this = Some e ->
  variables e !! x = None ->
  let st' := with_scope this (bound x v true e) st in
  let below := with_child this st' in
  Env.assignVariable this x w st' = Raise (HostString (CannotReassign x)) st'
  /\ Env.assignVariable (length (envs st')) x w below
     = Raise (HostString (CannotReassign x)) below
  /\ Env.lookupVariable (length (envs st')) x below = Ret v below.
Proof.
  intros He Hx st' below.
  pose proof (lookup_with_scope this (bound x v true e) e st He) as He'.
  fold st' in He'.
  assert (Hconst : x ∈ constants (bound x v true e)).
  { unfold bound. cbn [constants]. set_solver. }
  assert (Hchild : envs below !! length (envs st')
                   = Some {| parent := Some this; variables := ∅; constants := ∅ |}).
  { unfold below, with_child, set_envs. cbn [envs]. by apply list_lookup_middle. }
  assert (Hthis : envs below !! this = Some (bound x v true e)).
  { unfold below, with_child, set_envs. cbn [envs].
    rewrite lookup_app_l; [exact He' | by eapply lookup_lt_Some]. }
  assert (Hlen : length (envs below) = S (length (envs st'))).
  { unfold below, with_child, set_envs. cbn [envs]. apply last_length. }
  assert (Hwalk : Env.resolve (length (envs st')) (Some x) below = Ret this below).
  { unfold Env.resolve. rewrite Hlen.
    rewrite (resolve_walk_step _ _ _ _ _ Hchild). cbn [Env.has variables parent].
    rewrite lookup_empty.
    rewrite bool_decide_eq_false_2 by (intros [? ?]; discriminate).
    rewrite (resolve_walk_step _ _ _ _ _ Hthis). by rewrite has_bound. }
  repeat apply conj.
  - unfold Env.assignVariable, Env.resolve, Env.read. unfold_m.
    rewrite (resolve_walk_step _ _ _ _ _ He'), has_bound, He'.
    by rewrite bool_decide_eq_true_2.
  - unfold Env.assignVariable, Env.read. unfold_m. rewrite Hwalk, Hthis.
    by rewrite bool_decide_eq_true_2.
  - unfold Env.lookupVariable, Env.read. unfold_m. rewrite Hwalk, Hthis.
    unfold Env.get, bound. cbn [variables]. by rewrite lookup_insert_eq.
Qed.

(** An assignment leaves the names of every scope as they were. *)
Lemma same_names_after_assignment (target : loc) (x : string) (v : RuntimeValue)
  (st : State) (e : Environment) (y : option string) :
  envs st !! target = Some e -> Env.has e (Some x) = true ->
  forall l : loc,
    match envs st !! l, envs (with_scope target (bound x v false e) st) !! l with
    | Some e1, Some e2 => parent e1 = parent e2 /\ Env.has e1 y = Env.has e2 y
    | None, None => True
    | _, _ => False
    end.
Proof.
  intros He Hhas l. destruct (decide (target = l)) as [<- | Hne].
  - rewrite (lookup_with_scope target _ e st He), He. split; [reflexivity |].
    symmetry. by apply has_rebound.
  - rewrite (lookup_with_scope_other target l _ st Hne).
    by destruct (envs st !! l).
Qed.

(** X3. An assignment to a variable that is not constant is read back by
    a lookup from the same scope, and changes no other variable: the
    lookup of another name, from any scope, gives what it gave. *)
Theorem assign_then_lookup (this target : loc) (x : string) (v : RuntimeValue)
  (st : State) (e : Environment) :
  Env.resolve this (Some x) st = Ret target st ->
  envs st !! target = Some e ->
  x ∉ constants e ->
  let st' := with_scope target (bound x v false e) st in
  Env.assignVariable this x v st = Ret v st'
  /\ Env.lookupVariable this x st' = Ret v st'
  /\ forall (from : loc) (y : string),
       y <> x ->
       Env.lookupVariable from y st' = in_store st' (Env.lookupVariable from y st).
Proof.
  intros Hres He Hconst st'.
  destruct (resolve_walk_found _ _ _ _ _ _ Hres) as (_ & e0 & He0 & Hhas).
  assert (e0 = e) as -> by congruence.
  assert (Hlen : length (envs st') = length (envs st)).
  { unfold st', with_scope, set_envs. cbn [envs]. apply length_insert. }
  pose proof (lookup_with_scope target (bound x v false e) e st He) as He'.
  fold st' in He'.
  repeat apply conj.
  - unfold Env.assignVariable, Env.read, Env.write. unfold_m.
    rewrite Hres, He. by rewrite bool_decide_eq_false_2.
  - unfold Env.lookupVariable, Env.resolve, Env.read. unfold_m. rewrite Hlen.
    rewrite (resolve_walk_same_names _ (Some x) st st'
               (same_names_after_assignment target x v st e (Some x) He Hhas)).
    unfold Env.resolve in Hres. rewrite Hres. cbn [in_store]. rewrite He'.
    unfold Env.get, bound. cbn [variables]. by rewrite lookup_insert_eq.
  - intros from y Hy.
    unfold Env.lookupVariable, Env.resolve, Env.read. unfold_m. rewrite Hlen.
    rewrite (resolve_walk_same_names _ (Some y) st st'
               (same_names_after_assignment target x v st e (Some y) He Hhas)).
    destruct (Env.resolve_walk (length (envs st)) from (Some y) st)
      as [l st0 | | |] eqn:Hwalk; try reflexivity.
    destruct (resolve_walk_found _ _ _ _ _ _ Hwalk) as (-> & e1 & He1 & _).
    cbn [in_store]. rewrite He1.
    destruct (decide (target = l)) as [<- | Hne].
    + rewrite He'. assert (e1 = e) as -> by congruence.
      cbn [in_store]. unfold Env.get, bound. cbn [variables].
      rewrite lookup_insert_ne by congruence. reflexivity.
    + unfold st'. rewrite (lookup_with_scope_other target l _ st Hne), He1.
      reflexivity.
Qed.

End Bindings.

Section Nesting.

Lemma resolve_walk_more_fuel (n : nat) (x : option string) (st : State) :
  forall this target m,
    Env.resolve_walk n this x st = Ret target st -> n <= m ->
    Env.resolve_walk m this x st = Ret target st.
Proof.
  induction n as [| n IH]; intros this target m H Hle;
    destruct (envs st !! this) as [e |] eqn:He;
    rewrite ?(resolve_walk_dangling _ _ _ _ He) in H; try discriminate H;
    rewrite (resolve_walk_step _ _ _ _ _ He) in H;
    rewrite (resolve_walk_step m _ _ _ _ He);
    destruct (Env.has e x); try exact H;
    destruct (parent e); try exact H; try discriminate H.
  destruct m as [| m]; [lia |]. apply IH; [exact H | lia].
Qed.

(** A store that keeps the environments of another resolves alike what
    the other resolves. *)
Lemma resolve_walk_extended (n : nat) (x : option string) (st st' : State) :
  (forall (l : loc) e, envs st !! l = Some e -> envs st' !! l = Some e) ->
  forall this target,
    Env.resolve_walk n this x st = Ret target st ->
    Env.resolve_walk n this x st' = Ret target st'.
Proof.
  intros Hext. induction n as [| n IH]; intros this target H;
    destruct (envs st !! this) as [e |] eqn:He;
    rewrite ?(resolve_walk_dangling _ _ _ _ He) in H; try discriminate H;
    rewrite (resolve_walk_step _ _ _ _ _ He) in H;
    rewrite (resolve_walk_step _ _ _ _ _ (Hext _ _ He));
    destruct (Env.has e x); try (injection H as <-; reflexivity);
    destruct (parent e); try discriminate H.
  by apply IH.
Qed.

Lemma lookupVariable_extended (this : loc) (x : string) (v : RuntimeValue)
  (st st' : State) :
  (forall (l : loc) e, envs st !! l = Some e -> envs st' !! l = Some e) ->
  length (envs st) <= length (envs st') ->
  Env.lookupVariable this x st = Ret v st ->
  Env.lookupVariable this x st' = Ret v st'.
Proof.
  intros Hext Hlen. unfold Env.lookupVariable, Env.resolve, Env.read. unfold_m.
  destruct (Env.resolve_walk (length (envs st)) this (Some x) st)
    as [target st0 | | |] eqn:Hwalk; try discriminate.
  destruct (resolve_walk_found _ _ _ _ _ _ Hwalk) as (-> & e & He & _).
  rewrite He. intros H.
  rewrite (resolve_walk_more_fuel _ _ _ _ _ (length (envs st'))
             (resolve_walk_extended _ _ st st' Hext _ _ Hwalk) Hlen).
  rewrite (Hext _ _ He). congruence.
Qed.

(** X4. A fresh child scope sees the bindings of its parent, and a
    declaration in the child shadows the parent's binding for the child
    only: the parent still reads its own. *)
Theorem child_scope_shadows (s : loc) (x : string) (old v : RuntimeValue)
  (isConst : bool) (st : State) :
  Env.lookupVariable s x st = Ret old st ->
  let child := length (envs st) in
  let st1 := with_child s st in
  let st2 := with_scope child
               (bound x v isConst {| parent := Some s; variables := ∅; constants := ∅ |})
               st1 in
  Env.lookupVariable child x st1 = Ret old st1
  /\ Env.declareVariable child x v isConst st1 = Ret v st2
  /\ Env.lookupVariable child x st2 = Ret v st2
  /\ Env.lookupVariable s x st2 = Ret old st2.
Proof.
  intros Hold child st1 st2.
  assert (Hchild : envs st1 !! child
                   = Some {| parent := Some s; variables := ∅; constants := ∅ |}).
  { unfold st1, with_child, set_envs. cbn [envs]. by apply list_lookup_middle. }
  assert (Hext1 : forall (l : loc) e, envs st !! l = Some e -> envs st1 !! l = Some e).
  { intros l e He. unfold st1, with_child, set_envs. cbn [envs].
    rewrite lookup_app_l; [exact He | by eapply lookup_lt_Some]. }
  assert (Hlen1 : length (envs st1) = S (length (envs st))).
  { unfold st1, with_child, set_envs. cbn [envs]. apply last_length. }
  assert (Hext2 : forall (l : loc) e, envs st !! l = Some e -> envs st2 !! l = Some e).
  { intros l e He. unfold st2.
    rewrite lookup_with_scope_other; [by apply Hext1 |].
    apply lookup_lt_Some in He. unfold child. lia. }
  assert (Hlen2 : length (envs st2) = S (length (envs st))).
  { unfold st2, with_scope, set_envs. cbn [envs]. by rewrite length_insert. }
  destruct (declareVariable_binds child x v isConst st1 _ Hchild (lookup_empty x))
    as (Hdecl & Hread).
  repeat apply conj.
  - pose proof (lookupVariable_extended s x old st st1 Hext1 ltac:(lia) Hold) as Hs.
    revert Hs. unfold Env.lookupVariable, Env.resolve, Env.read. unfold_m.
    rewrite Hlen1. rewrite (resolve_walk_step (S _) _ _ _ _ Hchild).
    cbn [Env.has variables parent]. rewrite lookup_empty.
    rewrite bool_decide_eq_false_2 by (intros [? ?]; discriminate).
    destruct (Env.resolve_walk (S (length (envs st))) s (Some x) st1)
      as [target st0 | | |] eqn:Hwalk; try discriminate.
    destruct (resolve_walk_found _ _ _ _ _ _ Hwalk) as (-> & e & He & Hhas).
    intros Hs.
    assert (Hwalk' : Env.resolve_walk (length (envs st)) s (Some x) st1 = Ret target st1).
    { unfold Env.lookupVariable, Env.resolve, Env.read in Hold. unfold_m.
      destruct (Env.resolve_walk (length (envs st)) s (Some x) st)
        as [t st0 | | |] eqn:Hw; try discriminate.
      destruct (resolve_walk_found _ _ _ _ _ _ Hw) as (-> & _).
      pose proof (resolve_walk_extended _ _ st st1 Hext1 _ _ Hw) as Hw1.
      pose proof (resolve_walk_more_fuel _ _ _ _ _ (S (length (envs st))) Hw1
                    ltac:(lia)) as Hw2.
      congruence. }
    rewrite Hwalk'. exact Hs.
  - exact Hdecl.
  - exact Hread.
  - apply (lookupVariable_extended s x old st st2 Hext2); [lia | exact Hold].
Qed.

(** X5. In a well-scoped store a lookup and an assignment from a scope of
    the store end: the lookup returns a value or raises the failure to
    resolve the name; the assignment returns the value or raises that
    failure or the refusal to assign a constant; a failure leaves the
    store as it was. *)
Theorem lookup_and_assign_end (this : loc) (x : string) (v : RuntimeValue) (st : State) :
  well_scoped st ->
  this < length (envs st) ->
  ((exists w, Env.lookupVariable this x st = Ret w st)
   \/ Env.lookupVariable this x st = Raise (HostString (CannotResolve (Some x))) st)
  /\ ((exists st', Env.assignVariable this x v st = Ret v st')
      \/ Env.assignVariable this x v st = Raise (HostString (CannotResolve (Some x))) st
      \/ Env.assignVariable this x v st = Raise (HostString (CannotReassign x)) st).
Proof.
  intros Hws Hlen.
  unfold Env.lookupVariable, Env.assignVariable, Env.resolve, Env.read, Env.write.
  unfold_m.
  destruct (resolve_walk_ends (Some x) st Hws (length (envs st)) this ltac:(lia) Hlen)
    as [(target & e & -> & _ & He & _) | ->].
  - rewrite He. split; [left; eauto |].
    destruct (bool_decide (x ∈ constants e)); eauto.
  - split; [by right | right; by left].
Qed.

End Nesting.

(** ** What an evaluation keeps

    A property of the store that every write of the interpreter keeps is
    kept by every evaluation, when the native functions keep it. *)

Section Kept.

Variable native_call : nat -> list RuntimeValue -> loc -> M RuntimeValue.

Variable P : State -> Prop.

Hypothesis P_new_scope : forall st p,
  P st ->
  P (set_envs (fun es => es ++ [{| parent := p; variables := ∅; constants := ∅ |}]) st).

Hypothesis P_declare : forall st (l : loc) e x v isConst,
  P st -> envs st !! l = Some e -> variables e !! x = None ->
  P (with_scope l (bound x v isConst e) st).

Hypothesis P_assign : forall st (l : loc) e x v,
  P st -> envs st !! l = Some e -> is_Some (variables e !! x) -> x ∉ constants e ->
  P (with_scope l (bound x v false e) st).

Hypothesis P_objects : forall st f,
  P st -> length (objects st) <= length (f (objects st)) -> P (set_objects f st).

Hypothesis P_arrays : forall st f,
  P st -> length (arrays st) <= length (f (arrays st)) -> P (set_arrays f st).

Hypothesis P_native : forall call args env, keeps P (native_call call args env).

Lemma keeps_ret {A : Type} (a : A) : keeps P (ret a).
Proof. intros st HP. exact HP. Qed.

Lemma keeps_throw {A : Type} (e : RuntimeValue) : keeps P (@throw A e).
Proof. intros st HP. exact HP. Qed.

Lemma keeps_lift {A : Type} (c : Completion A) : keeps P (lift c).
Proof. destruct c; [apply keeps_ret | apply keeps_throw]. Qed.

Lemma keeps_abort {A : Type} (why : Reason) : keeps P (fun _ => @Abort A why).
Proof. intros st HP. exact I. Qed.

Lemma keeps_bind {A B : Type} (c : M A) (k : A -> M B) :
  keeps P c -> (forall a, keeps P (k a)) -> keeps P (bind c k).
Proof.
  intros Hc Hk st HP. specialize (Hc st HP). unfold bind.
  destruct (c st); try exact Hc. by apply Hk.
Qed.

Lemma keeps_try_catch {A : Type} (c : M A) (h : RuntimeValue -> M A) :
  keeps P c -> (forall e, keeps P (h e)) -> keeps P (try_catch c h).
Proof.
  intros Hc Hh st HP. specialize (Hc st HP). unfold try_catch.
  destruct (c st); try exact Hc. by apply Hh.
Qed.

Lemma keeps_new (parentEnv : option loc) : keeps P (Env.new parentEnv).
Proof. intros st HP. by apply P_new_scope. Qed.

Lemma keeps_resolve (this : loc) (x : option string) : keeps P (Env.resolve this x).
Proof.
  intros st HP. unfold Env.resolve.
  destruct (Env.resolve_walk _ this x st) as [l st' | e st' | st' |] eqn:H; cbn.
  - by destruct (resolve_walk_found _ _ _ _ _ _ H) as (-> & _).
  - by destruct (resolve_walk_raises _ _ _ _ _ _ H) as (_ & ->).
  - exfalso. revert this H. generalize (length (envs st)).
    induction n as [| n IH]; intros this H; simpl in H;
      destruct (envs st !! this) as [e |]; try discriminate H;
      destruct (Env.has e x); try discriminate H;
      destruct (parent e); try discriminate H.
    by eapply IH.
  - exact I.
Qed.

Lemma keeps_read (this : loc) : keeps P (Env.read this).
Proof. intros st HP. unfold Env.read. by destruct (envs st !! this). Qed.

Lemma keeps_declareVariable (this : loc) (x : string) (v : RuntimeValue) (isConst : bool) :
  keeps P (Env.declareVariable this x v isConst).
Proof.
  intros st HP. unfold Env.declareVariable, Env.read, Env.write. unfold_m.
  destruct (envs st !! this) as [e |] eqn:He; [| exact I].
  cbn [Env.has]. destruct (variables e !! x) eqn:Hx.
  - rewrite bool_decide_eq_true_2 by eauto. exact HP.
  - rewrite bool_decide_eq_false_2 by (intros [? ?]; discriminate).
    by eapply P_declare.
Qed.

Lemma keeps_assignVariable (this : loc) (x : string) (v : RuntimeValue) :
  keeps P (Env.assignVariable this x v).
Proof.
  intros st HP. unfold Env.assignVariable, Env.resolve, Env.read, Env.write. unfold_m.
  destruct (Env.resolve_walk _ this (Some x) st) as [l st' | e st' | st' |] eqn:H.
  - destruct (resolve_walk_found _ _ _ _ _ _ H) as (-> & e & He & Hhas).
    rewrite He. case_bool_decide as Hc; [exact HP |].
    eapply P_assign; try done.
    unfold Env.has in Hhas. by apply bool_decide_eq_true_1 in Hhas.
  - by destruct (resolve_walk_raises _ _ _ _ _ _ H) as (_ & ->).
  - pose proof (keeps_resolve this (Some x) st HP) as Hk.
    unfold Env.resolve in Hk. by rewrite H in Hk.
  - exact I.
Qed.

Lemma keeps_lookupVariable (this : loc) (x : string) : keeps P (Env.lookupVariable this x).
Proof.
  unfold Env.lookupVariable.
  apply keeps_bind; [apply keeps_resolve | intros env].
  apply keeps_bind; [apply keeps_read | intros e]. apply keeps_ret.
Qed.

Lemma keeps_new_object : keeps P new_object.
Proof.
  intros st HP. apply P_objects; [exact HP |]. rewrite last_length. lia.
Qed.

Lemma keeps_object_set (l : loc) (key : option string) (v : RuntimeValue) :
  keeps P (object_set l key v).
Proof.
  intros st HP. unfold object_set. destruct (objects st !! l); [| exact I].
  apply P_objects; [exact HP |]. by rewrite length_insert.
Qed.

Lemma keeps_object_get (l : loc) (key : option string) : keeps P (object_get l key).
Proof. intros st HP. unfold object_get. by destruct (objects st !! l). Qed.

Lemma keeps_new_array : keeps P new_array.
Proof.
  intros st HP. apply P_arrays; [exact HP |]. rewrite last_length. lia.
Qed.

Lemma keeps_array_set (l : loc) (num : float) (v : RuntimeValue) :
  keeps P (array_set l num v).
Proof.
  intros st HP. unfold array_set. destruct (arrays st !! l); [| exact I].
  apply P_arrays; [exact HP |]. by rewrite length_insert.
Qed.

Lemma keeps_array_get (l : loc) (num : float) : keeps P (array_get l num).
Proof. intros st HP. unfold array_get. by destruct (arrays st !! l). Qed.

Lemma keeps_array_push (l : loc) (v : RuntimeValue) : keeps P (array_push l v).
Proof.
  intros st HP. unfold array_push. destruct (arrays st !! l); [| exact I].
  apply P_arrays; [exact HP |]. by rewrite length_insert.
Qed.

Section Step.

Variable ev : Stmt -> loc -> M RuntimeValue.

Hypothesis keeps_ev : forall node env, keeps P (ev node env).

Ltac keeps :=
  repeat first
    [ apply keeps_ret | apply keeps_throw | apply keeps_lift | apply keeps_abort
    | apply keeps_ev | apply P_native
    | apply keeps_new | apply keeps_resolve | apply keeps_read
    | apply keeps_declareVariable | apply keeps_assignVariable
    | apply keeps_lookupVariable
    | apply keeps_new_object | apply keeps_object_set | apply keeps_object_get
    | apply keeps_new_array | apply keeps_array_set | apply keeps_array_get
    | apply keeps_array_push
    | apply keeps_bind; [| intros ?]
    | apply keeps_try_catch; [| intros ?]
    | progress cbv beta
    | case_match ].

Lemma keeps_evalStatements (body : list Stmt) :
  forall scope last, keeps P (evalStatements ev body scope last).
Proof.
  induction body as [| stmt rest IH]; intros scope last; cbn [evalStatements]; keeps.
  apply IH.
Qed.

Lemma keeps_evalBody (body : list Stmt) (env : loc) (newEnv : bool) :
  keeps P (evalBody ev body env newEnv).
Proof. unfold evalBody. destruct newEnv; keeps; apply keeps_evalStatements. Qed.

Lemma keeps_evaluateVariableDeclaration (declaration : bool * string * option Stmt)
  (env : loc) :
  keeps P (evaluateVariableDeclaration ev declaration env).
Proof. destruct declaration as [[constant identifier] [value |]]; cbn; keeps. Qed.

Lemma keeps_accessMember (this : loc) (pastVal : RuntimeValue) (p : Stmt)
  (value : RuntimeValue) (property : option Stmt) :
  keeps P (accessMember ev this pastVal p value property).
Proof. unfold accessMember. destruct pastVal; keeps. Qed.

Lemma keeps_lookupOrMutObject (this : loc) (object : Stmt) :
  forall p value property, keeps P (lookupOrMutObject ev this object p value property).
Proof.
  induction object; intros q v property'; cbn [lookupOrMutObject];
    (apply keeps_bind; [| intros ?; apply keeps_accessMember]);
    first [solve [auto] | keeps].
Qed.

Lemma keeps_evaluateAssignment (node : Stmt) (env : loc) :
  keeps P (evaluateAssignment ev node env).
Proof.
  unfold evaluateAssignment, evaluateMemberExpression.
  keeps; apply keeps_lookupOrMutObject.
Qed.

Lemma keeps_fillProperties (object : loc) (properties : list (string * option Stmt)) :
  forall env, keeps P (fillProperties ev object properties env).
Proof.
  induction properties as [| [key value] rest IH]; intros env; cbn [fillProperties];
    keeps. apply IH.
Qed.

Lemma keeps_pushValues (array : loc) (values : list Stmt) :
  forall env, keeps P (pushValues ev array values env).
Proof.
  induction values as [| value rest IH]; intros env; cbn [pushValues]; keeps. apply IH.
Qed.

Lemma keeps_evalArgs (args : list Stmt) : forall env, keeps P (evalArgs ev args env).
Proof.
  induction args as [| arg rest IH]; intros env; cbn [evalArgs]; keeps. apply IH.
Qed.

Lemma keeps_declareParams (scope : loc) (params : list string) (args : list RuntimeValue) :
  forall i, keeps P (declareParams scope params args i).
Proof.
  induction params as [| x rest IH]; intros i; cbn [declareParams]; keeps. apply IH.
Qed.

Lemma keeps_callValue (fn : RuntimeValue) (args : list RuntimeValue) (env : loc) :
  keeps P (callValue native_call ev fn args env).
Proof.
  unfold callValue, evaluateFunction. destruct fn; keeps;
    first [apply keeps_declareParams | apply keeps_evalStatements].
Qed.

Lemma keeps_doWhile (fuel : nat) (body : list Stmt) (update test : Stmt) (env : loc) :
  keeps P (doWhile ev fuel body update test env).
Proof.
  induction fuel as [| fuel IH]; cbn [doWhile]; [apply keeps_abort |].
  repeat first [ apply keeps_ret | apply keeps_lift | apply keeps_ev | apply IH
               | apply keeps_new | apply keeps_evalBody | apply keeps_evaluateAssignment
               | apply keeps_bind; [| intros ?] | case_match ].
Qed.

End Step.

Lemma keeps_evaluate (n : nat) :
  forall node env, keeps P (evaluate native_call n node env).
Proof.
  induction n as [| n IH]; intros node env; [apply keeps_abort |].
  destruct node; cbn [evaluate];
    unfold evaluateProgram, evalIfStatement, evalForStatement, evalTryCatchStatement,
      evaluateBinaryExpression, evalCallExpression, evaluateMemberExpression,
      evaluateArrayExpression, evaluateObjectExpression, evaluateIdentifier,
      evalFunctionDeclaration;
    repeat first
      [ apply keeps_ret | apply keeps_lift | apply IH
      | apply keeps_evalStatements | apply keeps_evalBody
      | apply keeps_evaluateVariableDeclaration | apply keeps_evaluateAssignment
      | apply keeps_doWhile | apply keeps_evalArgs | apply keeps_callValue
      | apply keeps_lookupOrMutObject | apply keeps_pushValues
      | apply keeps_fillProperties | apply keeps_lookupVariable
      | apply keeps_declareVariable | apply keeps_new
      | apply keeps_new_object | apply keeps_new_array
      | apply keeps_assignVariable
      | apply keeps_bind; [| intros ?]
      | apply keeps_try_catch; [| intros ?]
      | case_match ].
Qed.

End Kept.

Section KeptInstances.

Lemma holds_after_impl {A : Type} (P Q : State -> Prop) (o : Outcome A) :
  (forall st, P st -> Q st) -> holds_after P o -> holds_after Q o.
Proof. intros H. destruct o; cbn; auto. Qed.

Lemma grows_refl (st : State) : grows st st.
Proof. by repeat split. Qed.

Lemma grows_trans (st1 st2 st3 : State) : grows st1 st2 -> grows st2 st3 -> grows st1 st3.
Proof. intros (? & ? & ?) (? & ? & ?). repeat split; lia. Qed.

Lemma scope_kept_refl (e : Environment) : scope_kept e e.
Proof. by repeat split. Qed.

Lemma scope_kept_trans (e1 e2 e3 : Environment) :
  scope_kept e1 e2 -> scope_kept e2 e3 -> scope_kept e1 e3.
Proof.
  intros (Hp & Hn & Hc) (Hp' & Hn' & Hc'). repeat split.
  - congruence.
  - auto.
  - by apply Hc', Hc.
  - intros Hx. destruct (Hc x H) as [Hx2 Hv]. destruct (Hc' x Hx2) as [_ Hv'].
    rewrite Hv' by auto. by apply Hv.
Qed.

Lemma scopes_kept_refl (st : State) : scopes_kept st st.
Proof. intros l e He. exists e. split; [exact He | apply scope_kept_refl]. Qed.

Lemma scopes_kept_trans (st1 st2 st3 : State) :
  scopes_kept st1 st2 -> scopes_kept st2 st3 -> scopes_kept st1 st3.
Proof.
  intros H12 H23 l e He. destruct (H12 l e He) as (e2 & He2 & Hk).
  destruct (H23 l e2 He2) as (e3 & He3 & Hk'). exists e3.
  split; [exact He3 | by eapply scope_kept_trans].
Qed.

Lemma scopes_kept_with_scope (l : loc) (e e' : Environment) (st : State) :
  envs st !! l = Some e -> scope_kept e e' -> scopes_kept st (with_scope l e' st).
Proof.
  intros He Hk l' e1 He1. destruct (decide (l = l')) as [<- | Hne].
  - exists e'. split; [by eapply lookup_with_scope |]. congruence.
  - exists e1. split; [by rewrite lookup_with_scope_other | apply scope_kept_refl].
Qed.

Lemma scope_kept_declared (x : string) (v : RuntimeValue) (isConst : bool)
  (e : Environment) :
  variables e !! x = None -> scope_kept e (bound x v isConst e).
Proof.
  intros Hx. unfold bound. repeat split; cbn [parent variables constants].
  - intros y [w Hy]. destruct (decide (x = y)) as [<- | Hne]; [congruence |].
    rewrite lookup_insert_ne by done. eauto.
  - destruct isConst; set_solver.
  - intros [w Hy]. destruct (decide (x = x0)) as [<- | Hne]; [congruence |].
    by rewrite lookup_insert_ne.
Qed.

Lemma scope_kept_assigned (x : string) (v : RuntimeValue) (e : Environment) :
  x ∉ constants e -> scope_kept e (bound x v false e).
Proof.
  intros Hx. unfold bound. repeat split; cbn [parent variables constants]; try done.
  - intros y [w Hy]. destruct (decide (x = y)) as [<- | Hne].
    + rewrite lookup_insert_eq. eauto.
    + rewrite lookup_insert_ne by done. eauto.
  - intros _. rewrite lookup_insert_ne; [reflexivity |]. intros ->. contradiction.
Qed.

(** Every evaluation keeps what [grows] says of a store it started
    after, when the native functions free nothing. *)
Lemma grows_is_kept (native_call : nat -> list RuntimeValue -> loc -> M RuntimeValue)
  (st0 : State) (n : nat) (node : Stmt) (env : loc) :
  (forall call args env' st', holds_after (grows st') (native_call call args env' st')) ->
  keeps (grows st0) (evaluate native_call n node env).
Proof.
  intros Hnative.
  apply (keeps_evaluate native_call (grows st0)).
  - intros st1 p H. eapply grows_trans; [exact H |].
    unfold grows, set_envs. cbn [envs objects arrays]. rewrite last_length.
    repeat split; lia.
  - intros st1 l e x v isConst H _ _. eapply grows_trans; [exact H |].
    unfold grows, with_scope, set_envs. cbn [envs objects arrays].
    rewrite length_insert. repeat split; lia.
  - intros st1 l e x v H _ _ _. eapply grows_trans; [exact H |].
    unfold grows, with_scope, set_envs. cbn [envs objects arrays].
    rewrite length_insert. repeat split; lia.
  - intros st1 f H Hf. eapply grows_trans; [exact H |].
    unfold grows, set_objects. cbn [envs objects arrays]. repeat split; lia.
  - intros st1 f H Hf. eapply grows_trans; [exact H |].
    unfold grows, set_arrays. cbn [envs objects arrays]. repeat split; lia.
  - intros call args env' st1 H.
    eapply holds_after_impl; [| apply Hnative]. intros st2. by apply grows_trans.
Qed.

(** X7. An evaluation keeps the scopes it started with: each keeps its
    parent and its names, a constant stays constant, and a name bound as
    a constant stays bound to the same value, whatever the evaluation
    declares, assigns or calls, when the native functions it calls keep
    the scopes. *)
Theorem evaluation_keeps_scopes
  (native_call : nat -> list RuntimeValue -> loc -> M RuntimeValue)
  (n : nat) (node : Stmt) (env : loc) (st : State) :
  (forall call args env' st',
      holds_after (scopes_kept st') (native_call call args env' st')) ->
  holds_after (scopes_kept st) (evaluate native_call n node env st).
Proof.
  intros Hnative.
  apply (keeps_evaluate native_call (scopes_kept st)); try apply scopes_kept_refl.
  - intros st1 p H. eapply scopes_kept_trans; [exact H |].
    intros l e He. exists e. split; [| apply scope_kept_refl].
    unfold set_envs. cbn [envs]. rewrite lookup_app_l; [exact He |].
    by eapply lookup_lt_Some.
  - intros st1 l e x v isConst H He Hx. eapply scopes_kept_trans; [exact H |].
    eapply scopes_kept_with_scope; [exact He | by apply scope_kept_declared].
  - intros st1 l e x v H He _ Hx. eapply scopes_kept_trans; [exact H |].
    eapply scopes_kept_with_scope; [exact He | by apply scope_kept_assigned].
  - intros st1 f H _. exact H.
  - intros st1 f H _. exact H.
  - intros call args env' st1 H.
    eapply holds_after_impl; [| apply Hnative]. intros st2. by apply scopes_kept_trans.
Qed.

End KeptInstances.

Section ScopeInstances.

Lemma initial_well_scoped : well_scoped initial.
Proof.
  intros [| l] e p He Hp.
  - cbn in He. inversion He; subst. discriminate.
  - destruct l; discriminate.
Qed.

Lemma declare_then_lookup_witness :
  Env.declareVariable 0 "x" (MK_BOOL true) false initial
  = Ret (MK_BOOL true) (with_scope 0 (bound "x" (MK_BOOL true) false global_scope) initial)
  /\ Env.lookupVariable 0 "x"
       (with_scope 0 (bound "x" (MK_BOOL true) false global_scope) initial)
     = Ret (MK_BOOL true)
         (with_scope 0 (bound "x" (MK_BOOL true) false global_scope) initial)
  /\ Env.declareVariable 0 "x" MK_NULL true
       (with_scope 0 (bound "x" (MK_BOOL true) false global_scope) initial)
     = Raise (HostString (AlreadyDefined "x"))
         (with_scope 0 (bound "x" (MK_BOOL true) false global_scope) initial).
Proof.
  apply (declare_then_lookup 0 "x" (MK_BOOL true) MK_NULL false true initial global_scope);
    [reflexivity | vm_compute; reflexivity].
Defined.

Lemma constant_is_not_assignable_witness :
  Env.assignVariable 0 "pi" MK_NULL
    (with_scope 0 (bound "pi" (MK_STRING "3") true global_scope) initial)
  = Raise (HostString (CannotReassign "pi"))
      (with_scope 0 (bound "pi" (MK_STRING "3") true global_scope) initial)
  /\ Env.assignVariable 1 "pi" MK_NULL
       (with_child 0 (with_scope 0 (bound "pi" (MK_STRING "3") true global_scope) initial))
     = Raise (HostString (CannotReassign "pi"))
         (with_child 0 (with_scope 0 (bound "pi" (MK_STRING "3") true global_scope) initial))
  /\ Env.lookupVariable 1 "pi"
       (with_child 0 (with_scope 0 (bound "pi" (MK_STRING "3") true global_scope) initial))
     = Ret (MK_STRING "3")
         (with_child 0 (with_scope 0 (bound "pi" (MK_STRING "3") true global_scope) initial)).
Proof.
  apply (constant_is_not_assignable 0 "pi" (MK_STRING "3") MK_NULL initial global_scope);
    [reflexivity | vm_compute; reflexivity].
Defined.

Lemma assign_then_lookup_witness :
  Env.assignVariable 1 "error" (MK_STRING "late") (with_child 0 initial)
  = Ret (MK_STRING "late")
      (with_scope 0 (bound "error" (MK_STRING "late") false global_scope)
         (with_child 0 initial))
  /\ Env.lookupVariable 1 "true"
       (with_scope 0 (bound "error" (MK_STRING "late") false global_scope)
          (with_child 0 initial))
     = Ret (MK_BOOL true)
         (with_scope 0 (bound "error" (MK_STRING "late") false global_scope)
            (with_child 0 initial)).
Proof.
  destruct (assign_then_lookup 1 0 "error" (MK_STRING "late") (with_child 0 initial)
              global_scope) as (Hassign & _ & Hothers);
    [vm_compute; reflexivity | reflexivity | vm_compute; set_solver |].
  split; [exact Hassign |].
  rewrite (Hothers 1 "true") by discriminate. vm_compute. reflexivity.
Defined.

Lemma child_scope_shadows_witness :
  Env.lookupVariable 1 "error" (with_child 0 initial) = Ret MK_NULL (with_child 0 initial)
  /\ Env.lookupVariable 0 "error"
       (with_scope 1
          (bound "error" (MK_BOOL false) true
             {| parent := Some 0; variables := ∅; constants := ∅ |})
          (with_child 0 initial))
     = Ret MK_NULL
         (with_scope 1
            (bound "error" (MK_BOOL false) true
               {| parent := Some 0; variables := ∅; constants := ∅ |})
            (with_child 0 initial)).
Proof.
  destruct (child_scope_shadows 0 "error" MK_NULL (MK_BOOL false) true initial)
    as (Hsees & _ & _ & Hparent); [vm_compute; reflexivity |].
  split; [exact Hsees | exact Hparent].
Defined.

Lemma lookup_and_assign_end_witness :
  ((exists w, Env.lookupVariable 0 "x" initial = Ret w initial)
   \/ Env.lookupVariable 0 "x" initial
      = Raise (HostString (CannotResolve (Some "x"))) initial)
  /\ ((exists st', Env.assignVariable 0 "x" MK_NULL initial = Ret MK_NULL st')
      \/ Env.assignVariable 0 "x" MK_NULL initial
         = Raise (HostString (CannotResolve (Some "x"))) initial
      \/ Env.assignVariable 0 "x" MK_NULL initial
         = Raise (HostString (CannotReassign "x")) initial).
Proof.
  apply (lookup_and_assign_end 0 "x" MK_NULL initial);
    [exact initial_well_scoped | cbn; lia].
Defined.

Lemma evaluation_keeps_scopes_witness :
  holds_after (scopes_kept initial) (run catch_in_block).
Proof.
  apply (evaluation_keeps_scopes no_natives 20 catch_in_block 0 initial).
  intros call args env' st'. apply scopes_kept_refl.
Defined.

End ScopeInstances.

(** ** The lexer: tokens of words, numbers, strings and comments *)

Section LexerRuns.

Lemma append_add_char (a b : string) (c : ascii) :
  String.append a (String.append b (Lexer.char_str c))
  = Lexer.add_char (String.append a b) c.
Proof. unfold Lexer.add_char. by rewrite append_assoc. Qed.

Lemma text_snoc (cs : list ascii) (c : ascii) :
  String.string_of_list_ascii (cs ++ [c])
  = Lexer.add_char (String.string_of_list_ascii cs) c.
Proof.
  induction cs as [| x cs IH]; [reflexivity |].
  change (String x (String.string_of_list_ascii (cs ++ [c]))
          = String x (Lexer.add_char (String.string_of_list_ascii cs) c)).
  by f_equal.
Qed.

Lemma text_app (a b : list ascii) :
  String.string_of_list_ascii (a ++ b)
  = String.append (String.string_of_list_ascii a) (String.string_of_list_ascii b).
Proof.
  induction a as [| x a IH]; [reflexivity |].
  change (String x (String.string_of_list_ascii (a ++ b))
          = String x (String.append (String.string_of_list_ascii a)
                        (String.string_of_list_ascii b))).
  by f_equal.
Qed.

Lemma add_char_cons (x c : ascii) (s : string) :
  Lexer.add_char (String x s) c = String x (Lexer.add_char s c).
Proof. reflexivity. Qed.

(** The scan of a word takes the letters, digits and underscores and
    stops at the first other character. *)
Lemma lexIdent_word (cs rest : list ascii) :
  forall ident,
    forallb (fun c => Lexer.isAlpha c false) cs = true ->
    stops (fun c => Lexer.isAlpha c false) rest = true ->
    Lexer.lexIdent (cs ++ rest) ident
    = (String.append ident (String.string_of_list_ascii cs), rest).
Proof.
  induction cs as [| c cs IH]; intros ident Hcs Hrest.
  - rewrite append_empty. destruct rest as [| c rest]; [reflexivity |].
    cbn [app Lexer.lexIdent]. cbn [stops] in Hrest.
    by destruct (Lexer.isAlpha c false).
  - cbn [forallb] in Hcs. apply andb_prop in Hcs as [Hc Hcs].
    cbn [app Lexer.lexIdent]. rewrite Hc. rewrite IH by assumption.
    f_equal. unfold Lexer.add_char, Lexer.char_str. by rewrite append_assoc.
Qed.

(** A letter or an underscore is read by the last arm of the switch. *)
Lemma step_alpha (tokens : list Lexer.Token) (c : ascii) (src : list ascii) :
  Lexer.isAlpha c true = true ->
  Lexer.step tokens (c :: src) = Lexer.case_default tokens c src
  /\ Lexer.TOKEN_CHARS c = None.
Proof.
  destruct c as [[] [] [] [] [] [] [] []]; intros H;
    solve [discriminate H | split; reflexivity].
Qed.

(** The digits of a number. *)
Lemma lexNumber_digits (ds rest : list ascii) :
  forall num period,
    forallb Lexer.isInt ds = true ->
    Lexer.lexNumber (ds ++ rest) num period
    = Lexer.lexNumber rest (String.append num (String.string_of_list_ascii ds)) period.
Proof.
  induction ds as [| d ds IH]; intros num period Hds.
  - by rewrite append_empty.
  - cbn [forallb] in Hds. apply andb_prop in Hds as [Hd Hds].
    cbn [app Lexer.lexNumber]. rewrite Hd.
    assert (Ascii.eqb d "." = false) as ->.
    { destruct (Ascii.eqb_spec d "."%char) as [-> |]; [discriminate Hd | reflexivity]. }
    cbn [andb]. rewrite IH by assumption.
    f_equal. unfold Lexer.add_char, Lexer.char_str. by rewrite append_assoc.
Qed.

Lemma lexNumber_stops (rest : list ascii) (num : string) :
  stops Lexer.isInt rest = true ->
  (stops (fun c => Ascii.eqb c ".") rest = true ->
   Lexer.lexNumber rest num false = (num, rest))
  /\ Lexer.lexNumber rest num true = (num, rest).
Proof.
  intros Hrest. destruct rest as [| c rest]; [split; reflexivity |].
  cbn [stops] in *. cbn [Lexer.lexNumber].
  destruct (Lexer.isInt c); [discriminate Hrest |].
  split; [intros Hdot |].
  - by destruct (Ascii.eqb c ".").
  - by rewrite andb_false_r.
Qed.

(** X8. A word is one token: the letters, digits and underscores that
    follow a letter or an underscore, up to the first other character,
    make one token, of the keyword's type when the whole word is a
    keyword and an identifier otherwise. *)
Theorem word_is_one_token (tokens : list Lexer.Token) (c : ascii) (cs rest : list ascii) :
  Lexer.isAlpha c true = true ->
  forallb (fun c => Lexer.isAlpha c false) cs = true ->
  stops (fun c => Lexer.isAlpha c false) rest = true ->
  Lexer.step tokens (c :: cs ++ rest)
  = Lexer.Lexed
      (tokens ++ [Lexer.token (String.string_of_list_ascii (c :: cs))
                    (default Lexer.Identifier
                       (Lexer.KEYWORDS (String.string_of_list_ascii (c :: cs))))],
       rest).
Proof.
  intros Hc Hcs Hrest.
  destruct (step_alpha tokens c (cs ++ rest) Hc) as [-> Hchar].
  unfold Lexer.case_default. rewrite Hchar, Hc.
  rewrite (lexIdent_word cs rest _ Hcs Hrest).
  change (String.append (Lexer.char_str c) (String.string_of_list_ascii cs))
    with (String.string_of_list_ascii (c :: cs)).
  by destruct (Lexer.KEYWORDS (String.string_of_list_ascii (c :: cs))).
Qed.

(** X9. A number is one token: a digit, the digits after it, and one
    period with the digits after it, when there is one. A period that
    follows the digits belongs to the number even when no digit follows
    it; a second period does not. *)
Theorem number_is_one_token (tokens : list Lexer.Token) (d : ascii)
  (ds frac rest rest' : list ascii) :
  Lexer.isInt d = true ->
  forallb Lexer.isInt ds = true ->
  forallb Lexer.isInt frac = true ->
  stops Lexer.isInt rest = true ->
  stops (fun c => Lexer.isInt c || Ascii.eqb c ".") rest' = true ->
  Lexer.step tokens (d :: ds ++ "."%char :: frac ++ rest)
  = Lexer.Lexed
      (tokens ++ [Lexer.token (String.string_of_list_ascii (d :: ds ++ "."%char :: frac))
                    Lexer.Number], rest)
  /\ Lexer.step tokens (d :: ds ++ rest')
     = Lexer.Lexed
         (tokens ++ [Lexer.token (String.string_of_list_ascii (d :: ds)) Lexer.Number],
          rest').
Proof.
  intros Hd Hds Hfrac Hrest Hrest'.
  assert (Hint : stops Lexer.isInt rest' = true
                 /\ stops (fun c => Ascii.eqb c ".") rest' = true).
  { destruct rest' as [| c rest']; [by split |]. cbn [stops] in *.
    apply negb_true_iff, orb_false_elim in Hrest' as [-> ->]. by split. }
  destruct Hint as [Hdigit Hdot].
  destruct (lexNumber_stops rest') with (num := String.string_of_list_ascii (d :: ds))
    as [Hint _]; [exact Hdigit |].
  destruct (lexNumber_stops rest)
    with (num := String.string_of_list_ascii (d :: ds ++ "."%char :: frac))
    as [_ Hfraction]; [exact Hrest |].
  split; unfold Lexer.step, Lexer.startsNumber; rewrite Hd.
  - rewrite (lexNumber_digits ds _ _ _ Hds). cbn [Lexer.lexNumber Ascii.eqb Bool.eqb andb negb].
    rewrite (lexNumber_digits frac _ _ _ Hfrac).
    replace (String.append
               (Lexer.add_char
                  (String.append (Lexer.char_str d) (String.string_of_list_ascii ds)) ".")
               (String.string_of_list_ascii frac))
      with (String.string_of_list_ascii (d :: ds ++ "."%char :: frac)).
    + by rewrite Hfraction.
    + change (d :: ds ++ "."%char :: frac) with ((d :: ds) ++ ["."%char] ++ frac).
      by rewrite app_assoc, text_app, text_snoc.
  - rewrite (lexNumber_digits ds _ _ _ Hds).
    change (String.append (Lexer.char_str d) (String.string_of_list_ascii ds))
      with (String.string_of_list_ascii (d :: ds)).
    by rewrite (Hint Hdot).
Qed.

Lemma text_cons (c : ascii) (cs : list ascii) :
  String.string_of_list_ascii (c :: cs)
  = String.append (Lexer.char_str c) (String.string_of_list_ascii cs).
Proof. reflexivity. Qed.

(** The scan of an escaped character, and of a plain one. *)
Lemma lexString_escaped (c c' : ascii) (tl : list ascii) (str raw : string) :
  (c = "\"%char /\ c' = c) \/ (c = Lexer.double_quote /\ c' = c)
  \/ (c = "n"%char /\ c' = "010"%char) \/ (c = "t"%char /\ c' = "009"%char)
  \/ (c = "r"%char /\ c' = "013"%char) ->
  Lexer.lexString ("\"%char :: c :: tl) str raw false
  = Lexer.lexString tl (Lexer.add_char str c')
      (Lexer.add_char (Lexer.add_char raw "\") c) false.
Proof. intros [[-> ->] | [[-> ->] | [[-> ->] | [[-> ->] | [-> ->]]]]]; reflexivity. Qed.

Lemma lexString_plain (c : ascii) (tl : list ascii) (str raw : string) :
  Ascii.eqb c "\" = false -> Ascii.eqb c Lexer.double_quote = false ->
  Lexer.lexString (c :: tl) str raw false
  = Lexer.lexString tl (Lexer.add_char str c) (Lexer.add_char raw c) false.
Proof. intros Hslash Hquote. cbn [Lexer.lexString]. by rewrite Hslash, Hquote. Qed.

(** The scan of a string literal reads an escaped text back. *)
Lemma lexString_escape (body tl : list ascii) :
  forall str raw,
    Lexer.lexString (escape body ++ tl) str raw false
    = Lexer.lexString tl
        (String.append str (String.string_of_list_ascii body))
        (String.append raw (String.string_of_list_ascii (escape body))) false.
Proof.
  induction body as [| c body IH]; intros str raw.
  - cbn [escape app]. by rewrite !append_empty.
  - cbn [escape].
    destruct (Ascii.eqb c "\" || Ascii.eqb c Lexer.double_quote) eqn:Hspecial;
      [| apply orb_false_elim in Hspecial as [Hslash Hquote];
         destruct (Ascii.eqb c "010") eqn:Hn;
         [| destruct (Ascii.eqb c "009") eqn:Ht; [| destruct (Ascii.eqb c "013") eqn:Hr]]].
    5: { cbn [app]. rewrite (lexString_plain c _ _ _ Hslash Hquote), IH.
         unfold Lexer.add_char. by rewrite !text_cons, !append_assoc. }
    all: cbn [app]; erewrite lexString_escaped; [rewrite IH |].
    all: try (unfold Lexer.add_char; rewrite !text_cons, !append_assoc; reflexivity).
    + apply orb_prop in Hspecial as [H | H]; apply Ascii.eqb_eq in H; subst c; auto.
    + apply Ascii.eqb_eq in Hn. subst c. auto 6.
    + apply Ascii.eqb_eq in Ht. subst c. auto 6.
    + apply Ascii.eqb_eq in Hr. subst c. auto 6.
Qed.

Lemma length_add_char (s : string) (c : ascii) :
  String.length (Lexer.add_char s c) = S (String.length s).
Proof.
  induction s as [| x s IH]; [reflexivity |].
  rewrite add_char_cons. cbn [String.length]. by rewrite IH.
Qed.

Lemma substring_add_char (s : string) (c : ascii) :
  String.substring 0 (String.length s) (Lexer.add_char s c) = s.
Proof.
  induction s as [| x s IH]; [reflexivity |].
  rewrite add_char_cons. cbn [String.length String.substring]. by rewrite IH.
Qed.

(** X10. Every text can be written as a string literal: the literal of
    its escaped form, between quotes, is one string token whose value
    is the text and whose raw form is the escaped text, and the scan
    goes on after the closing quote. *)
Theorem string_literal_round_trip (tokens : list Lexer.Token) (body rest : list ascii) :
  Lexer.step tokens (Lexer.double_quote :: escape body ++ Lexer.double_quote :: rest)
  = Lexer.Lexed
      (tokens ++ [{| Lexer.value := String.string_of_list_ascii body;
                     Lexer.type := Lexer.String;
                     Lexer.raw := String.string_of_list_ascii (escape body) |}],
       rest).
Proof.
  unfold Lexer.step, Lexer.startsNumber.
  change (Lexer.isInt Lexer.double_quote) with false.
  cbn [Ascii.eqb Bool.eqb andb Lexer.double_quote].
  change "034"%char with Lexer.double_quote.
  rewrite lexString_escape. cbn [Lexer.lexString Ascii.eqb Bool.eqb andb negb Lexer.double_quote].
  change (String.append "" ?s) with s.
  change (String.append EmptyString (String.string_of_list_ascii body))
    with (String.string_of_list_ascii body).
  change (String.append EmptyString (String.string_of_list_ascii (escape body)))
    with (String.string_of_list_ascii (escape body)).
  rewrite length_add_char. cbn [Nat.sub]. rewrite Nat.sub_0_r.
  by rewrite substring_add_char.
Qed.

Lemma append_add_char_cons (a s : string) (c : ascii) :
  String.append (Lexer.add_char a c) s = String.append a (String c s).
Proof. unfold Lexer.add_char. by rewrite append_assoc. Qed.

(** The scan of a literal that no quote closes takes the whole text. *)
Lemma lexString_unclosed (body : list ascii) :
  forall str raw escaped,
    unclosed escaped body = true ->
    Lexer.lexString body str raw escaped
    = (String.append str (String.string_of_list_ascii (unescape escaped body)),
       String.append raw (String.string_of_list_ascii body), []).
Proof.
  induction body as [| c body IH]; intros str raw escaped Hunclosed.
  - cbn [Lexer.lexString unescape String.string_of_list_ascii].
    by rewrite !append_empty.
  - cbn [Lexer.lexString unescape unclosed String.string_of_list_ascii] in *.
    destruct (Ascii.eqb c "\") eqn:Hslash.
    + destruct escaped; cbn [negb] in *; rewrite IH by exact Hunclosed;
        cbn [String.string_of_list_ascii]; by rewrite ?append_add_char_cons.
    + destruct (Ascii.eqb c Lexer.double_quote) eqn:Hquote.
      * destruct escaped; [| discriminate]. cbn [andb negb] in *.
        rewrite IH by exact Hunclosed.
        cbn [app String.string_of_list_ascii]. by rewrite !append_add_char_cons.
      * destruct escaped.
        -- destruct (Lexer.ESCAPED c) as [c' |]; rewrite IH by exact Hunclosed;
             cbn [app String.string_of_list_ascii];
             by rewrite !append_add_char_cons.
        -- rewrite IH by exact Hunclosed.
           cbn [String.string_of_list_ascii]. by rewrite !append_add_char_cons.
Qed.

(** All of a text but its last character. *)
Lemma substring_removelast (text : list ascii) :
  String.substring 0 (String.length (String.string_of_list_ascii text) - 1)
    (String.string_of_list_ascii text)
  = String.string_of_list_ascii (removelast text).
Proof.
  induction text as [| c text IH]; [reflexivity |].
  destruct text as [| c' text]; [reflexivity |].
  change (removelast (c :: c' :: text)) with (c :: removelast (c' :: text)).
  cbn [String.string_of_list_ascii String.length Nat.sub] in *.
  rewrite Nat.sub_0_r in *. cbn [String.substring]. by rewrite <- IH.
Qed.

(** The escaped form of a text is a literal that no quote closes, and
    it stands for the text. *)
Lemma unclosed_escape (body : list ascii) : unclosed false (escape body) = true.
Proof.
  induction body as [| c body IH]; [reflexivity |]. cbn [escape].
  destruct (Ascii.eqb_spec c "\") as [-> | Hslash]; [exact IH |].
  destruct (Ascii.eqb_spec c Lexer.double_quote) as [-> | Hquote]; [exact IH |].
  apply Ascii.eqb_neq in Hslash, Hquote. cbn [orb].
  destruct (Ascii.eqb_spec c "010") as [-> | Hn]; [exact IH |].
  destruct (Ascii.eqb_spec c "009") as [-> | Ht]; [exact IH |].
  destruct (Ascii.eqb_spec c "013") as [-> | Hr]; [exact IH |].
  cbn [app unclosed]. by rewrite Hslash, Hquote.
Qed.

Lemma unescape_escape (body : list ascii) : unescape false (escape body) = body.
Proof.
  induction body as [| c body IH]; [reflexivity |]. cbn [escape].
  destruct (Ascii.eqb_spec c "\") as [-> | Hslash]; [cbn; by rewrite IH |].
  destruct (Ascii.eqb_spec c Lexer.double_quote) as [-> | Hquote]; [cbn; by rewrite IH |].
  apply Ascii.eqb_neq in Hslash, Hquote. cbn [orb].
  destruct (Ascii.eqb_spec c "010") as [-> | Hn]; [cbn; by rewrite IH |].
  destruct (Ascii.eqb_spec c "009") as [-> | Ht]; [cbn; by rewrite IH |].
  destruct (Ascii.eqb_spec c "013") as [-> | Hr]; [cbn; by rewrite IH |].
  cbn [app unescape]. by rewrite Hslash, IH.
Qed.

(** X11. A string literal that is never closed is no error, whatever
    its text holds (line ends, unknown escapes, a last backslash): the
    scan takes the text to its end, the value of the token is what the
    text stands for, its raw form is the text without its last
    character, and the end of file follows. *)
Theorem unclosed_string_is_accepted (tokens : list Lexer.Token) (body : list ascii) :
  unclosed false body = true ->
  Lexer.step tokens (Lexer.double_quote :: body)
  = Lexer.Lexed
      (tokens ++ [{| Lexer.value := String.string_of_list_ascii (unescape false body);
                     Lexer.type := Lexer.String;
                     Lexer.raw := String.string_of_list_ascii (removelast body) |}],
       [])
  /\ forall fuel,
       Lexer.tokenize_loop (S fuel) tokens (Lexer.double_quote :: body)
       = Lexer.Lexed
           (tokens ++ [{| Lexer.value := String.string_of_list_ascii (unescape false body);
                          Lexer.type := Lexer.String;
                          Lexer.raw := String.string_of_list_ascii (removelast body) |};
                       Lexer.token "EndOfFile" Lexer.EOF]).
Proof.
  intros Hunclosed.
  assert (Hstep : Lexer.step tokens (Lexer.double_quote :: body)
                  = Lexer.Lexed
                      (tokens ++ [{| Lexer.value :=
                                       String.string_of_list_ascii (unescape false body);
                                     Lexer.type := Lexer.String;
                                     Lexer.raw :=
                                       String.string_of_list_ascii (removelast body) |}],
                       [])).
  { unfold Lexer.step, Lexer.startsNumber.
    change (Lexer.isInt Lexer.double_quote) with false.
    change (Ascii.eqb Lexer.double_quote "=") with false.
    change (Ascii.eqb Lexer.double_quote "&") with false.
    change (Ascii.eqb Lexer.double_quote "!") with false.
    change (Ascii.eqb Lexer.double_quote "-") with false.
    change (Ascii.eqb Lexer.double_quote Lexer.double_quote) with true.
    cbv iota.
    rewrite (lexString_unclosed body "" "" false Hunclosed).
    change (String.append "" ?s) with s.
    by rewrite substring_removelast. }
  split; [exact Hstep |].
  intros fuel. cbn [Lexer.tokenize_loop]. rewrite Hstep.
  destruct fuel; cbn [Lexer.tokenize_loop]; by rewrite <- app_assoc.
Qed.





(** The backward scan returns what it had, with a prefix of what it was
    given. *)
Lemma getPrevIdents_loop_prefix (tokens reversed : list Lexer.Token) :
  forall newTokens,
    exists k, Lexer.getPrevIdents_loop tokens reversed newTokens
              = newTokens ++ take k reversed.
Proof.
  induction reversed as [| t reversed IH]; intros newTokens.
  - exists 0. by rewrite app_nil_r.
  - cbn [Lexer.getPrevIdents_loop].
    destruct (Lexer.getPrevIdents_step tokens t newTokens).
    + destruct (IH (newTokens ++ [t])) as [k ->]. exists (S k).
      by rewrite <- app_assoc.
    + exists 0. by rewrite app_nil_r.
Qed.

(** The path [getPrevIdents] returns is the end of the tokens, and has
    a token. *)
Lemma getPrevIdents_suffix (tokens target : list Lexer.Token) :
  Lexer.getPrevIdents tokens = Some target ->
  target <> [] /\ exists before, tokens = before ++ target.
Proof.
  unfold Lexer.getPrevIdents.
  destruct (getPrevIdents_loop_prefix tokens (rev tokens) []) as [k Hk].
  rewrite Hk. cbn [app].
  destruct (0 <? length (take k (rev tokens)))%nat eqn:Hlen; [| discriminate].
  intros [= <-]. split.
  - intros Hnil. apply (f_equal (@length _)) in Hnil.
    rewrite length_rev in Hnil. cbn [length] in Hnil.
    apply Nat.ltb_lt in Hlen. lia.
  - exists (rev (drop k (rev tokens))).
    rewrite <- rev_app_distr, take_drop. by rewrite rev_involutive.
Qed.

(** X14. An assignment operator after a path [target] is rewritten by
    the lexer: [+=], [-=], [*=] and [/=] become the tokens of [=],
    [target] and the operator, and [++] and [--] the tokens of [=],
    [target], the operator and [1]; and [target] is the non-empty end
    of the tokens read so far. *)
Theorem assignment_operators_repeat_the_target (tokens target : list Lexer.Token)
  (op : ascii) (rest : list ascii) :
  Lexer.getPrevIdents tokens = Some target ->
  op = "+"%char \/ op = "-"%char \/ op = "*"%char \/ op = "/"%char ->
  (target <> [] /\ exists before, tokens = before ++ target)
  /\ Lexer.step tokens (op :: "="%char :: rest)
     = Lexer.Lexed (tokens ++ [Lexer.token "=" Lexer.Equals] ++ target
                      ++ [Lexer.token (Lexer.char_str op) Lexer.BinaryOperator], rest)
  /\ (op = "+"%char \/ op = "-"%char ->
      Lexer.step tokens (op :: op :: rest)
      = Lexer.Lexed (tokens ++ [Lexer.token "=" Lexer.Equals] ++ target
                       ++ [Lexer.token (Lexer.char_str op) Lexer.BinaryOperator;
                           Lexer.token "1" Lexer.Number], rest)).
Proof.
  intros Htarget Hop. split; [by apply getPrevIdents_suffix |].
  split.
  - destruct Hop as [-> | [-> | [-> | ->]]];
      unfold Lexer.step, Lexer.startsNumber, Lexer.case_minus, Lexer.case_plus,
        Lexer.case_star_slash, Lexer.is_char;
      cbn [head tail Lexer.isInt]; by rewrite ?Htarget.
  - intros [-> | ->];
      unfold Lexer.step, Lexer.startsNumber, Lexer.case_minus, Lexer.case_plus,
        Lexer.case_star_slash, Lexer.is_char;
      cbn [head tail Lexer.isInt]; by rewrite ?Htarget.
Qed.

(** The backward scan finds nothing after a closing parenthesis. *)
Lemma getPrevIdents_after_paren (tokens : list Lexer.Token) (before : Lexer.Token) :
  last tokens = Some before ->
  Lexer.type before = Lexer.CloseParen ->
  Lexer.getPrevIdents tokens = None.
Proof.
  intros Hlast Hparen. apply (getPrevIdents_None tokens before Hlast).
  unfold Lexer.getPrevIdents_step. rewrite Hparen.
  rewrite !bool_decide_eq_false_2 by discriminate.
  cbn [orb]. case_match; [| reflexivity]. by rewrite andb_false_r.
Qed.

(** X15. An assignment operator with nothing to assign to stops the
    lexer for ever: at [+=], [*=] and [/=] where the backward scan
    finds no path, and so at the start of the text, and at these and
    [-=] after a closing parenthesis, a turn of the loop changes
    nothing, and no number of turns ends the run. *)
Theorem assignment_operator_without_target_hangs (tokens : list Lexer.Token)
  (op : ascii) (rest : list ascii) (fuel : nat) :
  (Lexer.getPrevIdents tokens = None
   /\ (op = "+"%char \/ op = "*"%char \/ op = "/"%char))
  \/ ((exists before, last tokens = Some before /\ Lexer.type before = Lexer.CloseParen)
      /\ (op = "+"%char \/ op = "-"%char \/ op = "*"%char \/ op = "/"%char)) ->
  Lexer.tokenize_loop fuel tokens (op :: "="%char :: rest) = Lexer.Timeout.
Proof.
  intros Hop. apply tokenize_loop_stuck.
  destruct Hop as [[Hnone Hop] | [(before & Hlast & Hparen) Hop]].
  - destruct Hop as [-> | [-> | ->]];
      unfold Lexer.step, Lexer.startsNumber, Lexer.case_plus, Lexer.case_star_slash,
        Lexer.is_char;
      cbn [head tail Lexer.isInt]; by rewrite ?Hnone.
  - pose proof (getPrevIdents_after_paren tokens before Hlast Hparen) as Hnone.
    destruct Hop as [-> | [-> | [-> | ->]]];
      unfold Lexer.step, Lexer.startsNumber, Lexer.case_minus, Lexer.case_plus,
        Lexer.case_star_slash, Lexer.is_char;
      cbn [head tail Lexer.isInt]; rewrite ?Hnone; try reflexivity.
    by rewrite Hlast, Hparen.
Qed.

(** No arm of the switch makes an end-of-file token. *)
Lemma TOKEN_CHARS_no_EOF (c : ascii) (type : Lexer.TokenType) :
  Lexer.TOKEN_CHARS c = Some type -> type <> Lexer.EOF.
Proof. unfold Lexer.TOKEN_CHARS. repeat case_match; intros [= <-]; discriminate. Qed.

Lemma KEYWORDS_no_EOF (ident : string) (type : Lexer.TokenType) :
  Lexer.KEYWORDS ident = Some type -> type <> Lexer.EOF.
Proof. unfold Lexer.KEYWORDS. repeat case_match; intros [= <-]; discriminate. Qed.

Lemma Forall_snoc_token (P : Lexer.Token -> Prop) (tokens more : list Lexer.Token) :
  Forall P tokens -> Forall P more -> Forall P (tokens ++ more).
Proof. intros. by apply Forall_app. Qed.

Lemma getPrevIdents_Forall (P : Lexer.Token -> Prop) (tokens target : list Lexer.Token) :
  Lexer.getPrevIdents tokens = Some target -> Forall P tokens -> Forall P target.
Proof.
  intros Htarget Htokens.
  destruct (getPrevIdents_suffix tokens target Htarget) as (_ & before & ->).
  by apply Forall_app in Htokens as [_ ?].
Qed.

Ltac no_EOF :=
  repeat first
    [ assumption
    | apply Forall_snoc_token
    | apply Forall_cons; split; [cbn; first [discriminate | eauto] |]
    | apply Forall_nil_2
    | eapply getPrevIdents_Forall; [eassumption | assumption] ].

Lemma case_default_no_EOF (tokens tokens' : list Lexer.Token) (c : ascii)
  (rest src' : list ascii) :
  Lexer.case_default tokens c rest = Lexer.Lexed (tokens', src') ->
  Forall (fun t => Lexer.type t <> Lexer.EOF) tokens ->
  Forall (fun t => Lexer.type t <> Lexer.EOF) tokens'.
Proof.
  unfold Lexer.case_default. intros H Htokens.
  repeat case_match; simplify_eq; no_EOF.
  - by eapply TOKEN_CHARS_no_EOF.
  - by eapply KEYWORDS_no_EOF.
Qed.

Lemma case_star_slash_no_EOF (tokens tokens' : list Lexer.Token) (c : ascii)
  (rest src' : list ascii) :
  Lexer.case_star_slash tokens c rest = Lexer.Lexed (tokens', src') ->
  Forall (fun t => Lexer.type t <> Lexer.EOF) tokens ->
  Forall (fun t => Lexer.type t <> Lexer.EOF) tokens'.
Proof.
  unfold Lexer.case_star_slash. intros H Htokens.
  repeat case_match; simplify_eq; no_EOF; by eapply case_default_no_EOF.
Qed.

Lemma case_plus_no_EOF (tokens tokens' : list Lexer.Token) (c : ascii)
  (rest src' : list ascii) :
  Lexer.case_plus tokens c rest = Lexer.Lexed (tokens', src') ->
  Forall (fun t => Lexer.type t <> Lexer.EOF) tokens ->
  Forall (fun t => Lexer.type t <> Lexer.EOF) tokens'.
Proof.
  unfold Lexer.case_plus. intros H Htokens.
  repeat case_match; simplify_eq; no_EOF; by eapply case_star_slash_no_EOF.
Qed.

Lemma case_minus_no_EOF (tokens tokens' : list Lexer.Token) (c : ascii)
  (rest src' : list ascii) :
  Lexer.case_minus tokens c rest = Lexer.Lexed (tokens', src') ->
  Forall (fun t => Lexer.type t <> Lexer.EOF) tokens ->
  Forall (fun t => Lexer.type t <> Lexer.EOF) tokens'.
Proof.
  unfold Lexer.case_minus. intros H Htokens.
  repeat case_match; simplify_eq; no_EOF; by eapply case_plus_no_EOF.
Qed.

Lemma step_no_EOF (tokens tokens' : list Lexer.Token) (src src' : list ascii) :
  Lexer.step tokens src = Lexer.Lexed (tokens', src') ->
  Forall (fun t => Lexer.type t <> Lexer.EOF) tokens ->
  Forall (fun t => Lexer.type t <> Lexer.EOF) tokens'.
Proof.
  unfold Lexer.step. intros H Htokens.
  repeat case_match; simplify_eq; no_EOF;
    first [ by eapply case_default_no_EOF | by eapply case_star_slash_no_EOF
          | by eapply case_plus_no_EOF | by eapply case_minus_no_EOF ].
Qed.

Lemma tokenize_loop_no_EOF (fuel : nat) :
  forall tokens src result,
    Lexer.tokenize_loop fuel tokens src = Lexer.Lexed result ->
    Forall (fun t => Lexer.type t <> Lexer.EOF) tokens ->
    exists init,
      result = init ++ [Lexer.token "EndOfFile" Lexer.EOF]
      /\ Forall (fun t => Lexer.type t <> Lexer.EOF) init.
Proof.
  induction fuel as [| fuel IH]; intros tokens src result Hrun Htokens.
  - destruct src; [| discriminate Hrun]. cbn in Hrun. simplify_eq. eauto.
  - destruct src as [| c src]; [cbn in Hrun; simplify_eq; eauto |].
    cbn [Lexer.tokenize_loop] in Hrun.
    destruct (Lexer.step tokens (c :: src)) as [[tokens' src'] | | |] eqn:Hstep;
      try discriminate Hrun.
    eapply IH; [exact Hrun |]. by eapply step_no_EOF.
Qed.

(** X16. The tokens of a text end with the end-of-file token, and it is
    their only one: the list is never empty, and no token before its
    last has the type of the last, whatever the text holds. *)
Theorem tokens_end_with_the_only_EOF (sourceCode : string) (tokens : list Lexer.Token) :
  Lexer.tokenize sourceCode = Lexer.Lexed tokens ->
  exists init,
    tokens = init ++ [Lexer.token "EndOfFile" Lexer.EOF]
    /\ Forall (fun t => Lexer.type t <> Lexer.EOF) init.
Proof.
  intros Hrun. eapply tokenize_loop_no_EOF; [exact Hrun | constructor].
Qed.

(** Only the last arm of the switch exits. *)
Lemma case_default_exit (tokens : list Lexer.Token) (c : ascii) (rest : list ascii) :
  Lexer.case_default tokens c rest = Lexer.ProcessExit
  <-> Lexer.TOKEN_CHARS c = None /\ Lexer.isAlpha c true = false
      /\ Lexer.isSkippable c = false.
Proof.
  unfold Lexer.case_default. split.
  - intros H. repeat case_match; by simplify_eq.
  - intros (-> & -> & ->). reflexivity.
Qed.

Lemma step_exit (tokens : list Lexer.Token) (c : ascii) (rest : list ascii) :
  Lexer.step tokens (c :: rest) = Lexer.ProcessExit ->
  Lexer.isInt c = false
  /\ Ascii.eqb c "=" = false /\ Ascii.eqb c "&" = false /\ Ascii.eqb c "!" = false
  /\ Ascii.eqb c Lexer.double_quote = false
  /\ Lexer.case_default tokens c rest = Lexer.ProcessExit.
Proof.
  unfold Lexer.step, Lexer.startsNumber, Lexer.case_minus, Lexer.case_plus,
    Lexer.case_star_slash.
  intros H. repeat case_match; simplify_eq; by repeat split.
Qed.

(** X17. The lexer exits the process at the characters it has no arm
    for, and at no other: a turn of its loop exits exactly when the
    next character is not a digit, a letter, an underscore, a blank, a
    character of [TOKEN_CHARS], [=], [&], [!] or a quote. *)
Theorem exit_at_unrecognized_characters_only (tokens : list Lexer.Token) (c : ascii)
  (rest : list ascii) :
  Lexer.step tokens (c :: rest) = Lexer.ProcessExit <-> recognized c = false.
Proof.
  unfold recognized. split.
  - intros H. apply step_exit in H as (-> & -> & -> & -> & -> & H).
    apply case_default_exit in H as (-> & -> & ->).
    rewrite bool_decide_eq_false_2; [reflexivity |]. by intros [? ?].
  - intros H. repeat (apply orb_false_elim in H as [H ?]).
    assert (Hchar : Lexer.TOKEN_CHARS c = None).
    { destruct (Lexer.TOKEN_CHARS c) eqn:Hc; [| reflexivity].
      rewrite bool_decide_eq_true_2 in *; [discriminate | eauto]. }
    assert (Hops : Ascii.eqb c "-" = false /\ Ascii.eqb c "+" = false
                   /\ Ascii.eqb c "*" = false /\ Ascii.eqb c "/" = false).
    { repeat split;
        match goal with
        | |- Ascii.eqb c ?x = false =>
          destruct (Ascii.eqb_spec c x) as [-> |]; [discriminate Hchar | reflexivity]
        end. }
    destruct Hops as (Hminus & Hplus & Hstar & Hslash).
    unfold Lexer.step, Lexer.startsNumber.
    repeat match goal with
           | E : _ = false |- _ => rewrite E
           end.
    by apply case_default_exit.
Qed.

End LexerRuns.

Section LexerInstances.

Lemma word_is_one_token_witness :
  Lexer.step [Lexer.token "let" Lexer.Let]
    ("l" :: ["e"; "t"; "t"; "e"; "r"] ++ ["="; "1"])%char
  = Lexer.Lexed ([Lexer.token "let" Lexer.Let] ++ [Lexer.token "letter" Lexer.Identifier],
                 ["="; "1"]%char).
Proof.
  apply (word_is_one_token [Lexer.token "let" Lexer.Let] "l"
           ["e"; "t"; "t"; "e"; "r"]%char ["="; "1"]%char); reflexivity.
Defined.

Lemma number_is_one_token_witness :
  Lexer.step [] ("1" :: ["2"] ++ "." :: ["5"] ++ ["."; "x"])%char
  = Lexer.Lexed ([] ++ [Lexer.token "12.5" Lexer.Number], ["."; "x"]%char)
  /\ Lexer.step [] ("1" :: ["2"] ++ [" "])%char
     = Lexer.Lexed ([] ++ [Lexer.token "12" Lexer.Number], [" "]%char).
Proof.
  apply (number_is_one_token [] "1" ["2"]%char ["5"]%char ["."; "x"]%char [" "]%char);
    reflexivity.
Defined.



Lemma assignment_operators_repeat_the_target_witness :
  Lexer.step [Lexer.token "x" Lexer.Identifier] ["+"; "="; "2"]%char
  = Lexer.Lexed ([Lexer.token "x" Lexer.Identifier]
                   ++ [Lexer.token "=" Lexer.Equals] ++ [Lexer.token "x" Lexer.Identifier]
                   ++ [Lexer.token "+" Lexer.BinaryOperator], ["2"]%char).
Proof.
  apply (assignment_operators_repeat_the_target
           [Lexer.token "x" Lexer.Identifier] [Lexer.token "x" Lexer.Identifier]
           "+" ["2"]%char); [reflexivity | by left].
Defined.

Lemma assignment_operator_without_target_hangs_witness :
  Lexer.tokenize_loop 5 [] ["*"; "="; "2"]%char = Lexer.Timeout.
Proof.
  apply (assignment_operator_without_target_hangs [] "*" ["2"]%char 5).
  left. split; [reflexivity | right; by left].
Defined.

Lemma tokens_end_with_the_only_EOF_witness :
  exists init,
    [Lexer.token "x" Lexer.Identifier; Lexer.token "EndOfFile" Lexer.EOF]
    = init ++ [Lexer.token "EndOfFile" Lexer.EOF]
    /\ Forall (fun t => Lexer.type t <> Lexer.EOF) init.
Proof.
  apply (tokens_end_with_the_only_EOF "x"). reflexivity.
Defined.

(** X11 at a text with a line end, an unknown escape, an escaped quote
    and a last backslash. *)
Lemma unclosed_string_is_accepted_witness :
  Lexer.tokenize_loop 1 []
    (Lexer.double_quote
       :: ["a"; "010"; "\"; "q"; "\"; Lexer.double_quote; "b"; "\"]%char)
  = Lexer.Lexed
      [{| Lexer.value :=
            String.string_of_list_ascii
              ["a"; "010"; "\"; "q"; Lexer.double_quote; "b"]%char;
          Lexer.type := Lexer.String;
          Lexer.raw :=
            String.string_of_list_ascii
              ["a"; "010"; "\"; "q"; "\"; Lexer.double_quote; "b"]%char |};
       Lexer.token "EndOfFile" Lexer.EOF].
Proof.
  apply (proj2 (unclosed_string_is_accepted []
                  ["a"; "010"; "\"; "q"; "\"; Lexer.double_quote; "b"; "\"]%char
                  eq_refl) 0).
Defined.

End LexerInstances.

(** ** Sequences, literals and equality *)

Section Values.

Variable native_call : nat -> list RuntimeValue -> loc -> M RuntimeValue.

Local Abbreviation eval := (evaluate native_call).

Lemma evalStatements_app (ev : Stmt -> loc -> M RuntimeValue) (xs ys : list Stmt)
  (scope : loc) :
  forall last st,
    evalStatements ev (xs ++ ys) scope last st
    = (v <- evalStatements ev xs scope last ;; evalStatements ev ys scope v) st.
Proof.
  induction xs as [| x xs IH]; intros last st; [reflexivity |].
  cbn [app evalStatements]. unfold bind.
  destruct (ev x scope st); try reflexivity. rewrite IH. reflexivity.
Qed.

(** X18. The statements of a program run in order, and its value is the
    value of the last one: a program without statements gives null; a
    program with one more statement gives what that statement gives in
    the store the others leave; and when one of the others raises or
    exits, the statement is not run and the program ends the same way. *)
Theorem program_value_is_last_statement (n : nat) (body : list Stmt) (stmt : Stmt)
  (env : loc) (st : State) :
  eval (S n) (Program []) env st = Ret MK_NULL st
  /\ eval (S n) (Program (body ++ [stmt])) env st
     = match eval (S n) (Program body) env st with
       | Ret _ st1 => eval n stmt env st1
       | o => o
       end.
Proof.
  split; [reflexivity |].
  cbn [evaluate]. unfold evaluateProgram. rewrite evalStatements_app. unfold bind at 1.
  destruct (evalStatements (eval n) body env MK_NULL st) as [v st1 | | |];
    try reflexivity.
  cbn [evalStatements]. unfold bind, ret. by destruct (eval n stmt env st1).
Qed.

(** A literal evaluates to a container that the store did not have. *)
Lemma array_literal_is_fresh (n : nat) (values : list Stmt) (env : loc) (st st1 : State)
  (v : RuntimeValue) :
  (forall call args env' st', holds_after (grows st') (native_call call args env' st')) ->
  eval n (ArrayLiteral values) env st = Ret v st1 ->
  v = MK_ARRAY (length (arrays st)) /\ length (arrays st) < length (arrays st1).
Proof.
  intros Hnative Hrun. destruct n as [| n]; [discriminate Hrun |].
  cbn [evaluate] in Hrun. unfold evaluateArrayExpression, new_array in Hrun.
  unfold bind at 1 in Hrun.
  set (st_new := set_arrays _ st) in Hrun.
  pose proof (keeps_pushValues (grows st_new)) as Hkept.
  specialize (Hkept ltac:(intros st2 f H Hf; eapply grows_trans; [exact H |];
                          unfold grows, set_arrays; cbn [envs objects arrays];
                          repeat split; lia)).
  specialize (Hkept (eval n)
                (fun node env' => grows_is_kept native_call st_new n node env' Hnative)
                (length (arrays st)) values env st_new (grows_refl st_new)).
  unfold bind, ret in Hrun.
  destruct (pushValues (eval n) (length (arrays st)) values env st_new)
    as [[] st2 | | |]; try discriminate Hrun.
  injection Hrun as <- <-. split; [reflexivity |].
  destruct Hkept as (_ & _ & Hlen). subst st_new. unfold set_arrays in Hlen.
  cbn [arrays] in Hlen. rewrite last_length in Hlen. lia.
Qed.

Lemma object_literal_is_fresh (n : nat) (properties : list (string * option Stmt))
  (env : loc) (st st1 : State) (v : RuntimeValue) :
  (forall call args env' st', holds_after (grows st') (native_call call args env' st')) ->
  eval n (ObjectLiteral properties) env st = Ret v st1 ->
  v = MK_OBJECT (length (objects st)) /\ length (objects st) < length (objects st1).
Proof.
  intros Hnative Hrun. destruct n as [| n]; [discriminate Hrun |].
  cbn [evaluate] in Hrun. unfold evaluateObjectExpression, new_object in Hrun.
  unfold bind at 1 in Hrun.
  set (st_new := set_objects _ st) in Hrun.
  pose proof (keeps_fillProperties (grows st_new)) as Hkept.
  specialize (Hkept ltac:(intros st2 f H Hf; eapply grows_trans; [exact H |];
                          unfold grows, set_objects; cbn [envs objects arrays];
                          repeat split; lia)).
  specialize (Hkept (eval n)
                (fun node env' => grows_is_kept native_call st_new n node env' Hnative)
                (length (objects st)) properties env st_new (grows_refl st_new)).
  unfold bind, ret in Hrun.
  destruct (fillProperties (eval n) (length (objects st)) properties env st_new)
    as [[] st2 | | |]; try discriminate Hrun.
  injection Hrun as <- <-. split; [reflexivity |].
  destruct Hkept as (_ & Hlen & _). subst st_new. unfold set_objects in Hlen.
  cbn [objects] in Hlen. rewrite last_length in Hlen. lia.
Qed.

(** X19. Two literals are never equal: an array literal compared with an
    array literal by [==], and an object literal with an object
    literal, gives false whenever the comparison gives a value, also
    when the two literals are the same text, since each evaluation of
    a literal makes a new container. *)
Theorem literals_are_never_equal (n : nat) (xs ys : list Stmt)
  (ps qs : list (string * option Stmt)) (env : loc) (st st' : State) (v : RuntimeValue) :
  (forall call args env' st', holds_after (grows st') (native_call call args env' st')) ->
  eval n (BinaryExpression (ArrayLiteral xs) (ArrayLiteral ys) "==") env st = Ret v st'
  \/ eval n (BinaryExpression (ObjectLiteral ps) (ObjectLiteral qs) "==") env st
     = Ret v st' ->
  v = MK_BOOL false.
Proof.
  intros Hnative Hrun. destruct n as [| n]; [by destruct Hrun |].
  cbn [evaluate] in Hrun. unfold evaluateBinaryExpression in Hrun. unfold_m.
  destruct Hrun as [Hrun | Hrun].
  - destruct (eval n (ArrayLiteral xs) env st) as [a st1 | | |] eqn:Hxs;
      try discriminate Hrun.
    destruct (eval n (ArrayLiteral ys) env st1) as [b st2 | | |] eqn:Hys;
      try discriminate Hrun.
    destruct (array_literal_is_fresh _ _ _ _ _ _ Hnative Hxs) as [-> Hlt].
    destruct (array_literal_is_fresh _ _ _ _ _ _ Hnative Hys) as [-> _].
    cbn in Hrun. injection Hrun as <- _.
    rewrite (bool_decide_eq_false_2 (length (arrays st) = length (arrays st1))) by lia.
    reflexivity.
  - destruct (eval n (ObjectLiteral ps) env st) as [a st1 | | |] eqn:Hps;
      try discriminate Hrun.
    destruct (eval n (ObjectLiteral qs) env st1) as [b st2 | | |] eqn:Hqs;
      try discriminate Hrun.
    destruct (object_literal_is_fresh _ _ _ _ _ _ Hnative Hps) as [-> Hlt].
    destruct (object_literal_is_fresh _ _ _ _ _ _ Hnative Hqs) as [-> _].
    cbn in Hrun. injection Hrun as <- _.
    rewrite (bool_decide_eq_false_2 (length (objects st) = length (objects st1))) by lia.
    reflexivity.
Qed.

End Values.

Section Equality.

(** X20. [==] never converts: two runtime values of different types are
    not equal. Within a type it compares objects and arrays by
    identity, and functions by the identity of their bodies alone: two
    closures of one declaration are equal, whatever their names,
    parameters and environments. *)
Theorem equality_is_strict_and_by_identity (a b : RuntimeValue) :
  is_runtime_value a -> is_runtime_value b -> tag a <> tag b ->
  equals a b true = Normal (MK_BOOL false)
  /\ (forall l l' : loc,
        equals (MK_OBJECT l) (MK_OBJECT l') true = Normal (MK_BOOL (bool_decide (l = l')))
        /\ equals (MK_ARRAY l) (MK_ARRAY l') true
           = Normal (MK_BOOL (bool_decide (l = l'))))
  /\ (forall name name' params params' env env' body body' (r r' : nat),
        equals (MK_FN name params env body r) (MK_FN name' params' env' body' r') true
        = Normal (MK_BOOL (bool_decide (r = r')))).
Proof.
  intros Ha Hb Htag. repeat apply conj.
  - destruct a; destruct Ha as [ta Ha]; try discriminate Ha;
      destruct b; destruct Hb as [tb Hb]; try discriminate Hb;
      first [reflexivity | by destruct Htag].
  - intros l l'. split; reflexivity.
  - reflexivity.
Qed.

End Equality.

Section ValueInstances.

Lemma literals_are_never_equal_witness :
  result_of (run same_literal_twice) = Some (MK_BOOL false).
Proof.
  destruct (run same_literal_twice) as [v st' | | |] eqn:Hrun;
    [| vm_compute in Hrun; discriminate Hrun ..].
  rewrite (literals_are_never_equal no_natives 20 [NumericLiteral 1] [NumericLiteral 1]
             [] [] 0 initial st' v).
  - reflexivity.
  - intros call args env' st1. apply grows_refl.
  - left. exact Hrun.
Defined.

Lemma equality_is_strict_and_by_identity_witness :
  equals (MK_NUMBER 1) (MK_STRING "1") true = Normal (MK_BOOL false).
Proof.
  apply (equality_is_strict_and_by_identity (MK_NUMBER 1) (MK_STRING "1"));
    [by eexists | by eexists | discriminate].
Defined.

End ValueInstances.

(** ** The parser *)

Section NewLines.

Import Parser.

Lemma skipNewLines_strip (ts : list Lexer.Token) :
  match skipNewLines ts with
  | [] => strip ts = []
  | t :: rest =>
    is_type t Lexer.NewLine = false /\ strip ts = t :: strip rest
  end.
Proof.
  induction ts as [| t ts IH]; [reflexivity |].
  cbn [skipNewLines]. destruct (is_type t Lexer.NewLine) eqn:Ht.
  - destruct (skipNewLines ts) as [| t' rest]; cbn [strip List.filter]; rewrite Ht;
      exact IH.
  - split; [exact Ht |]. cbn [strip List.filter]. by rewrite Ht.
Qed.

Lemma blind_ret {A : Type} (a : A) : blind (ret a).
Proof. intros s1 s2 H. by split. Qed.

Lemma blind_throw {A : Type} (why : Thrown) : blind (@throw A why).
Proof. by intros s1 s2 H. Qed.

Lemma blind_exit {A : Type} : blind (@exit A).
Proof. by intros s1 s2 H. Qed.

Lemma blind_timeout {A : Type} : blind (@timeout A).
Proof. by intros s1 s2 H. Qed.

Lemma blind_bind {A B : Type} (c : P A) (k : A -> P B) :
  blind c -> (forall a, blind (k a)) -> blind (bind c k).
Proof.
  intros Hc Hk s1 s2 H. unfold bind. specialize (Hc s1 s2 H).
  destruct (c s1), (c s2); cbn in Hc; try done.
  destruct Hc as [-> Hc]. by apply Hk.
Qed.

Lemma blind_at : blind at_.
Proof.
  intros s1 s2 [Hts Href]. unfold at_.
  pose proof (skipNewLines_strip (tokens s1)) as H1.
  pose proof (skipNewLines_strip (tokens s2)) as H2.
  destruct (skipNewLines (tokens s1)) as [| t1 r1], (skipNewLines (tokens s2)) as [| t2 r2];
    cbn; try done.
  - destruct H2 as [_ H2]. congruence.
  - destruct H1 as [_ H1]. congruence.
  - destruct H1 as [Ht1 H1], H2 as [Ht2 H2].
    assert (Heq : t1 :: strip r1 = t2 :: strip r2) by congruence.
    injection Heq as -> Hrest. split; [reflexivity |]. split; [| exact Href].
    cbn [tokens strip List.filter]. rewrite Ht2. cbn [negb]. by f_equal.
Qed.

Lemma blind_eat : blind eat.
Proof.
  intros s1 s2 [Hts Href]. unfold eat.
  pose proof (skipNewLines_strip (tokens s1)) as H1.
  pose proof (skipNewLines_strip (tokens s2)) as H2.
  destruct (skipNewLines (tokens s1)) as [| t1 r1], (skipNewLines (tokens s2)) as [| t2 r2];
    cbn; try done.
  - destruct H2 as [_ H2]. congruence.
  - destruct H1 as [_ H1]. congruence.
  - destruct H1 as [Ht1 H1], H2 as [Ht2 H2].
    assert (Heq : t1 :: strip r1 = t2 :: strip r2) by congruence.
    injection Heq as -> Hrest. by repeat split.
Qed.

Lemma blind_fresh : blind fresh.
Proof.
  intros s1 s2 [Hts Href]. unfold fresh. cbn. rewrite Href. by repeat split.
Qed.

Ltac blind_step :=
  first
    [ apply blind_ret | apply blind_throw | apply blind_exit | apply blind_timeout
    | apply blind_at | apply blind_eat | apply blind_fresh
    | assumption
    | apply blind_bind; [| intros ?]
    | progress cbv beta zeta
    | case_match ].

Ltac blind := repeat blind_step.

Lemma blind_notEOF : blind notEOF.
Proof. unfold notEOF. blind. Qed.

Lemma blind_expect (type : Lexer.TokenType) : blind (expect type).
Proof. unfold expect. blind. Qed.

Section Step.

Variable parseFloat : string -> float.
Variable pe pa ps : P Stmt.
Hypothesis blind_pe : blind pe.
Hypothesis blind_pa : blind pa.
Hypothesis blind_ps : blind ps.

Ltac blind' := first [ apply blind_notEOF | apply blind_expect | blind_step ].

Lemma blind_parsePrimaryExpression : blind (parsePrimaryExpression parseFloat pe).
Proof. unfold parsePrimaryExpression. repeat blind'. Qed.

Lemma blind_memberLoop (fuel : nat) :
  forall object, blind (memberLoop parseFloat pe fuel object).
Proof.
  induction fuel as [| fuel IH]; intros object; cbn [memberLoop];
    repeat first [ apply IH | apply blind_parsePrimaryExpression | blind' ].
Qed.

Lemma blind_parseMemberExpression (fuel : nat) :
  blind (parseMemberExpression parseFloat pe fuel).
Proof.
  unfold parseMemberExpression.
  repeat first [ apply blind_memberLoop | apply blind_parsePrimaryExpression | blind' ].
Qed.

Lemma blind_argumentsLoop (fuel : nat) :
  forall args, blind (argumentsLoop pa fuel args).
Proof.
  induction fuel as [| fuel IH]; intros args; cbn [argumentsLoop];
    repeat first [ apply IH | blind' ].
Qed.

Lemma blind_parseArguments (fuel : nat) : blind (parseArguments pe pa fuel).
Proof.
  unfold parseArguments, parseArgumentsList.
  repeat first [ apply blind_argumentsLoop | blind' ].
Qed.

Lemma blind_parseCallExpression (fuel : nat) :
  forall caller, blind (parseCallExpression pe pa fuel caller).
Proof.
  induction fuel as [| fuel IH]; intros caller; cbn [parseCallExpression];
    repeat first [ apply IH | apply blind_parseArguments | blind' ].
Qed.

Lemma blind_parseCallMemberExpression (fuel : nat) :
  blind (parseCallMemberExpression parseFloat pe pa fuel).
Proof.
  unfold parseCallMemberExpression.
  repeat first [ apply blind_parseCallExpression | apply blind_parseMemberExpression
               | blind' ].
Qed.

Lemma blind_binaryLoop (operators : list string) (operand : P Stmt) (fuel : nat) :
  blind operand ->
  forall left, blind (binaryLoop operators operand fuel left).
Proof.
  intros Hoperand.
  induction fuel as [| fuel IH]; intros left; cbn [binaryLoop];
    repeat first [ apply IH | blind' ].
Qed.

Lemma blind_parseMultiplicativeExpression (fuel : nat) :
  blind (parseMultiplicativeExpression parseFloat pe pa fuel).
Proof.
  unfold parseMultiplicativeExpression.
  repeat first [ apply blind_binaryLoop | apply blind_parseCallMemberExpression | blind' ].
Qed.

Lemma blind_parseAdditiveExpression (fuel : nat) :
  blind (parseAdditiveExpression parseFloat pe pa fuel).
Proof.
  unfold parseAdditiveExpression.
  repeat first [ apply blind_binaryLoop | apply blind_parseMultiplicativeExpression
               | blind' ].
Qed.

Lemma blind_andLoop (fuel : nat) : forall left, blind (andLoop pe fuel left).
Proof.
  induction fuel as [| fuel IH]; intros left; cbn [andLoop];
    repeat first [ apply IH | blind' ].
Qed.

Lemma blind_parseAndStatement (fuel : nat) :
  blind (parseAndStatement parseFloat pe pa fuel).
Proof.
  unfold parseAndStatement.
  repeat first [ apply blind_andLoop | apply blind_parseAdditiveExpression | blind' ].
Qed.

Lemma blind_blockLoop (fuel : nat) : forall body, blind (blockLoop ps fuel body).
Proof.
  induction fuel as [| fuel IH]; intros body; cbn [blockLoop];
    repeat first [ apply IH | blind' ].
Qed.

Lemma blind_parseBlockStatement (fuel : nat) : blind (parseBlockStatement ps fuel).
Proof.
  unfold parseBlockStatement. repeat first [ apply blind_blockLoop | blind' ].
Qed.

Lemma blind_parseTryCatchExpression (fuel : nat) :
  blind (parseTryCatchExpression parseFloat pe pa ps fuel).
Proof.
  unfold parseTryCatchExpression.
  repeat first [ apply blind_parseBlockStatement | apply blind_parseAndStatement
               | blind' ].
Qed.

Lemma blind_arrayLoop (fuel : nat) : forall values, blind (arrayLoop pe fuel values).
Proof.
  induction fuel as [| fuel IH]; intros values; cbn [arrayLoop];
    repeat first [ apply IH | blind' ].
Qed.

Lemma blind_parseArrayExpression (fuel : nat) :
  blind (parseArrayExpression parseFloat pe pa ps fuel).
Proof.
  unfold parseArrayExpression.
  repeat first [ apply blind_arrayLoop | apply blind_parseTryCatchExpression | blind' ].
Qed.

Lemma blind_objectLoop (fuel : nat) :
  forall properties, blind (objectLoop pe fuel properties).
Proof.
  induction fuel as [| fuel IH]; intros properties; cbn [objectLoop];
    repeat first [ apply IH | blind' ].
Qed.

Lemma blind_parseObjectExpression (fuel : nat) :
  blind (parseObjectExpression parseFloat pe pa ps fuel).
Proof.
  unfold parseObjectExpression.
  repeat first [ apply blind_objectLoop | apply blind_parseArrayExpression | blind' ].
Qed.

Lemma blind_parseAssignmentExpression_body (fuel : nat) :
  blind (parseAssignmentExpression_body parseFloat pe pa ps fuel).
Proof.
  unfold parseAssignmentExpression_body.
  repeat first [ apply blind_parseObjectExpression | blind' ].
Qed.

Lemma blind_parseExpression_body : blind (parseExpression_body pe pa).
Proof. unfold parseExpression_body. repeat blind'. Qed.

Lemma blind_parseVariableDeclaration : blind (parseVariableDeclaration pe).
Proof. unfold parseVariableDeclaration. repeat blind'. Qed.

Lemma blind_parseFunctionDeclaration (fuel : nat) :
  blind (parseFunctionDeclaration pe pa ps fuel).
Proof.
  unfold parseFunctionDeclaration.
  repeat first [ apply blind_parseArguments | apply blind_parseBlockStatement | blind' ].
Qed.

Lemma blind_parseIfStatement (fuel : nat) : blind (parseIfStatement pe ps fuel).
Proof.
  induction fuel as [| fuel IH]; cbn [parseIfStatement];
    repeat first [ apply IH | apply blind_parseBlockStatement | blind' ].
Qed.

Lemma blind_parseForStatement (fuel : nat) : blind (parseForStatement pe ps fuel).
Proof.
  unfold parseForStatement.
  repeat first [ apply blind_parseVariableDeclaration | apply blind_parseBlockStatement
               | blind' ].
Qed.

Lemma blind_parseStatement_body (fuel : nat) :
  blind (parseStatement_body pe pa ps fuel).
Proof.
  unfold parseStatement_body.
  repeat first [ apply blind_parseVariableDeclaration | apply blind_parseFunctionDeclaration
               | apply blind_parseIfStatement | apply blind_parseForStatement
               | blind' ].
Qed.

End Step.

Lemma blind_parse (parseFloat : string -> float) (fuel : nat) :
  blind (parseExpression parseFloat fuel)
  /\ blind (parseAssignmentExpression parseFloat fuel)
  /\ blind (parseStatement parseFloat fuel).
Proof.
  induction fuel as [| fuel (IHe & IHa & IHs)];
    [repeat split; apply blind_timeout |].
  repeat split; cbn [parseExpression parseAssignmentExpression parseStatement].
  - apply blind_parseExpression_body; intros s1 s2 H; by auto.
  - apply blind_parseAssignmentExpression_body; intros s1 s2 H; by auto.
  - apply blind_parseStatement_body; intros s1 s2 H; by auto.
Qed.

Lemma blind_programLoop (parseFloat : string -> float) (fuel : nat) :
  forall body, blind (programLoop parseFloat fuel body).
Proof.
  induction fuel as [| fuel IH]; intros body; cbn [programLoop];
    repeat first [ apply IH | apply blind_notEOF | apply (blind_parse parseFloat (S fuel))
                 | blind_step ].
Qed.

Lemma strip_strip (ts : list Lexer.Token) : strip (strip ts) = strip ts.
Proof.
  induction ts as [| t ts IH]; [reflexivity |].
  cbn [strip List.filter]. destruct (is_type t Lexer.NewLine) eqn:Ht; cbn [negb].
  - exact IH.
  - cbn [List.filter]. rewrite Ht. cbn [negb]. by f_equal.
Qed.

(** X21. New lines mean nothing to the parser: the tokens of a text and
    the same tokens without the new-line tokens give the same tree, or
    fail the same way, wherever the new lines are. *)
Theorem new_lines_do_not_matter (parseFloat : string -> float) (fuel : nat)
  (ts : list Lexer.Token) (next : nat) :
  alike (program parseFloat fuel {| tokens := ts; next_ref := next |})
    (program parseFloat fuel {| tokens := strip ts; next_ref := next |})
  /\ tree_of (program parseFloat fuel {| tokens := ts; next_ref := next |})
     = tree_of (program parseFloat fuel {| tokens := strip ts; next_ref := next |}).
Proof.
  assert (H : alike (program parseFloat fuel {| tokens := ts; next_ref := next |})
                (program parseFloat fuel {| tokens := strip ts; next_ref := next |})).
  { unfold program. apply blind_bind; [apply blind_programLoop | intros; apply blind_ret |].
    split; [| reflexivity]. cbn [tokens]. by rewrite strip_strip. }
  split; [exact H |].
  destruct (program parseFloat fuel {| tokens := ts; next_ref := next |}),
    (program parseFloat fuel {| tokens := strip ts; next_ref := next |});
    cbn in H |- *; try done. by destruct H as [-> _].
Qed.

End NewLines.

(** ** The parser ends

    Every call that returns has read a token, so the loops of the parser
    end, and fuel in proportion to the number of tokens is enough. *)

Section Ends.

Import Parser.

Lemma returns_ret {A : Type} (a : A) (st : State) (Q : A -> State -> Prop) :
  Q a st -> returns (ret a) st Q.
Proof. done. Qed.

Lemma returns_throw {A : Type} (why : Thrown) (st : State) (Q : A -> State -> Prop) :
  returns (throw why) st Q.
Proof. done. Qed.

Lemma returns_exit {A : Type} (st : State) (Q : A -> State -> Prop) : returns exit st Q.
Proof. done. Qed.

Lemma returns_bind {A B : Type} (c : P A) (k : A -> P B) (st : State)
  (Q : B -> State -> Prop) :
  returns c st (fun a st' => returns (k a) st' Q) -> returns (bind c k) st Q.
Proof. unfold returns, bind. by destruct (c st). Qed.

Lemma returns_mono {A : Type} (c : P A) (st : State) (Q Q' : A -> State -> Prop) :
  returns c st Q -> (forall a st', Q a st' -> Q' a st') -> returns c st Q'.
Proof. unfold returns. destruct (c st); auto. Qed.

Lemma skipNewLines_length (ts : list Lexer.Token) :
  length (skipNewLines ts) <= length ts.
Proof.
  induction ts as [| t ts IH]; [done |]. cbn [skipNewLines].
  destruct (is_type t Lexer.NewLine); cbn [length]; lia.
Qed.

Lemma skipNewLines_head (ts : list Lexer.Token) (t : Lexer.Token) (rest : list Lexer.Token) :
  skipNewLines ts = t :: rest -> is_type t Lexer.NewLine = false.
Proof.
  induction ts as [| t' ts IH]; [done |]. cbn [skipNewLines].
  destruct (is_type t' Lexer.NewLine) eqn:Ht; [exact IH |]. by intros [= <- _].
Qed.

Lemma returns_at (st : State) :
  returns at_ st (fun t st' =>
                    left_to_read st' <= left_to_read st /\ 1 <= left_to_read st'
                    /\ is_type t Lexer.NewLine = false).
Proof.
  unfold returns, at_, left_to_read.
  pose proof (skipNewLines_length (tokens st)) as Hlen.
  destruct (skipNewLines (tokens st)) as [| t rest] eqn:Hts; [done |].
  cbn [tokens length] in *. repeat split; try lia. by eapply skipNewLines_head.
Qed.

Lemma returns_eat (st : State) :
  returns eat st (fun _ st' => S (left_to_read st') <= left_to_read st).
Proof.
  unfold returns, eat, left_to_read.
  pose proof (skipNewLines_length (tokens st)) as Hlen.
  destruct (skipNewLines (tokens st)) as [| t rest] eqn:Hts; [done |].
  cbn [tokens length] in *. lia.
Qed.

Lemma returns_fresh (st : State) :
  returns fresh st (fun _ st' => left_to_read st' = left_to_read st).
Proof. done. Qed.

Lemma returns_notEOF (st : State) :
  returns notEOF st (fun _ st' =>
                       left_to_read st' <= left_to_read st /\ 1 <= left_to_read st').
Proof.
  unfold notEOF. apply returns_bind. eapply returns_mono; [apply returns_at |].
  cbv beta. intros t st' H. apply returns_ret. lia.
Qed.

Lemma returns_expect (type : Lexer.TokenType) (st : State) :
  returns (expect type) st (fun _ st' => S (left_to_read st') <= left_to_read st).
Proof.
  unfold expect. apply returns_bind. eapply returns_mono; [apply returns_eat |].
  cbv beta. intros t st' H. case_match; [by apply returns_ret | apply returns_exit].
Qed.

(** One step of a proof that a computation returns: [known] solves the
    computations that have a lemma. *)
Ltac returns_step known :=
  lazymatch goal with
  | |- returns (ret _) _ _ => apply returns_ret
  | |- returns (throw _) _ _ => apply returns_throw
  | |- returns exit _ _ => apply returns_exit
  | |- returns (bind _ _) _ _ => apply returns_bind
  | |- returns (if _ then _ else _) _ _ => case_match
  | |- returns (match _ with _ => _ end) _ _ => case_match
  | |- returns _ _ _ =>
    eapply returns_mono;
    [ first [ apply returns_at | apply returns_eat | apply returns_fresh
            | apply returns_notEOF | apply returns_expect | known ]
    | cbv beta; intros ? ? ? ]
  | |- _ => first [ progress cbv beta zeta | lia ]
  end.

Section Step.

Variable parseFloat : string -> float.
Variable pe pa ps : P Stmt.

(** The fuel of the three calls. *)
Variable n : nat.

Hypothesis returns_pe : forall st,
  2 * left_to_read st + 4 <= n ->
  returns pe st (fun _ st' => S (left_to_read st') <= left_to_read st).

Hypothesis returns_pa : forall st,
  2 * left_to_read st + 3 <= n ->
  returns pa st (fun _ st' => S (left_to_read st') <= left_to_read st).

Hypothesis returns_ps : forall st,
  2 * left_to_read st + 5 <= n ->
  returns ps st (fun _ st' => S (left_to_read st') <= left_to_read st).

Ltac calls := first [ apply returns_pe; lia | apply returns_pa; lia | apply returns_ps; lia ].

Lemma returns_parsePrimaryExpression (st : State) :
  2 * left_to_read st + 2 <= n ->
  returns (parsePrimaryExpression parseFloat pe) st
    (fun _ st' => S (left_to_read st') <= left_to_read st).
Proof.
  intros Hn. unfold parsePrimaryExpression. repeat returns_step calls.
Qed.

Lemma returns_memberLoop (fuel : nat) :
  forall object st,
    2 * left_to_read st + 2 <= n -> left_to_read st < fuel ->
    returns (memberLoop parseFloat pe fuel object) st
      (fun _ st' => left_to_read st' <= left_to_read st).
Proof.
  induction fuel as [| fuel IH]; intros object st Hn Hfuel; [lia |].
  cbn [memberLoop].
  repeat returns_step
    ltac:(first [ apply IH; lia | apply returns_parsePrimaryExpression; lia | calls ]).
Qed.

Lemma returns_parseMemberExpression (fuel : nat) (st : State) :
  2 * left_to_read st + 2 <= n -> left_to_read st < fuel ->
  returns (parseMemberExpression parseFloat pe fuel) st
    (fun _ st' => S (left_to_read st') <= left_to_read st).
Proof.
  intros Hn Hfuel. unfold parseMemberExpression.
  repeat returns_step
    ltac:(first [ apply returns_memberLoop; lia | apply returns_parsePrimaryExpression; lia ]).
Qed.

Lemma returns_argumentsLoop (fuel : nat) :
  forall args st,
    2 * left_to_read st + 2 <= n -> left_to_read st < fuel ->
    returns (argumentsLoop pa fuel args) st
      (fun _ st' => left_to_read st' <= left_to_read st).
Proof.
  induction fuel as [| fuel IH]; intros args st Hn Hfuel; [lia |].
  cbn [argumentsLoop].
  repeat returns_step ltac:(first [ apply IH; lia | calls ]).
Qed.

Lemma returns_parseArguments (fuel : nat) (st : State) :
  2 * left_to_read st + 2 <= n -> left_to_read st < fuel ->
  returns (parseArguments pe pa fuel) st
    (fun _ st' => S (left_to_read st') <= left_to_read st).
Proof.
  intros Hn Hfuel. unfold parseArguments, parseArgumentsList.
  repeat returns_step ltac:(first [ apply returns_argumentsLoop; lia | calls ]).
Qed.

Lemma returns_parseCallExpression (fuel : nat) :
  forall caller st,
    2 * left_to_read st + 2 <= n -> left_to_read st + 2 <= fuel ->
    returns (parseCallExpression pe pa fuel caller) st
      (fun _ st' => S (left_to_read st') <= left_to_read st).
Proof.
  induction fuel as [| fuel IH]; intros caller st Hn Hfuel; [lia |].
  cbn [parseCallExpression].
  repeat returns_step ltac:(first [ apply IH; lia | apply returns_parseArguments; lia ]).
Qed.

Lemma returns_parseCallMemberExpression (fuel : nat) (st : State) :
  2 * left_to_read st + 2 <= n -> left_to_read st + 2 <= fuel ->
  returns (parseCallMemberExpression parseFloat pe pa fuel) st
    (fun _ st' => S (left_to_read st') <= left_to_read st).
Proof.
  intros Hn Hfuel. unfold parseCallMemberExpression.
  repeat returns_step
    ltac:(first [ apply returns_parseCallExpression; lia
                | apply returns_parseMemberExpression; lia ]).
Qed.

Lemma returns_binaryLoop (operators : list string) (operand : P Stmt) (bound fuel : nat) :
  (forall st,
      2 * left_to_read st + 2 <= n -> left_to_read st + 2 <= bound ->
      returns operand st (fun _ st' => S (left_to_read st') <= left_to_read st)) ->
  forall left st,
    2 * left_to_read st + 2 <= n -> left_to_read st + 2 <= bound ->
    left_to_read st < fuel ->
    returns (binaryLoop operators operand fuel left) st
      (fun _ st' => left_to_read st' <= left_to_read st).
Proof.
  intros Hoperand.
  induction fuel as [| fuel IH]; intros left st Hn Hbound Hfuel; [lia |].
  cbn [binaryLoop].
  repeat returns_step ltac:(first [ apply IH; lia | apply Hoperand; lia ]).
Qed.

Lemma returns_parseMultiplicativeExpression (fuel : nat) (st : State) :
  2 * left_to_read st + 2 <= n -> left_to_read st + 2 <= fuel ->
  returns (parseMultiplicativeExpression parseFloat pe pa fuel) st
    (fun _ st' => S (left_to_read st') <= left_to_read st).
Proof.
  intros Hn Hfuel. unfold parseMultiplicativeExpression.
  repeat returns_step
    ltac:(first [ apply (returns_binaryLoop _ _ fuel);
                  [intros; apply returns_parseCallMemberExpression; lia | lia ..]
                | apply returns_parseCallMemberExpression; lia ]).
Qed.

Lemma returns_parseAdditiveExpression (fuel : nat) (st : State) :
  2 * left_to_read st + 2 <= n -> left_to_read st + 2 <= fuel ->
  returns (parseAdditiveExpression parseFloat pe pa fuel) st
    (fun _ st' => S (left_to_read st') <= left_to_read st).
Proof.
  intros Hn Hfuel. unfold parseAdditiveExpression.
  repeat returns_step
    ltac:(first [ apply (returns_binaryLoop _ _ fuel);
                  [intros; apply returns_parseMultiplicativeExpression; lia | lia ..]
                | apply returns_parseMultiplicativeExpression; lia ]).
Qed.

Lemma returns_andLoop (fuel : nat) :
  forall left st,
    2 * left_to_read st + 2 <= n -> left_to_read st < fuel ->
    returns (andLoop pe fuel left) st
      (fun _ st' => left_to_read st' <= left_to_read st).
Proof.
  induction fuel as [| fuel IH]; intros left st Hn Hfuel; [lia |].
  cbn [andLoop].
  repeat returns_step ltac:(first [ apply IH; lia | calls ]).
Qed.

Lemma returns_parseAndStatement (fuel : nat) (st : State) :
  2 * left_to_read st + 2 <= n -> left_to_read st + 2 <= fuel ->
  returns (parseAndStatement parseFloat pe pa fuel) st
    (fun _ st' => S (left_to_read st') <= left_to_read st).
Proof.
  intros Hn Hfuel. unfold parseAndStatement.
  repeat returns_step
    ltac:(first [ apply returns_andLoop; lia | apply returns_parseAdditiveExpression; lia ]).
Qed.

Lemma returns_blockLoop (fuel : nat) :
  forall body st,
    2 * left_to_read st + 5 <= n -> left_to_read st < fuel ->
    returns (blockLoop ps fuel body) st
      (fun _ st' => left_to_read st' <= left_to_read st).
Proof.
  induction fuel as [| fuel IH]; intros body st Hn Hfuel; [lia |].
  cbn [blockLoop].
  repeat returns_step ltac:(first [ apply IH; lia | calls ]).
Qed.

Lemma returns_parseBlockStatement (fuel : nat) (st : State) :
  2 * left_to_read st + 3 <= n -> left_to_read st <= fuel ->
  returns (parseBlockStatement ps fuel) st
    (fun _ st' => S (left_to_read st') <= left_to_read st).
Proof.
  intros Hn Hfuel. unfold parseBlockStatement.
  repeat returns_step ltac:(apply returns_blockLoop; lia).
Qed.

Lemma returns_parseTryCatchExpression (fuel : nat) (st : State) :
  2 * left_to_read st + 2 <= n -> left_to_read st + 2 <= fuel ->
  returns (parseTryCatchExpression parseFloat pe pa ps fuel) st
    (fun _ st' => S (left_to_read st') <= left_to_read st).
Proof.
  intros Hn Hfuel. unfold parseTryCatchExpression.
  repeat returns_step
    ltac:(first [ apply returns_parseBlockStatement; lia
                | apply returns_parseAndStatement; lia ]).
Qed.

Lemma returns_arrayLoop (fuel : nat) :
  forall values st,
    2 * left_to_read st + 4 <= n -> left_to_read st < fuel ->
    returns (arrayLoop pe fuel values) st
      (fun _ st' => left_to_read st' <= left_to_read st).
Proof.
  induction fuel as [| fuel IH]; intros values st Hn Hfuel; [lia |].
  cbn [arrayLoop].
  repeat returns_step ltac:(first [ apply IH; lia | calls ]).
Qed.

Lemma returns_parseArrayExpression (fuel : nat) (st : State) :
  2 * left_to_read st + 2 <= n -> left_to_read st + 2 <= fuel ->
  returns (parseArrayExpression parseFloat pe pa ps fuel) st
    (fun _ st' => S (left_to_read st') <= left_to_read st).
Proof.
  intros Hn Hfuel. unfold parseArrayExpression.
  repeat returns_step
    ltac:(first [ apply returns_arrayLoop; lia
                | apply returns_parseTryCatchExpression; lia ]).
Qed.

Lemma returns_objectLoop (fuel : nat) :
  forall properties st,
    2 * left_to_read st + 2 <= n -> left_to_read st < fuel ->
    returns (objectLoop pe fuel properties) st
      (fun _ st' => left_to_read st' <= left_to_read st).
Proof.
  induction fuel as [| fuel IH]; intros properties st Hn Hfuel; [lia |].
  cbn [objectLoop].
  repeat returns_step ltac:(first [ apply IH; lia | calls ]).
Qed.

Lemma returns_parseObjectExpression (fuel : nat) (st : State) :
  2 * left_to_read st + 2 <= n -> left_to_read st + 2 <= fuel ->
  returns (parseObjectExpression parseFloat pe pa ps fuel) st
    (fun _ st' => S (left_to_read st') <= left_to_read st).
Proof.
  intros Hn Hfuel. unfold parseObjectExpression.
  repeat returns_step
    ltac:(first [ apply returns_objectLoop; lia
                | apply returns_parseArrayExpression; lia ]).
Qed.

Lemma returns_parseAssignmentExpression_body (fuel : nat) (st : State) :
  2 * left_to_read st + 2 <= n -> left_to_read st + 2 <= fuel ->
  returns (parseAssignmentExpression_body parseFloat pe pa ps fuel) st
    (fun _ st' => S (left_to_read st') <= left_to_read st).
Proof.
  intros Hn Hfuel. unfold parseAssignmentExpression_body.
  repeat returns_step
    ltac:(first [ apply returns_parseObjectExpression; lia | calls ]).
Qed.

Lemma returns_parseExpression_body (st : State) :
  2 * left_to_read st + 3 <= n ->
  returns (parseExpression_body pe pa) st
    (fun _ st' => S (left_to_read st') <= left_to_read st).
Proof.
  intros Hn. unfold parseExpression_body. repeat returns_step calls.
Qed.

Lemma returns_parseVariableDeclaration (st : State) :
  2 * left_to_read st + 2 <= n ->
  returns (parseVariableDeclaration pe) st
    (fun _ st' => S (left_to_read st') <= left_to_read st).
Proof.
  intros Hn. unfold parseVariableDeclaration. repeat returns_step calls.
Qed.

Lemma returns_parseFunctionDeclaration (fuel : nat) (st : State) :
  2 * left_to_read st + 2 <= n -> left_to_read st <= fuel ->
  returns (parseFunctionDeclaration pe pa ps fuel) st
    (fun _ st' => S (left_to_read st') <= left_to_read st).
Proof.
  intros Hn Hfuel. unfold parseFunctionDeclaration.
  repeat returns_step
    ltac:(first [ apply returns_parseArguments; lia
                | apply returns_parseBlockStatement; lia ]).
Qed.

Lemma returns_parseIfStatement (fuel : nat) :
  forall st,
    2 * left_to_read st + 2 <= n -> left_to_read st < fuel ->
    returns (parseIfStatement pe ps fuel) st
      (fun _ st' => S (left_to_read st') <= left_to_read st).
Proof.
  induction fuel as [| fuel IH]; intros st Hn Hfuel; [lia |].
  cbn [parseIfStatement].
  repeat returns_step
    ltac:(first [ apply IH; lia | apply returns_parseBlockStatement; lia | calls ]).
Qed.

Lemma returns_parseForStatement (fuel : nat) (st : State) :
  2 * left_to_read st + 2 <= n -> left_to_read st <= fuel ->
  returns (parseForStatement pe ps fuel) st
    (fun _ st' => S (left_to_read st') <= left_to_read st).
Proof.
  intros Hn Hfuel. unfold parseForStatement.
  repeat returns_step
    ltac:(first [ apply returns_parseVariableDeclaration; lia
                | apply returns_parseBlockStatement; lia | calls ]).
Qed.

Lemma returns_parseStatement_body (fuel : nat) (st : State) :
  2 * left_to_read st + 4 <= n -> left_to_read st < fuel ->
  returns (parseStatement_body pe pa ps fuel) st
    (fun _ st' => S (left_to_read st') <= left_to_read st).
Proof.
  intros Hn Hfuel. unfold parseStatement_body.
  apply returns_bind. eapply returns_mono; [apply returns_at |].
  cbv beta. intros t st1 (Hle & Hge & Ht).
  destruct (Lexer.type t) eqn:Htype;
    try (unfold is_type in Ht; rewrite Htype in Ht; discriminate Ht);
    repeat returns_step
      ltac:(first [ apply returns_parseVariableDeclaration; lia
                  | apply returns_parseFunctionDeclaration; lia
                  | apply returns_parseIfStatement; lia
                  | apply returns_parseForStatement; lia
                  | calls ]).
Qed.

End Step.

Lemma returns_parse (parseFloat : string -> float) (n : nat) :
  (forall st,
      2 * left_to_read st + 4 <= n ->
      returns (parseExpression parseFloat n) st
        (fun _ st' => S (left_to_read st') <= left_to_read st))
  /\ (forall st,
        2 * left_to_read st + 3 <= n ->
        returns (parseAssignmentExpression parseFloat n) st
          (fun _ st' => S (left_to_read st') <= left_to_read st))
  /\ (forall st,
        2 * left_to_read st + 5 <= n ->
        returns (parseStatement parseFloat n) st
          (fun _ st' => S (left_to_read st') <= left_to_read st)).
Proof.
  induction n as [| n (IHe & IHa & IHs)]; [repeat split; intros; lia |].
  repeat split; intros st Hn;
    cbn [parseExpression parseAssignmentExpression parseStatement].
  - apply (returns_parseExpression_body _ _ n); [exact IHe | exact IHa | lia].
  - apply (returns_parseAssignmentExpression_body _ _ _ _ n);
      [exact IHe | exact IHa | exact IHs | lia | lia].
  - apply (returns_parseStatement_body _ _ _ n);
      [exact IHe | exact IHa | exact IHs | lia | lia].
Qed.

Lemma returns_programLoop (parseFloat : string -> float) (fuel : nat) :
  forall body st,
    2 * left_to_read st + 5 <= fuel ->
    returns (programLoop parseFloat fuel body) st
      (fun _ st' => left_to_read st' <= left_to_read st).
Proof.
  induction fuel as [| fuel IH]; intros body st Hfuel; [lia |].
  cbn [programLoop].
  repeat returns_step
    ltac:(first [ apply IH; lia | apply (returns_parse parseFloat (S fuel)); lia ]).
Qed.

(** X22. The parser ends on every list of tokens: with fuel for twice
    the number of tokens and five more, the loops of [produceAST] and of
    the functions it calls do not run out, whatever the tokens are; so
    parsing returns a tree, throws, exits or fails in the host, and
    every statement it returns has read at least one token. *)
Theorem parser_ends (parseFloat : string -> float) (fuel : nat)
  (ts : list Lexer.Token) (next : nat) :
  2 * length ts + 5 <= fuel ->
  program parseFloat fuel {| tokens := ts; next_ref := next |} <> Timeout
  /\ forall st,
       left_to_read st <= length ts ->
       returns (parseStatement parseFloat fuel) st
         (fun _ st' => S (left_to_read st') <= left_to_read st).
Proof.
  intros Hfuel. split.
  - pose proof (returns_programLoop parseFloat fuel [] {| tokens := ts; next_ref := next |}
                  Hfuel) as H.
    unfold program, bind, returns in *.
    by destruct (programLoop parseFloat fuel [] {| tokens := ts; next_ref := next |}).
  - intros st Hst. apply (returns_parse parseFloat fuel). lia.
Qed.

End Ends.

Section Shapes.

Import Parser.

Variable parseFloat : string -> float.

(** X23. A statement starts with [let], [const], [fn], [if], [for], a
    name, a number, a string or an opening parenthesis, brace or
    bracket: at any other token, and so at a semicolon that follows an
    expression, at a closing bracket, at an operator and at the end of
    the tokens, the parser exits the process. *)
Theorem statement_starts_or_exit (fuel : nat) (t : Lexer.Token) (rest : list Lexer.Token)
  (next : nat) :
  starts_statement (Lexer.type t) = false ->
  Lexer.type t <> Lexer.NewLine ->
  parseStatement parseFloat (S (S (S fuel))) {| tokens := t :: rest; next_ref := next |}
  = Exited.
Proof.
  intros Hstart Hline. destruct t as [v type r]. cbn [Lexer.type] in *.
  destruct type; try discriminate Hstart; try (by destruct Hline); reflexivity.
Qed.

Lemma at_here (t : Lexer.Token) (rest : list Lexer.Token) (next : nat) :
  is_type t Lexer.NewLine = false ->
  at_ {| tokens := t :: rest; next_ref := next |}
  = Parsed t {| tokens := t :: rest; next_ref := next |}.
Proof. intros Ht. unfold at_. cbn [tokens skipNewLines]. by rewrite Ht. Qed.

Lemma eat_here (t : Lexer.Token) (rest : list Lexer.Token) (next : nat) :
  is_type t Lexer.NewLine = false ->
  eat {| tokens := t :: rest; next_ref := next |}
  = Parsed t {| tokens := rest; next_ref := next |}.
Proof. intros Ht. unfold eat. cbn [tokens skipNewLines]. by rewrite Ht. Qed.

(** A name that no member access and no call follows. *)
Lemma parseCallMemberExpression_name (pe pa : P Stmt) (fuel : nat) (x : string)
  (t : Lexer.Token) (rest : list Lexer.Token) (next : nat) :
  is_type t Lexer.NewLine = false -> is_type t Lexer.Dot = false ->
  is_type t Lexer.OpenBracket = false -> is_type t Lexer.OpenParen = false ->
  parseCallMemberExpression parseFloat pe pa (S fuel)
    {| tokens := Lexer.token x Lexer.Identifier :: t :: rest; next_ref := next |}
  = Parsed (Identifier x) {| tokens := t :: rest; next_ref := next |}.
Proof.
  intros Hline Hdot Hbracket Hparen.
  unfold parseCallMemberExpression, parseMemberExpression, parsePrimaryExpression.
  unfold bind at 1 2 3. rewrite at_here by reflexivity. cbn [Lexer.type Lexer.token].
  unfold bind at 1. rewrite eat_here by reflexivity. cbn [ret Lexer.value Lexer.token].
  cbn [memberLoop]. unfold bind at 1. rewrite (at_here t) by exact Hline.
  rewrite Hdot, Hbracket. cbn [orb ret].
  unfold bind. rewrite (at_here t) by exact Hline. by rewrite Hparen.
Qed.

Lemma binaryLoop_more (operators : list string) (operand : P Stmt) (fuel : nat)
  (left : Stmt) (op : Lexer.Token) (rest : list Lexer.Token) (next : nat) :
  includes operators (Lexer.value op) = true -> is_type op Lexer.NewLine = false ->
  binaryLoop operators operand (S fuel) left {| tokens := op :: rest; next_ref := next |}
  = (right <~ operand ;;
     binaryLoop operators operand fuel (BinaryExpression left right (Lexer.value op)))
      {| tokens := rest; next_ref := next |}.
Proof.
  intros Hop Hline. cbn [binaryLoop]. unfold bind at 1. rewrite at_here by exact Hline.
  rewrite Hop. unfold bind at 1. by rewrite eat_here by exact Hline.
Qed.

Lemma binaryLoop_done (operators : list string) (operand : P Stmt) (fuel : nat)
  (left : Stmt) (t : Lexer.Token) (rest : list Lexer.Token) (next : nat) :
  includes operators (Lexer.value t) = false -> is_type t Lexer.NewLine = false ->
  binaryLoop operators operand (S fuel) left {| tokens := t :: rest; next_ref := next |}
  = Parsed left {| tokens := t :: rest; next_ref := next |}.
Proof.
  intros Hop Hline. cbn [binaryLoop]. unfold bind at 1. rewrite at_here by exact Hline.
  by rewrite Hop.
Qed.

Lemma includes_app (xs ys : list string) (v : string) :
  includes (xs ++ ys) v = includes xs v || includes ys v.
Proof. apply existsb_app. Qed.

(** No operator is on both levels. *)
Lemma levels_apart (v : string) :
  includes additive v = true -> includes multiplicative v = false.
Proof.
  unfold includes, additive, multiplicative. cbn [existsb]. intros H.
  repeat (apply orb_prop in H as [H | H]); try discriminate H;
    apply String.eqb_eq in H; subst v; reflexivity.
Qed.

(** What an operator token and a closing token are. *)
Lemma infix_inv (operators : list string) (t : Lexer.Token) :
  infix operators t = true ->
  includes operators (Lexer.value t) = true
  /\ is_type t Lexer.NewLine = false /\ is_type t Lexer.Dot = false
  /\ is_type t Lexer.OpenBracket = false /\ is_type t Lexer.OpenParen = false.
Proof.
  unfold infix. intros H. repeat (apply andb_prop in H as [H ?]).
  repeat split; try done; by apply negb_true_iff.
Qed.

Lemma closes_inv (t : Lexer.Token) :
  closes t = true ->
  (includes additive (Lexer.value t) = false
   /\ includes multiplicative (Lexer.value t) = false
   /\ includes ["&&"; "|"] (Lexer.value t) = false)
  /\ is_type t Lexer.NewLine = false /\ is_type t Lexer.Dot = false
  /\ is_type t Lexer.OpenBracket = false /\ is_type t Lexer.OpenParen = false
  /\ is_type t Lexer.Equals = false /\ is_type t Lexer.Ternary = false.
Proof.
  unfold closes. intros H. repeat (apply andb_prop in H as [H ?]).
  apply negb_true_iff in H. rewrite !includes_app in H.
  apply orb_false_elim in H as [Ha H]. apply orb_false_elim in H as [Hm Hl].
  repeat split; try done; by apply negb_true_iff.
Qed.

(** A name, and a name times a name, on the level of the products. *)
Lemma parseMultiplicativeExpression_name (pe pa : P Stmt) (fuel : nat) (x : string)
  (t : Lexer.Token) (rest : list Lexer.Token) (next : nat) :
  includes multiplicative (Lexer.value t) = false ->
  is_type t Lexer.NewLine = false -> is_type t Lexer.Dot = false ->
  is_type t Lexer.OpenBracket = false -> is_type t Lexer.OpenParen = false ->
  parseMultiplicativeExpression parseFloat pe pa (S fuel)
    {| tokens := Lexer.token x Lexer.Identifier :: t :: rest; next_ref := next |}
  = Parsed (Identifier x) {| tokens := t :: rest; next_ref := next |}.
Proof.
  intros Hop Hline Hdot Hbracket Hparen. unfold parseMultiplicativeExpression.
  unfold bind. rewrite parseCallMemberExpression_name by assumption.
  by apply binaryLoop_done.
Qed.

Lemma parseMultiplicativeExpression_product (pe pa : P Stmt) (fuel : nat) (x y : string)
  (op t : Lexer.Token) (rest : list Lexer.Token) (next : nat) :
  infix multiplicative op = true ->
  includes multiplicative (Lexer.value t) = false ->
  is_type t Lexer.NewLine = false -> is_type t Lexer.Dot = false ->
  is_type t Lexer.OpenBracket = false -> is_type t Lexer.OpenParen = false ->
  parseMultiplicativeExpression parseFloat pe pa (S (S fuel))
    {| tokens := Lexer.token x Lexer.Identifier :: op :: Lexer.token y Lexer.Identifier
                   :: t :: rest;
       next_ref := next |}
  = Parsed (binary x op (Identifier y)) {| tokens := t :: rest; next_ref := next |}.
Proof.
  intros Hop Ht Hline Hdot Hbracket Hparen.
  apply infix_inv in Hop as (Hop & Hline' & Hdot' & Hbracket' & Hparen').
  unfold parseMultiplicativeExpression.
  unfold bind. rewrite parseCallMemberExpression_name by assumption.
  rewrite binaryLoop_more by assumption.
  unfold bind. rewrite parseCallMemberExpression_name by assumption.
  by apply binaryLoop_done.
Qed.

(** The way from [parseExpression] to the sums, for an expression that
    starts with a name and that a closing token follows. *)
Lemma parseExpression_sum (fuel : nat) (x : string) (ts : list Lexer.Token)
  (result : Stmt) (stop : Lexer.Token) (rest : list Lexer.Token) (next : nat) :
  String.eqb x "try" = false ->
  closes stop = true ->
  (forall pe pa,
      parseAdditiveExpression parseFloat pe pa fuel
        {| tokens := Lexer.token x Lexer.Identifier :: ts; next_ref := next |}
      = Parsed result {| tokens := stop :: rest; next_ref := next |}) ->
  parseExpression parseFloat (S (S fuel))
    {| tokens := Lexer.token x Lexer.Identifier :: ts; next_ref := next |}
  = Parsed result {| tokens := stop :: rest; next_ref := next |}.
Proof.
  intros Hx Hstop Hsum.
  apply closes_inv in Hstop
      as ((Hadd & Hmul & Hand) & Hline & Hdot & Hbracket & Hparen & Hequals & Hternary).
  cbn [parseExpression parseAssignmentExpression].
  unfold parseExpression_body, parseAssignmentExpression_body, parseObjectExpression,
    parseArrayExpression, parseTryCatchExpression, parseAndStatement.
  unfold bind at 1 2 3. rewrite at_here by reflexivity.
  change (is_type (Lexer.token x Lexer.Identifier) Lexer.OpenBrace) with false.
  cbn [negb]. unfold bind at 1. rewrite at_here by reflexivity.
  change (is_type (Lexer.token x Lexer.Identifier) Lexer.OpenBracket) with false.
  cbn [negb]. unfold bind at 1. rewrite at_here by reflexivity.
  unfold is_word. change (Lexer.value (Lexer.token x Lexer.Identifier)) with x.
  rewrite Hx, andb_false_r. cbn [negb].
  unfold bind at 1.
  rewrite Hsum. unfold bind at 1. rewrite at_here by exact Hline.
  rewrite Hand. cbn [ret]. unfold bind at 1. rewrite at_here by exact Hline.
  rewrite Hequals. cbn [ret]. unfold bind. rewrite at_here by exact Hline.
  by rewrite Hternary.
Qed.

(** X24. Operators group to the left, and the comparisons are on the
    level of [+] and [-]: of three names joined by two operators of
    [+ - == != < >] and [/ * %], the first two names are grouped,
    unless the first operator is of the first list and the second of
    the second. So [a < b + c] is read as [(a < b) + c]. *)
Theorem operators_group_to_the_left (fuel : nat) (x y z : string)
  (op1 op2 stop : Lexer.Token) (rest : list Lexer.Token) (next : nat) :
  String.eqb x "try" = false ->
  infix (additive ++ multiplicative) op1 = true ->
  infix (additive ++ multiplicative) op2 = true ->
  closes stop = true ->
  parseExpression parseFloat (S (S (S (S (S fuel)))))
    {| tokens := Lexer.token x Lexer.Identifier :: op1 :: Lexer.token y Lexer.Identifier
                   :: op2 :: Lexer.token z Lexer.Identifier :: stop :: rest;
       next_ref := next |}
  = Parsed
      (if includes additive (Lexer.value op1) && includes multiplicative (Lexer.value op2)
       then binary x op1 (binary y op2 (Identifier z))
       else BinaryExpression (binary x op1 (Identifier y)) (Identifier z) (Lexer.value op2))
      {| tokens := stop :: rest; next_ref := next |}.
Proof.
  intros Hx Hop1 Hop2 Hstop.
  apply parseExpression_sum; [exact Hx | exact Hstop |]. intros pe pa.
  apply closes_inv in Hstop
      as ((Hadd & Hmul & Hand) & Hline & Hdot & Hbracket & Hparen & Hequals & Hternary).
  apply infix_inv in Hop1 as (Hin1 & Hline1 & Hdot1 & Hbracket1 & Hparen1).
  apply infix_inv in Hop2 as (Hin2 & Hline2 & Hdot2 & Hbracket2 & Hparen2).
  rewrite includes_app in Hin1, Hin2.
  unfold parseAdditiveExpression.
  destruct (includes additive (Lexer.value op1)) eqn:Hadd1.
  - pose proof (levels_apart _ Hadd1) as Hmul1.
    unfold bind at 1. rewrite parseMultiplicativeExpression_name by assumption.
    rewrite binaryLoop_more by assumption.
    destruct (includes additive (Lexer.value op2)) eqn:Hadd2.
    + pose proof (levels_apart _ Hadd2) as Hmul2. rewrite Hmul2.
      unfold bind at 1. rewrite parseMultiplicativeExpression_name by assumption.
      rewrite binaryLoop_more by assumption.
      unfold bind at 1. rewrite parseMultiplicativeExpression_name by assumption.
      by apply binaryLoop_done.
    + cbn [orb] in Hin2. rewrite Hin2.
      unfold bind at 1.
      rewrite parseMultiplicativeExpression_product;
        try assumption; [| unfold infix; by rewrite Hin2, Hline2, Hdot2, Hbracket2, Hparen2].
      by apply binaryLoop_done.
  - cbn [orb andb] in Hin1 |- *.
    destruct (includes additive (Lexer.value op2)) eqn:Hadd2.
    + pose proof (levels_apart _ Hadd2) as Hmul2.
      unfold bind at 1.
      rewrite parseMultiplicativeExpression_product;
        try assumption; [| unfold infix; by rewrite Hin1, Hline1, Hdot1, Hbracket1, Hparen1].
      rewrite binaryLoop_more by assumption.
      unfold bind at 1. rewrite parseMultiplicativeExpression_name by assumption.
      by apply binaryLoop_done.
    + cbn [orb] in Hin2.
      unfold bind at 1. unfold parseMultiplicativeExpression at 1.
      unfold bind at 1. rewrite parseCallMemberExpression_name by assumption.
      rewrite binaryLoop_more by assumption.
      unfold bind at 1. rewrite parseCallMemberExpression_name by assumption.
      rewrite binaryLoop_more by assumption.
      unfold bind at 1. rewrite parseCallMemberExpression_name by assumption.
      rewrite binaryLoop_done by assumption.
      by apply binaryLoop_done.
Qed.

End Shapes.

Section ParserInstances.

Lemma parser_ends_witness :
  returns (Parser.parseStatement parse_zero 9)
    {| Parser.tokens := [Lexer.token "x" Lexer.Identifier;
                         Lexer.token "EndOfFile" Lexer.EOF];
       Parser.next_ref := 0 |}
    (fun _ st' =>
       S (left_to_read st')
       <= left_to_read {| Parser.tokens := [Lexer.token "x" Lexer.Identifier;
                                            Lexer.token "EndOfFile" Lexer.EOF];
                          Parser.next_ref := 0 |}).
Proof.
  apply (parser_ends parse_zero 9
           [Lexer.token "x" Lexer.Identifier; Lexer.token "EndOfFile" Lexer.EOF] 0);
    [cbn; lia | cbn; lia].
Defined.

Lemma statement_starts_or_exit_witness :
  Parser.parseStatement parse_zero 3
    {| Parser.tokens := [Lexer.token ";" Lexer.Semicolon;
                         Lexer.token "EndOfFile" Lexer.EOF];
       Parser.next_ref := 0 |}
  = Parser.Exited.
Proof.
  apply (statement_starts_or_exit parse_zero 0 (Lexer.token ";" Lexer.Semicolon));
    [reflexivity | discriminate].
Defined.

Lemma operators_group_to_the_left_witness :
  Parser.parseExpression parse_zero 5
    {| Parser.tokens := [Lexer.token "a" Lexer.Identifier; Lexer.token "<" Lexer.Lesser;
                         Lexer.token "b" Lexer.Identifier;
                         Lexer.token "+" Lexer.BinaryOperator;
                         Lexer.token "c" Lexer.Identifier;
                         Lexer.token "EndOfFile" Lexer.EOF];
       Parser.next_ref := 0 |}
  = Parser.Parsed
      (BinaryExpression (BinaryExpression (Identifier "a") (Identifier "b") "<")
         (Identifier "c") "+")
      {| Parser.tokens := [Lexer.token "EndOfFile" Lexer.EOF]; Parser.next_ref := 0 |}.
Proof.
  apply (operators_group_to_the_left parse_zero 0 "a" "b" "c"
           (Lexer.token "<" Lexer.Lesser) (Lexer.token "+" Lexer.BinaryOperator)
           (Lexer.token "EndOfFile" Lexer.EOF) [] 0); reflexivity.
Defined.

End ParserInstances.

(** ** The transcriber *)

Section TranscriberProperties.

Import Transcriber.

Lemma quotes_app (a b : list ascii) : quotes (a ++ b) = quotes a + quotes b.
Proof. induction a as [| c a IH]; [reflexivity |]. cbn [app quotes]. lia. Qed.

Lemma quotes_plain (a : list ascii) : plain a = true -> quotes a = 0.
Proof.
  induction a as [| c a IH]; [reflexivity |]. cbn [plain forallb quotes].
  intros H. apply andb_prop in H as [Hc Ha]. apply negb_true_iff in Hc.
  rewrite Hc. by rewrite IH.
Qed.

Lemma plain_app (a b : list ascii) : plain (a ++ b) = plain a && plain b.
Proof. apply forallb_app. Qed.

Lemma after_Some (target text rest : list ascii) :
  after target text = Some rest <-> text = target ++ rest.
Proof.
  revert text. induction target as [| t target IH]; intros text; cbn [after app].
  - split; congruence.
  - destruct text as [| c text]; [split; discriminate |].
    destruct (Ascii.eqb_spec t c) as [-> | Hne].
    + rewrite IH. split; congruence.
    + split; [discriminate | congruence].
Qed.

(** A target without a quote does not match across a quote. *)
Lemma after_quote (target x y : list ascii) :
  plain target = true ->
  after target (x ++ Lexer.double_quote :: y)
  = (fun x' => x' ++ Lexer.double_quote :: y) <$> after target x.
Proof.
  intros Htarget. revert x. induction target as [| t target IH]; intros x; [reflexivity |].
  cbn [plain forallb] in Htarget. apply andb_prop in Htarget as [Ht Htarget].
  destruct x as [| c x]; cbn [app after].
  - apply negb_true_iff in Ht. by rewrite Ht.
  - destruct (Ascii.eqb t c); [by apply IH | reflexivity].
Qed.

Lemma wordAt_quote : wordAt (Some Lexer.double_quote) = wordAt None.
Proof. reflexivity. Qed.

(** Before a quote that an odd number of quotes follows, the pattern
    matches as it does at the end of the text. *)
Lemma matchAt_before_quote (target x y : list ascii) (prev : option ascii) :
  plain target = true -> target <> [] -> plain x = true ->
  Nat.even (S (quotes y)) = true ->
  matchAt target prev (x ++ Lexer.double_quote :: y)
  = (fun x' => x' ++ Lexer.double_quote :: y) <$> matchAt target prev x.
Proof.
  intros Htarget Hne Hx Hy. unfold matchAt. rewrite after_quote by exact Htarget.
  destruct (after target x) as [x' |] eqn:Hafter; [| reflexivity].
  cbn [fmap option_fmap option_map].
  apply after_Some in Hafter. subst x. rewrite plain_app in Hx.
  apply andb_prop in Hx as [_ Hx'].
  assert (Hhead : head ((target ++ x') ++ Lexer.double_quote :: y) = head (target ++ x')).
  { destruct target; [done | reflexivity]. }
  rewrite Hhead.
  assert (Hnext : boundary (last target) (head (x' ++ Lexer.double_quote :: y))
                  = boundary (last target) (head x')).
  { destruct x'; [| reflexivity]. unfold boundary. cbn [app head]. by rewrite wordAt_quote. }
  rewrite Hnext, !quotes_app, (quotes_plain x' Hx'). cbn [quotes Nat.add].
  change (Ascii.eqb Lexer.double_quote Lexer.double_quote) with true. cbn iota.
  change (1 + quotes y) with (S (quotes y)). rewrite Hy.
  change (Nat.even 0) with true.
  by destruct (boundary prev (head (target ++ x')) && boundary (last target) (head x')).
Qed.

(** The scan of a text without a quote, before a quote that an odd
    number of quotes follows. *)
Lemma scan_before_quote (target replacement y : list ascii) :
  plain target = true -> target <> [] ->
  Nat.even (S (quotes y)) = true ->
  forall x prev skip,
    plain x = true -> skip <= length x ->
    scan target replacement prev skip (x ++ Lexer.double_quote :: y)
    = scan target replacement prev skip x
        ++ Lexer.double_quote :: scan target replacement (Some Lexer.double_quote) 0 y.
Proof.
  intros Htarget Hne Hy. induction x as [| c x IH]; intros prev skip Hx Hskip.
  - cbn [length] in Hskip. assert (skip = 0) as -> by lia.
    cbn [app scan]. unfold matchAt.
    destruct target as [| t target]; [done |]. cbn [after].
    cbn [plain forallb] in Htarget. apply andb_prop in Htarget as [Ht _].
    apply negb_true_iff in Ht. by rewrite Ht.
  - cbn [plain forallb] in Hx. apply andb_prop in Hx as [Hc Hx].
    change ((c :: x) ++ Lexer.double_quote :: y) with (c :: (x ++ Lexer.double_quote :: y)).
    cbn [scan]. destruct skip as [| skip].
    + change (c :: (x ++ Lexer.double_quote :: y))
        with ((c :: x) ++ Lexer.double_quote :: y).
      rewrite matchAt_before_quote; try assumption;
        [| cbn [plain forallb]; by rewrite Hc, Hx].
      destruct (matchAt target prev (c :: x)) as [x' |] eqn:Hmatch;
        cbn [fmap option_fmap option_map].
      * rewrite IH; [by rewrite <- app_assoc | exact Hx |].
        unfold matchAt in Hmatch.
        destruct (after target (c :: x)) as [x'' |] eqn:Hafter; [| discriminate].
        apply after_Some in Hafter. apply (f_equal (@length _)) in Hafter.
        rewrite length_app in Hafter. cbn [length] in Hafter. lia.
      * rewrite IH; [reflexivity | exact Hx | lia].
    + rewrite IH; [reflexivity | exact Hx |]. cbn [length] in Hskip. lia.
Qed.

(** Between two quotes nothing matches. *)
Lemma scan_in_quotes (target replacement b : list ascii) :
  plain target = true -> target <> [] ->
  Nat.even (quotes b) = true ->
  forall lit prev,
    plain lit = true ->
    scan target replacement prev 0 (lit ++ Lexer.double_quote :: b)
    = lit ++ Lexer.double_quote :: scan target replacement (Some Lexer.double_quote) 0 b.
Proof.
  intros Htarget Hne Hb. induction lit as [| c lit IH]; intros prev Hlit.
  - cbn [app scan]. unfold matchAt.
    destruct target as [| t target]; [done |]. cbn [after].
    cbn [plain forallb] in Htarget. apply andb_prop in Htarget as [Ht _].
    apply negb_true_iff in Ht. by rewrite Ht.
  - pose proof Hlit as Hlit'.
    cbn [plain forallb] in Hlit. apply andb_prop in Hlit as [Hc Hlit].
    change ((c :: lit) ++ Lexer.double_quote :: b)
      with (c :: (lit ++ Lexer.double_quote :: b)).
    cbn [scan].
    assert (Hnone : matchAt target prev (c :: (lit ++ Lexer.double_quote :: b)) = None).
    { unfold matchAt.
      change (c :: (lit ++ Lexer.double_quote :: b))
        with ((c :: lit) ++ Lexer.double_quote :: b).
      rewrite after_quote by exact Htarget.
      destruct (after target (c :: lit)) as [x' |] eqn:Hafter; [| reflexivity].
      cbn [fmap option_fmap option_map].
      apply after_Some in Hafter. rewrite Hafter, plain_app in Hlit'.
      apply andb_prop in Hlit' as [_ Hx'].
      rewrite quotes_app, (quotes_plain x' Hx'). cbn [quotes Nat.add].
      change (Ascii.eqb Lexer.double_quote Lexer.double_quote) with true. cbn iota.
      change (1 + quotes b) with (S (quotes b)). rewrite Nat.even_succ.
      rewrite <- Nat.negb_even, Hb. cbn [negb]. by rewrite andb_false_r. }
    rewrite Hnone. by rewrite IH.
Qed.

(** What precedes the text matters by its being of a word or not. *)
Lemma scan_prev (target replacement text : list ascii) (prev prev' : option ascii)
  (skip : nat) :
  wordAt prev = wordAt prev' ->
  scan target replacement prev skip text = scan target replacement prev' skip text.
Proof.
  intros Hprev. destruct text as [| c rest]; [reflexivity |]. cbn [scan].
  destruct skip; [| reflexivity]. unfold matchAt, boundary. by rewrite Hprev.
Qed.

(** One call of [replace_str] passes a string literal unchanged, and
    replaces on its two sides as in two texts. *)
Lemma replace_str_literal (target replacement : string) (a lit b : list ascii) :
  literal_word (target, replacement) = true ->
  plain a = true -> plain lit = true -> Nat.even (quotes b) = true ->
  replace_str target replacement (a ++ Lexer.double_quote :: lit ++ Lexer.double_quote :: b)
  = replace_str target replacement a
      ++ Lexer.double_quote :: lit ++ Lexer.double_quote :: replace_str target replacement b.
Proof.
  unfold literal_word. cbn [fst snd]. intros Hword Ha Hlit Hb.
  apply andb_prop in Hword as [Hword _]. apply andb_prop in Hword as [Hne Htarget].
  assert (Hne' : String.list_ascii_of_string target <> []).
  { destruct target; [discriminate Hne | discriminate]. }
  unfold replace_str. rewrite scan_before_quote; try assumption.
  - rewrite scan_in_quotes by assumption.
    by rewrite (scan_prev _ _ b (Some Lexer.double_quote) None 0 wordAt_quote).
  - rewrite quotes_app, (quotes_plain lit Hlit). cbn [quotes Nat.add].
    change (Ascii.eqb Lexer.double_quote Lexer.double_quote) with true. cbn iota.
    by rewrite Nat.even_succ_succ.
  - lia.
Qed.

(** The scan keeps the quotes, when what it passes has none. *)
Lemma scan_quotes (target replacement : list ascii) :
  plain target = true -> target <> [] -> plain replacement = true ->
  forall text prev skip,
    plain (take skip text) = true ->
    quotes (scan target replacement prev skip text) = quotes text.
Proof.
  intros Htarget Hne Hreplacement.
  induction text as [| c text IH]; intros prev skip Hskip; [reflexivity |].
  cbn [scan]. destruct skip as [| skip].
  - destruct (matchAt target prev (c :: text)) as [x' |] eqn:Hmatch.
    + unfold matchAt in Hmatch.
      destruct (after target (c :: text)) as [x'' |] eqn:Hafter; [| discriminate].
      apply after_Some in Hafter.
      destruct target as [| t target]; [done |]. cbn [app] in Hafter.
      injection Hafter as <- ->.
      cbn [plain forallb] in Htarget. apply andb_prop in Htarget as [Ht Htarget].
      rewrite quotes_app, (quotes_plain _ Hreplacement). cbn [length Nat.sub Nat.add].
      rewrite Nat.sub_0_r, IH by (by rewrite take_app_length).
      cbn [quotes]. apply negb_true_iff in Ht. by rewrite Ht.
    + cbn [quotes]. f_equal. by apply IH.
  - cbn [take plain forallb] in Hskip. apply andb_prop in Hskip as [Hc Hskip].
    rewrite IH by exact Hskip. cbn [quotes]. apply negb_true_iff in Hc. by rewrite Hc.
Qed.

Lemma replace_str_quotes (target replacement : string) (text : list ascii) :
  literal_word (target, replacement) = true ->
  quotes (replace_str target replacement text) = quotes text.
Proof.
  unfold literal_word. cbn [fst snd]. intros Hword.
  apply andb_prop in Hword as [Hword Hreplacement]. apply andb_prop in Hword as [Hne Htarget].
  unfold replace_str. apply scan_quotes; try done.
  destruct target; [discriminate Hne | discriminate].
Qed.

Lemma plain_quotes (text : list ascii) : plain text = true <-> quotes text = 0.
Proof.
  split; [apply quotes_plain |]. induction text as [| c text IH]; [reflexivity |].
  cbn [quotes plain forallb]. destruct (Ascii.eqb c Lexer.double_quote); [discriminate |].
  cbn [Nat.add negb andb]. exact IH.
Qed.

(** X25. The transcriber leaves the string literals as they are: where
    a text without a quote, a string literal without an escaped quote,
    and a text with an even number of quotes follow one another, the
    literal passes unchanged, whatever words of the table it holds, and
    the texts on its two sides are transcribed as they are alone. *)
Theorem string_literals_pass_unchanged (a lit b : list ascii) :
  plain a = true -> plain lit = true -> Nat.even (quotes b) = true ->
  transcribe_with words (a ++ Lexer.double_quote :: lit ++ Lexer.double_quote :: b)
  = transcribe_with words a
      ++ Lexer.double_quote :: lit ++ Lexer.double_quote :: transcribe_with words b.
Proof.
  assert (Hwords : forallb literal_word words = true) by reflexivity.
  revert Hwords a b. generalize words as table.
  induction table as [| [target replacement] table IH]; intros Hwords a b Ha Hlit Hb;
    [reflexivity |].
  cbn [forallb] in Hwords. apply andb_prop in Hwords as [Hword Hwords].
  cbn [transcribe_with fold_left fst snd].
  rewrite replace_str_literal by assumption.
  apply (IH Hwords).
  - apply plain_quotes. rewrite replace_str_quotes by exact Hword. by apply plain_quotes.
  - exact Hlit.
  - by rewrite replace_str_quotes by exact Hword.
Qed.

End TranscriberProperties.

Section TranscriberInstances.

Lemma string_literals_pass_unchanged_witness :
  Transcriber.transcribe_with Transcriber.words
    (String.list_ascii_of_string "yap(" ++ Lexer.double_quote
       :: String.list_ascii_of_string "cap is cap" ++ Lexer.double_quote
       :: String.list_ascii_of_string ") ahh")
  = Transcriber.transcribe_with Transcriber.words (String.list_ascii_of_string "yap(")
      ++ Lexer.double_quote :: String.list_ascii_of_string "cap is cap"
      ++ Lexer.double_quote
      :: Transcriber.transcribe_with Transcriber.words (String.list_ascii_of_string ") ahh").
Proof.
  apply (string_literals_pass_unchanged (String.list_ascii_of_string "yap(")
           (String.list_ascii_of_string "cap is cap")
           (String.list_ascii_of_string ") ahh")); reflexivity.
Defined.

End TranscriberInstances.

(** ** Blocks have scopes of their own

    A node that is no declaration adds no name to a scope that was
    there before it ran: what an [if], a [for], a [try] or a call
    declares lands in the scopes they make. *)

Section Blocks.

Variable native_call : nat -> list RuntimeValue -> loc -> M RuntimeValue.

(** The store the evaluation starts after. *)
Variable st0 : State.

Hypothesis native_kept : forall call args env,
  keeps (same_names st0) (native_call call args env).

Local Abbreviation fixed := (same_names st0).

Local Abbreviation old := (length (envs st0)).

(** The node may run in the scope: the scope is a new one, or the node
    declares nothing there. *)
Local Abbreviation allowed env node := (old <= env \/ declares node = false).

Lemma fixed_length (st : State) : fixed st -> old <= length (envs st).
Proof.
  intros H. destruct (envs st0) as [| e0 es] eqn:Hst0 using rev_ind; [cbn; lia |].
  clear IHes. destruct (H (length es) e0) as (e' & He' & _).
  - rewrite Hst0. by apply list_lookup_middle.
  - apply lookup_lt_Some in He'. rewrite length_app. cbn [length]. lia.
Qed.

Lemma fixed_new (st : State) (p : option loc) :
  fixed st ->
  fixed (set_envs (fun es => es ++ [{| parent := p; variables := ∅; constants := ∅ |}]) st).
Proof.
  intros H l e He. destruct (H l e He) as (e' & He' & Hsame). exists e'.
  split; [| exact Hsame]. unfold set_envs. cbn [envs].
  rewrite lookup_app_l; [exact He' | by eapply lookup_lt_Some].
Qed.

Lemma fixed_above (st : State) (l : loc) (e : Environment) :
  fixed st -> old <= l -> fixed (with_scope l e st).
Proof.
  intros H Hl l0 e0 He0. destruct (H l0 e0 He0) as (e' & He' & Hsame). exists e'.
  split; [| exact Hsame]. rewrite lookup_with_scope_other; [exact He' |].
  apply lookup_lt_Some in He0. lia.
Qed.

Lemma fixed_assign (st : State) (l : loc) (e : Environment) (x : string)
  (v : RuntimeValue) :
  fixed st -> envs st !! l = Some e -> is_Some (variables e !! x) -> x ∉ constants e ->
  fixed (with_scope l (bound x v false e) st).
Proof.
  intros H He Hx _ l0 e0 He0. destruct (H l0 e0 He0) as (e' & He' & Hdom & Hconst & Hpar).
  destruct (decide (l = l0)) as [<- | Hne].
  - exists (bound x v false e). split; [by eapply lookup_with_scope |].
    assert (e' = e) as -> by congruence.
    unfold bound. cbn [variables constants parent]. split; [| by split].
    rewrite dom_insert_L, <- Hdom. apply elem_of_dom in Hx.
    by apply subseteq_union_1_L, singleton_subseteq_l.
  - exists e'. split; [by rewrite lookup_with_scope_other | done].
Qed.

Lemma fixed_objects (st : State)
  (f : list (gmap (option string) RuntimeValue) -> list (gmap (option string) RuntimeValue)) :
  fixed st -> length (objects st) <= length (f (objects st)) -> fixed (set_objects f st).
Proof. intros H _. exact H. Qed.

Lemma fixed_arrays (st : State) (f : list JsArray -> list JsArray) :
  fixed st -> length (arrays st) <= length (f (arrays st)) -> fixed (set_arrays f st).
Proof. intros H _. exact H. Qed.

Lemma keeps_declare_above (this : loc) (x : string) (v : RuntimeValue) (isConst : bool) :
  old <= this -> keeps fixed (Env.declareVariable this x v isConst).
Proof.
  intros Hthis st H. unfold Env.declareVariable, Env.read, Env.write. unfold_m.
  destruct (envs st !! this) as [e |] eqn:He; [| done].
  destruct (Env.has e (Some x)); cbn; [exact H |].
  by apply (fixed_above st this).
Qed.

(** A new scope is none of the old ones. *)
Lemma keeps_bind_new {B : Type} (p : option loc) (k : loc -> M B) :
  (forall scope, old <= scope -> keeps fixed (k scope)) ->
  keeps fixed (bind (Env.new p) k).
Proof.
  intros Hk st H. unfold bind, Env.new.
  apply Hk; [by apply fixed_length | by apply fixed_new].
Qed.

(** One step of a proof that a computation keeps the old scopes. *)
Ltac fixed_step :=
  lazymatch goal with
  | |- keeps _ (ret _) => apply keeps_ret
  | |- keeps _ (throw _) => apply keeps_throw
  | |- keeps _ (lift _) => apply keeps_lift
  | |- keeps _ (fun _ => Abort _) => apply keeps_abort
  | |- keeps _ (native_call _ _ _) => apply native_kept
  | |- keeps _ (Env.resolve _ _) => apply keeps_resolve
  | |- keeps _ (Env.read _) => apply keeps_read
  | |- keeps _ (Env.lookupVariable _ _) => apply keeps_lookupVariable
  | |- keeps _ (Env.assignVariable _ _ _) => apply keeps_assignVariable; exact fixed_assign
  | |- keeps _ (Env.declareVariable _ _ _ _) => apply keeps_declare_above; lia
  | |- keeps _ new_object => apply keeps_new_object; exact fixed_objects
  | |- keeps _ (object_set _ _ _) => apply keeps_object_set; exact fixed_objects
  | |- keeps _ (object_get _ _) => apply keeps_object_get
  | |- keeps _ new_array => apply keeps_new_array; exact fixed_arrays
  | |- keeps _ (array_set _ _ _) => apply keeps_array_set; exact fixed_arrays
  | |- keeps _ (array_get _ _) => apply keeps_array_get
  | |- keeps _ (array_push _ _) => apply keeps_array_push; exact fixed_arrays
  | |- keeps _ (bind (Env.new _) _) => apply keeps_bind_new; intros ? ?
  | |- keeps _ (bind _ _) => apply keeps_bind; [| intros ?]
  | |- keeps _ (try_catch _ _) => apply keeps_try_catch; [| intros ?]
  | |- keeps _ (if _ then _ else _) => case_match
  | |- keeps _ (match _ with _ => _ end) => case_match
  | |- keeps _ (let _ := _ in _) => cbv zeta
  end.

Section Step.

Variable ev : Stmt -> loc -> M RuntimeValue.

Hypothesis keeps_ev : forall node env, allowed env node -> keeps fixed (ev node env).

Lemma fixed_evalStatements (body : list Stmt) (scope : loc) :
  old <= scope \/ existsb declares body = false ->
  forall last, keeps fixed (evalStatements ev body scope last).
Proof.
  induction body as [| stmt rest IH]; intros Hbody last; cbn [evalStatements];
    [apply keeps_ret |].
  apply keeps_bind; [| intros v; apply IH].
  - apply keeps_ev. destruct Hbody as [H | H]; [by left | right].
    cbn [existsb] in H. by apply orb_false_elim in H as [? _].
  - destruct Hbody as [H | H]; [by left | right].
    cbn [existsb] in H. by apply orb_false_elim in H as [_ ?].
Qed.

Lemma fixed_evalBody_new (body : list Stmt) (env : loc) :
  keeps fixed (evalBody ev body env true).
Proof.
  unfold evalBody. apply keeps_bind_new. intros scope Hscope.
  apply fixed_evalStatements. by left.
Qed.

Lemma fixed_evalBody_here (body : list Stmt) (env : loc) :
  old <= env -> keeps fixed (evalBody ev body env false).
Proof.
  intros Henv st H. unfold evalBody, bind, ret.
  apply fixed_evalStatements; [by left | exact H].
Qed.

Lemma fixed_evaluateVariableDeclaration (declaration : bool * string * option Stmt)
  (env : loc) :
  old <= env -> keeps fixed (evaluateVariableDeclaration ev declaration env).
Proof.
  intros Henv. destruct declaration as [[constant identifier] [value |]];
    unfold evaluateVariableDeclaration;
    (apply keeps_bind; [| intros v; by apply keeps_declare_above]).
  - apply keeps_ev. by left.
  - apply keeps_ret.
Qed.

Lemma fixed_accessMember (this : loc) (pastVal : RuntimeValue) (p : Stmt)
  (value : RuntimeValue) (property : option Stmt) :
  allowed this p -> keeps fixed (accessMember ev this pastVal p value property).
Proof.
  intros Hp. unfold accessMember.
  destruct pastVal; repeat first [ apply keeps_ev; exact Hp | fixed_step ].
Qed.

Lemma fixed_lookupOrMutObject (this : loc) (object : Stmt) :
  forall p computed value property,
    allowed this (MemberExpression object p computed) ->
    keeps fixed (lookupOrMutObject ev this object p value property).
Proof.
  induction object; intros q computed' v property' Hallowed; cbn [lookupOrMutObject];
    (apply keeps_bind;
     [| intros ?; apply fixed_accessMember;
        destruct Hallowed as [H | H]; [by left | right];
        cbn [declares] in H; by apply orb_false_elim in H as [? _]]);
    try (solve [repeat fixed_step]).
  apply (IHobject1 _ computed).
  destruct Hallowed as [H | H]; [by left | right].
  cbn [declares] in H. by apply orb_false_elim in H as [_ ?].
Qed.

Lemma fixed_evaluateAssignment (node : Stmt) (env : loc) :
  allowed env node -> keeps fixed (evaluateAssignment ev node env).
Proof.
  intros Hallowed. unfold evaluateAssignment, evaluateMemberExpression.
  destruct node; try (solve [fixed_step]).
  destruct node1; try (solve [fixed_step]).
  - apply keeps_bind; [| intros v; apply (fixed_lookupOrMutObject _ _ _ computed)].
    + apply keeps_ev. destruct Hallowed as [H | H]; [by left | right].
      cbn [declares] in H. by apply orb_false_elim in H as [? _].
    + destruct Hallowed as [H | H]; [by left | right].
      cbn [declares] in H. by apply orb_false_elim in H as [_ ?].
  - apply keeps_bind; [| intros v; fixed_step].
    apply keeps_ev. destruct Hallowed as [H | H]; [by left | by right].
Qed.

Lemma fixed_fillProperties (object : loc) (properties : list (string * option Stmt))
  (env : loc) :
  old <= env
  \/ existsb (fun property => from_option declares false (snd property)) properties = false ->
  keeps fixed (fillProperties ev object properties env).
Proof.
  induction properties as [| [key value] rest IH]; intros Hallowed; cbn [fillProperties];
    [apply keeps_ret |].
  apply keeps_bind; [| intros v; apply keeps_bind; [fixed_step | intros _; apply IH]].
  - destruct value as [e |]; [| fixed_step].
    apply keeps_ev. destruct Hallowed as [H | H]; [by left | right].
    cbn [existsb snd from_option] in H. by apply orb_false_elim in H as [? _].
  - destruct Hallowed as [H | H]; [by left | right].
    cbn [existsb] in H. by apply orb_false_elim in H as [_ ?].
Qed.

Lemma fixed_pushValues (array : loc) (values : list Stmt) (env : loc) :
  old <= env \/ existsb declares values = false ->
  keeps fixed (pushValues ev array values env).
Proof.
  induction values as [| value rest IH]; intros Hallowed; cbn [pushValues];
    [apply keeps_ret |].
  apply keeps_bind; [| intros v; apply keeps_bind; [fixed_step | intros _; apply IH]].
  - apply keeps_ev. destruct Hallowed as [H | H]; [by left | right].
    cbn [existsb] in H. by apply orb_false_elim in H as [? _].
  - destruct Hallowed as [H | H]; [by left | right].
    cbn [existsb] in H. by apply orb_false_elim in H as [_ ?].
Qed.

Lemma fixed_evalArgs (args : list Stmt) (env : loc) :
  old <= env \/ existsb declares args = false ->
  keeps fixed (evalArgs ev args env).
Proof.
  induction args as [| arg rest IH]; intros Hallowed; cbn [evalArgs]; [apply keeps_ret |].
  apply keeps_bind;
    [| intros v; apply keeps_bind; [apply IH | intros vs; apply keeps_ret]].
  - apply keeps_ev. destruct Hallowed as [H | H]; [by left | right].
    cbn [existsb] in H. by apply orb_false_elim in H as [? _].
  - destruct Hallowed as [H | H]; [by left | right].
    cbn [existsb] in H. by apply orb_false_elim in H as [_ ?].
Qed.

Lemma fixed_declareParams (scope : loc) (params : list string) (args : list RuntimeValue) :
  old <= scope -> forall i, keeps fixed (declareParams scope params args i).
Proof.
  intros Hscope. induction params as [| x rest IH]; intros i; cbn [declareParams];
    repeat first [ apply IH | fixed_step ].
Qed.

Lemma fixed_callValue (fn : RuntimeValue) (args : list RuntimeValue) (env : loc) :
  keeps fixed (callValue native_call ev fn args env).
Proof.
  unfold callValue, evaluateFunction. destruct fn; try (solve [fixed_step]).
  apply keeps_bind_new. intros scope Hscope.
  apply keeps_bind; [by apply fixed_declareParams | intros _].
  apply fixed_evalStatements. by left.
Qed.

Lemma fixed_doWhile (fuel : nat) (body : list Stmt) (update test : Stmt) (env : loc) :
  old <= env -> keeps fixed (doWhile ev fuel body update test env).
Proof.
  intros Henv. induction fuel as [| fuel IH]; cbn [doWhile]; [apply keeps_abort |].
  apply keeps_bind_new. intros scope Hscope.
  apply keeps_bind; [by apply fixed_evalBody_here | intros _].
  apply keeps_bind; [apply fixed_evaluateAssignment; by left | intros _].
  apply keeps_bind; [apply keeps_ev; by left | intros t].
  apply keeps_bind; [apply keeps_lift | intros flag].
  destruct (truthy flag); [exact IH | apply keeps_ret].
Qed.

End Step.

Lemma fixed_evaluate (n : nat) :
  forall node env, allowed env node -> keeps fixed (evaluate native_call n node env).
Proof.
  induction n as [| n IH]; intros node env Hallowed; [apply keeps_abort |].
  destruct node; cbn [evaluate].
  - (* Program *)
    unfold evaluateProgram. apply fixed_evalStatements; [exact IH | exact Hallowed].
  - (* VariableDeclaration *)
    apply fixed_evaluateVariableDeclaration; [exact IH |].
    by destruct Hallowed as [H | H].
  - (* FunctionDeclaration *)
    unfold evalFunctionDeclaration.
    destruct (String.eqb name "<anonymous>") eqn:Hname; [apply keeps_ret |].
    apply keeps_declare_above. destruct Hallowed as [H | H]; [exact H |].
    cbn [declares] in H. by rewrite Hname in H.
  - (* IfStatement *)
    unfold evalIfStatement.
    apply keeps_bind; [apply IH; destruct Hallowed as [H | H]; [by left | by right] |].
    intros t. apply keeps_bind; [apply keeps_lift | intros flag].
    destruct (strict_equal flag (JsBoolean true)); [by apply fixed_evalBody_new |].
    destruct alternate; [by apply fixed_evalBody_new | apply keeps_ret].
  - (* ForStatement *)
    unfold evalForStatement. apply keeps_bind_new. intros env' Henv'.
    apply keeps_bind; [by apply fixed_evaluateVariableDeclaration | intros _].
    apply keeps_bind; [apply IH; by left | intros t].
    apply keeps_bind; [apply keeps_lift | intros flag].
    destruct (strict_not_equal flag (JsBoolean true)); [apply keeps_ret |].
    apply keeps_bind; [by apply fixed_doWhile | intros _; apply keeps_ret].
  - (* TryCatchStatement *)
    unfold evalTryCatchStatement. apply keeps_bind_new. intros try_env Htry.
    apply keeps_bind_new. intros catch_env Hcatch.
    apply keeps_try_catch; [by apply fixed_evalBody_here | intros e].
    apply keeps_bind; [apply keeps_assignVariable; exact fixed_assign | intros _].
    by apply fixed_evalBody_here.
  - (* AssignmentExpression *)
    by apply fixed_evaluateAssignment.
  - (* BinaryExpression *)
    unfold evaluateBinaryExpression.
    apply keeps_bind; [| intros l; apply keeps_bind; [| intros r; apply keeps_lift]];
      apply IH; (destruct Hallowed as [H | H]; [by left | right]);
      cbn [declares] in H; by apply orb_false_elim in H as [? ?].
  - (* CallExpression *)
    unfold evalCallExpression.
    apply keeps_bind; [| intros vs; apply keeps_bind;
                         [| intros fn; by apply fixed_callValue]].
    + apply fixed_evalArgs; [exact IH |].
      destruct Hallowed as [H | H]; [by left | right].
      cbn [declares] in H. by apply orb_false_elim in H as [? _].
    + apply IH. destruct Hallowed as [H | H]; [by left | right].
      cbn [declares] in H. by apply orb_false_elim in H as [_ ?].
  - (* MemberExpression *)
    unfold evaluateMemberExpression.
    by apply (fixed_lookupOrMutObject _ IH _ _ _ computed).
  - (* Identifier *)
    apply keeps_lookupVariable.
  - apply keeps_ret.
  - apply keeps_ret.
  - (* ArrayLiteral *)
    unfold evaluateArrayExpression.
    apply keeps_bind; [apply keeps_new_array; exact fixed_arrays | intros array].
    apply keeps_bind; [| intros _; apply keeps_ret].
    apply fixed_pushValues; [exact IH | exact Hallowed].
  - (* ObjectLiteral *)
    unfold evaluateObjectExpression.
    apply keeps_bind; [apply keeps_new_object; exact fixed_objects | intros object].
    apply keeps_bind; [| intros _; apply keeps_ret].
    apply fixed_fillProperties; [exact IH | exact Hallowed].
Qed.

End Blocks.

Section BlockScopes.

Lemma same_names_refl (st : State) : same_names st st.
Proof. intros l e He. by exists e. Qed.

Lemma same_names_trans (st1 st2 st3 : State) :
  same_names st1 st2 -> same_names st2 st3 -> same_names st1 st3.
Proof.
  intros H12 H23 l e He. destruct (H12 l e He) as (e2 & He2 & Hd & Hc & Hp).
  destruct (H23 l e2 He2) as (e3 & He3 & Hd' & Hc' & Hp'). exists e3.
  repeat split; congruence.
Qed.

(** X26. Blocks have scopes of their own: a node that is not a
    declaration, and evaluates none in its own scope, adds no name to
    a scope that was there before it ran. Every such scope has, after
    the evaluation, the names, the constants and the parent it had,
    however the evaluation ends: what the bodies of an [if], a [for],
    a [try] and a called function declare does not get out of them. *)
Theorem blocks_keep_their_names
  (native_call : nat -> list RuntimeValue -> loc -> M RuntimeValue)
  (n : nat) (node : Stmt) (env : loc) (st : State) :
  declares node = false ->
  (forall call args env' st',
      holds_after (same_names st') (native_call call args env' st')) ->
  holds_after (same_names st) (evaluate native_call n node env st).
Proof.
  intros Hnode Hnative.
  apply (fixed_evaluate native_call st); [| by right | apply same_names_refl].
  intros call args env' st1 H.
  eapply holds_after_impl; [| apply Hnative]. intros st2. by apply same_names_trans.
Qed.

End BlockScopes.

Section BlockInstances.

Lemma blocks_keep_their_names_witness :
  holds_after (same_names initial) (run for_twice).
Proof.
  apply (blocks_keep_their_names no_natives 20 for_twice 0 initial); [reflexivity |].
  intros call args env' st'. apply same_names_refl.
Defined.

End BlockInstances.

(** ** Functions and the scope they were declared in *)

Section Closures.

Variable native_call : nat -> list RuntimeValue -> loc -> M RuntimeValue.

(** A walk that fails to resolve the name fails in a store that extends
    the one it ran in. *)
Lemma resolve_walk_extended_raise (n : nat) (x : option string) (st st' : State) :
  (forall (l : loc) e, envs st !! l = Some e -> envs st' !! l = Some e) ->
  forall this err st0,
    Env.resolve_walk n this x st = Raise err st0 ->
    Env.resolve_walk n this x st' = Raise err st'.
Proof.
  intros Hext. induction n as [| n IH]; intros this err st0 H;
    destruct (envs st !! this) as [e |] eqn:He;
    rewrite ?(resolve_walk_dangling _ _ _ _ He) in H; try discriminate H;
    rewrite (resolve_walk_step _ _ _ _ _ He) in H;
    rewrite (resolve_walk_step _ _ _ _ _ (Hext _ _ He));
    destruct (Env.has e x); try discriminate H;
    destruct (parent e); try discriminate H;
    try (injection H as <- _; reflexivity).
  by eapply IH.
Qed.

(** The lookup of a name from a scope that lacks it and was put last in
    the store is the lookup from its parent. *)
Lemma lookupVariable_below (x : string) (st : State) (p : loc)
  (vars : gmap string RuntimeValue) (cs : gset string) :
  vars !! x = None ->
  let st' := set_envs (fun es => es ++ [{| parent := Some p; variables := vars;
                                           constants := cs |}]) st in
  (forall v, Env.lookupVariable p x st = Ret v st ->
             Env.lookupVariable (length (envs st)) x st' = Ret v st')
  /\ (forall err, Env.lookupVariable p x st = Raise err st ->
                  Env.lookupVariable (length (envs st)) x st' = Raise err st').
Proof.
  intros Hx st'.
  assert (Hscope : envs st' !! length (envs st)
                   = Some {| parent := Some p; variables := vars; constants := cs |}).
  { unfold st', set_envs. cbn [envs]. by apply list_lookup_middle. }
  assert (Hext : forall (l : loc) e, envs st !! l = Some e -> envs st' !! l = Some e).
  { intros l e He. unfold st', set_envs. cbn [envs].
    rewrite lookup_app_l; [exact He | by eapply lookup_lt_Some]. }
  assert (Hlen : length (envs st') = S (length (envs st))).
  { unfold st', set_envs. cbn [envs]. apply last_length. }
  assert (Hstep : Env.resolve_walk (length (envs st')) (length (envs st)) (Some x) st'
                  = Env.resolve_walk (length (envs st)) p (Some x) st').
  { rewrite Hlen, (resolve_walk_step (S _) _ _ _ _ Hscope).
    cbn [Env.has variables parent]. rewrite Hx.
    by rewrite bool_decide_eq_false_2 by (intros [? ?]; discriminate). }
  split.
  - intros v. unfold Env.lookupVariable, Env.resolve, Env.read. unfold_m.
    rewrite Hstep.
    destruct (Env.resolve_walk (length (envs st)) p (Some x) st)
      as [target st0 | | |] eqn:Hwalk; try discriminate.
    destruct (resolve_walk_found _ _ _ _ _ _ Hwalk) as (-> & e & He & _).
    rewrite (resolve_walk_extended _ _ st st' Hext _ _ Hwalk).
    rewrite He, (Hext _ _ He). congruence.
  - intros err. unfold Env.lookupVariable, Env.resolve, Env.read. unfold_m.
    rewrite Hstep.
    destruct (Env.resolve_walk (length (envs st)) p (Some x) st)
      as [target st0 | err0 st0 | |] eqn:Hwalk; try discriminate.
    + destruct (resolve_walk_found _ _ _ _ _ _ Hwalk) as (-> & e & He & _).
      rewrite He. discriminate.
    + rewrite (resolve_walk_extended_raise _ _ st st' Hext _ _ _ Hwalk). congruence.
Qed.

(** X27. A function reads a name that is not one of its parameters in
    the scope it was declared in, as that scope is when the call is made:
    the value the name has there at the call is the result, and a name
    the declaring scope cannot resolve is not resolved, whatever the
    scope the call is made from binds. *)
Theorem closures_read_their_declaring_scope (n : nat) (name : string)
  (params : list string) (declarationEnv : loc) (x : string) (body_ref : nat)
  (args : list RuntimeValue) (caller : loc) (st : State) (o : Outcome RuntimeValue) :
  NoDup params ->
  x ∉ params ->
  Env.lookupVariable declarationEnv x st = o ->
  (exists v, o = Ret v st) \/ (exists err, o = Raise err st) ->
  exists vars : gmap string RuntimeValue,
    callValue native_call (evaluate native_call (S n))
      (MK_FN name params declarationEnv [Identifier x] body_ref) args caller st
    = in_store (set_envs (fun es => es ++ [{| parent := Some declarationEnv;
                                               variables := vars;
                                               constants := ∅ |}]) st) o.
Proof.
  intros Hnd Hx Ho Hends. destruct st as [es os ars].
  destruct (declareParams_binds params args 0 es (Some declarationEnv) ∅ ∅ os ars Hnd)
    as (vars & Hrun & _ & Hother).
  { intros y _. apply lookup_empty. }
  exists vars.
  assert (Hvars : vars !! x = None).
  { rewrite Hother by exact Hx. apply lookup_empty. }
  destruct (lookupVariable_below x {| envs := es; objects := os; arrays := ars |}
              declarationEnv vars ∅ Hvars) as [Hret Hraise].
  cbn [callValue]. unfold evaluateFunction, Env.new. unfold_m. unfold set_envs in *.
  cbn [envs objects arrays] in *. rewrite Hrun.
  cbn [evalStatements evaluate evaluateIdentifier].
  destruct Hends as [[v ->] | [err ->]].
  - unfold bind at 1, evaluateIdentifier. by rewrite (Hret v Ho).
  - unfold bind at 1, evaluateIdentifier. by rewrite (Hraise err Ho).
Qed.

End Closures.

(** *** Instances *)

(** X27 at [fn f(a) { true }] declared in the global scope and called
    from a scope below it. *)
Lemma closures_read_their_declaring_scope_witness :
  exists vars : gmap string RuntimeValue,
    callValue no_natives (evaluate no_natives 1)
      (MK_FN "f" ["a"] 0 [Identifier "true"] 0) [MK_NULL] 1 (with_child 0 initial)
    = in_store (set_envs (fun es => es ++ [{| parent := Some 0; variables := vars;
                                               constants := ∅ |}])
                  (with_child 0 initial))
        (Ret (MK_BOOL true) (with_child 0 initial)).
Proof.
  apply (closures_read_their_declaring_scope no_natives 0 "f" ["a"] 0 "true" 0
           [MK_NULL] 1 (with_child 0 initial)
           (Ret (MK_BOOL true) (with_child 0 initial))).
  - apply NoDup_singleton.
  - intros H. apply list_elem_of_singleton in H. discriminate H.
  - vm_compute. reflexivity.
  - left. by exists (MK_BOOL true).
Defined.

(** ** The store stays sound *)

Section Sound.

Local Abbreviation is_valid := (fun (v : RuntimeValue) (st : State) => valid st v).
Local Abbreviation is_scope := (fun (l : loc) (st : State) => l < length (envs st)).
Local Abbreviation is_object := (fun (l : loc) (st : State) => l < length (objects st)).
Local Abbreviation is_array := (fun (l : loc) (st : State) => l < length (arrays st)).
Local Abbreviation anything := (fun (_ : unit) (_ : State) => True).

Lemma valid_grows (st st' : State) (v : RuntimeValue) :
  grows st st' -> valid st v -> valid st' v.
Proof. intros (? & ? & ?). destruct v; cbn; try done; lia. Qed.

Lemma grows_same (st st' : State) :
  length (envs st) = length (envs st') ->
  length (objects st) = length (objects st') ->
  length (arrays st) = length (arrays st') ->
  grows st st' /\ grows st' st.
Proof. intros ? ? ?. unfold grows. lia. Qed.

Lemma sound_ret {A : Type} (Q : A -> State -> Prop) (a : A) (st : State) :
  well_formed st -> Q a st -> sound_after Q st (ret a st).
Proof. intros ? ?. cbn. auto using grows_refl. Qed.

Lemma sound_throw {A : Type} (Q : A -> State -> Prop) (e : RuntimeValue) (st : State) :
  well_formed st -> valid st e -> sound_after Q st (@throw A e st).
Proof. intros ? ?. cbn. auto using grows_refl. Qed.

Lemma sound_abort {A : Type} (Q : A -> State -> Prop) (st : State) :
  sound_after Q st (@Abort A OutOfFuel).
Proof. reflexivity. Qed.

Lemma sound_mono {A : Type} (Q Q' : A -> State -> Prop) (st : State) (o : Outcome A) :
  sound_after Q st o ->
  (forall a st', grows st st' -> well_formed st' -> Q a st' -> Q' a st') ->
  sound_after Q' st o.
Proof. destruct o; cbn; try done. intros (Hg & Hwf & HQ) Himp. auto. Qed.

Lemma sound_bind {A B : Type} (Q : A -> State -> Prop) (Q' : B -> State -> Prop)
  (c : M A) (k : A -> M B) (st : State) :
  sound_after Q st (c st) ->
  (forall a st', grows st st' -> well_formed st' -> Q a st' ->
                 sound_after Q' st' (k a st')) ->
  sound_after Q' st (bind c k st).
Proof.
  unfold bind. destruct (c st) as [a st' | e st' | st' | why]; cbn; try done.
  intros (Hg & Hwf & HQ) Hk. specialize (Hk a st' Hg Hwf HQ).
  destruct (k a st') as [b st'' | e st'' | st'' | why]; cbn in *; try done.
  - destruct Hk as (Hg' & ? & ?). eauto using grows_trans.
  - destruct Hk as (Hg' & ? & ?). eauto using grows_trans.
  - destruct Hk as (Hg' & ?). eauto using grows_trans.
Qed.

Lemma sound_try_catch {A : Type} (Q0 Q : A -> State -> Prop) (c : M A)
  (h : RuntimeValue -> M A) (st : State) :
  sound_after Q0 st (c st) ->
  (forall a st', grows st st' -> well_formed st' -> Q0 a st' -> Q a st') ->
  (forall e st', grows st st' -> well_formed st' -> valid st' e ->
                 sound_after Q st' (h e st')) ->
  sound_after Q st (try_catch c h st).
Proof.
  unfold try_catch. destruct (c st) as [a st' | e st' | st' | why]; cbn; try done.
  - intros (Hg & Hwf & HQ) Himp _. auto.
  - intros (Hg & Hwf & He) _ Hh. specialize (Hh e st' Hg Hwf He).
    destruct (h e st') as [b st'' | e' st'' | st'' | why]; cbn in *; try done.
    + destruct Hh as (Hg' & ? & ?). eauto using grows_trans.
    + destruct Hh as (Hg' & ? & ?). eauto using grows_trans.
    + destruct Hh as (Hg' & ?). eauto using grows_trans.
Qed.

Lemma sound_lift {A : Type} (Q : A -> State -> Prop) (c : Completion A) (st : State) :
  well_formed st ->
  (forall a, c = Normal a -> Q a st) ->
  (forall e, c = Throw e -> valid st e) ->
  sound_after Q st (lift c st).
Proof. intros ? ? ?. destruct c; cbn; auto using grows_refl. Qed.

(** *** The store after each primitive *)

Lemma well_formed_new_scope (st : State) (p : option loc) :
  well_formed st ->
  (forall l : loc, p = Some l -> l < length (envs st)) ->
  well_formed (set_envs (fun es => es ++ [{| parent := p; variables := ∅;
                                             constants := ∅ |}]) st).
Proof.
  intros (Hws & Hvars & Hobjs & Harrs) Hp.
  set (st' := set_envs _ st).
  assert (Hg : grows st st').
  { unfold grows, st', set_envs. cbn. rewrite length_app. lia. }
  repeat apply conj.
  - intros l e q He Hq. unfold st', set_envs in He. cbn [envs] in He.
    apply lookup_app_Some in He as [He | [Hl He]].
    + by eapply Hws.
    + apply list_lookup_singleton_Some in He as [Hz <-]. cbn in Hq.
      specialize (Hp q Hq). lia.
  - intros l e x v He Hx. unfold st', set_envs in He. cbn [envs] in He.
    apply lookup_app_Some in He as [He | [Hl He]].
    + eapply valid_grows; [exact Hg |]. by eapply Hvars.
    + apply list_lookup_singleton_Some in He as [Hz <-]. cbn in Hx.
      by rewrite lookup_empty in Hx.
  - intros l m k v Hm Hk. eapply valid_grows; [exact Hg |]. by eapply Hobjs.
  - intros l a Ha. destruct (Harrs l a Ha) as [Hi Hn].
    split; intros; (eapply valid_grows; [exact Hg |]); eauto.
Qed.

Lemma well_formed_with_scope (st : State) (l : loc) (e e' : Environment) :
  well_formed st ->
  envs st !! l = Some e ->
  parent e' = parent e ->
  (forall x v, variables e' !! x = Some v -> valid st v) ->
  well_formed (with_scope l e' st).
Proof.
  intros (Hws & Hvars & Hobjs & Harrs) He Hparent He'.
  set (st' := with_scope l e' st).
  assert (Hg : grows st st').
  { unfold grows, st', with_scope, set_envs. cbn. rewrite length_insert. lia. }
  assert (Hl : l < length (envs st)) by by eapply lookup_lt_Some.
  repeat apply conj.
  - intros l0 e0 q He0 Hq. unfold st', with_scope, set_envs in He0. cbn [envs] in He0.
    destruct (decide (l = l0)) as [<- | Hne].
    + rewrite list_lookup_insert_eq in He0 by exact Hl. injection He0 as <-.
      rewrite Hparent in Hq. by eapply Hws.
    + rewrite list_lookup_insert_ne in He0 by exact Hne. by eapply Hws.
  - intros l0 e0 x v He0 Hx. unfold st', with_scope, set_envs in He0. cbn [envs] in He0.
    eapply valid_grows; [exact Hg |].
    destruct (decide (l = l0)) as [<- | Hne].
    + rewrite list_lookup_insert_eq in He0 by exact Hl. injection He0 as <-. eauto.
    + rewrite list_lookup_insert_ne in He0 by exact Hne. by eapply Hvars.
  - intros l0 m k v Hm Hk. eapply valid_grows; [exact Hg |]. by eapply Hobjs.
  - intros l0 a Ha. destruct (Harrs l0 a Ha) as [Hi Hn].
    split; intros; (eapply valid_grows; [exact Hg |]); eauto.
Qed.

Lemma well_formed_new_object (st : State) :
  well_formed st -> well_formed (set_objects (fun os => os ++ [∅]) st).
Proof.
  intros (Hws & Hvars & Hobjs & Harrs).
  set (st' := set_objects _ st).
  assert (Hg : grows st st').
  { unfold grows, st', set_objects. cbn. rewrite length_app. lia. }
  repeat apply conj.
  - exact Hws.
  - intros l e x v He Hx. eapply valid_grows; [exact Hg |]. by eapply Hvars.
  - intros l m k v Hm Hk. unfold st', set_objects in Hm. cbn [objects] in Hm.
    apply lookup_app_Some in Hm as [Hm | [Hl Hm]].
    + eapply valid_grows; [exact Hg |]. by eapply Hobjs.
    + apply list_lookup_singleton_Some in Hm as [Hz <-].
      by rewrite lookup_empty in Hk.
  - intros l a Ha. destruct (Harrs l a Ha) as [Hi Hn].
    split; intros; (eapply valid_grows; [exact Hg |]); eauto.
Qed.

Lemma well_formed_object_set (st : State) (l : loc)
  (m m' : gmap (option string) RuntimeValue) :
  well_formed st ->
  objects st !! l = Some m ->
  (forall k v, m' !! k = Some v -> valid st v) ->
  well_formed (set_objects (fun os => <[l := m']> os) st).
Proof.
  intros (Hws & Hvars & Hobjs & Harrs) Hm Hm'.
  set (st' := set_objects _ st).
  assert (Hg : grows st st').
  { unfold grows, st', set_objects. cbn. rewrite length_insert. lia. }
  assert (Hl : l < length (objects st)) by by eapply lookup_lt_Some.
  repeat apply conj.
  - exact Hws.
  - intros l0 e x v He Hx. eapply valid_grows; [exact Hg |]. by eapply Hvars.
  - intros l0 m0 k v Hm0 Hk. unfold st', set_objects in Hm0. cbn [objects] in Hm0.
    eapply valid_grows; [exact Hg |].
    destruct (decide (l = l0)) as [<- | Hne].
    + rewrite list_lookup_insert_eq in Hm0 by exact Hl. injection Hm0 as <-. eauto.
    + rewrite list_lookup_insert_ne in Hm0 by exact Hne. by eapply Hobjs.
  - intros l0 a Ha. destruct (Harrs l0 a Ha) as [Hi Hn].
    split; intros; (eapply valid_grows; [exact Hg |]); eauto.
Qed.

Lemma well_formed_new_array (st : State) :
  well_formed st ->
  well_formed (set_arrays (fun l => l ++ [{| items := ∅; arr_length := 0;
                                             named := [] |}]) st).
Proof.
  intros (Hws & Hvars & Hobjs & Harrs).
  set (st' := set_arrays _ st).
  assert (Hg : grows st st').
  { unfold grows, st', set_arrays. cbn. rewrite length_app. lia. }
  repeat apply conj.
  - exact Hws.
  - intros l e x v He Hx. eapply valid_grows; [exact Hg |]. by eapply Hvars.
  - intros l m k v Hm Hk. eapply valid_grows; [exact Hg |]. by eapply Hobjs.
  - intros l a Ha. unfold st', set_arrays in Ha. cbn [arrays] in Ha.
    apply lookup_app_Some in Ha as [Ha | [Hl Ha]].
    + destruct (Harrs l a Ha) as [Hi Hn].
      split; intros; (eapply valid_grows; [exact Hg |]); eauto.
    + apply list_lookup_singleton_Some in Ha as [Hz <-]. cbn. split.
      * intros i v Hi. by rewrite lookup_empty in Hi.
      * intros k v Hk. by apply elem_of_nil in Hk.
Qed.

Lemma well_formed_array_set (st : State) (l : loc) (a a' : JsArray) :
  well_formed st ->
  arrays st !! l = Some a ->
  (forall i v, items a' !! i = Some v -> valid st v) ->
  (forall k v, (k, v) ∈ named a' -> valid st v) ->
  well_formed (set_arrays (fun l' => <[l := a']> l') st).
Proof.
  intros (Hws & Hvars & Hobjs & Harrs) Ha Hitems Hnamed.
  set (st' := set_arrays _ st).
  assert (Hg : grows st st').
  { unfold grows, st', set_arrays. cbn. rewrite length_insert. lia. }
  assert (Hl : l < length (arrays st)) by by eapply lookup_lt_Some.
  repeat apply conj.
  - exact Hws.
  - intros l0 e x v He Hx. eapply valid_grows; [exact Hg |]. by eapply Hvars.
  - intros l0 m k v Hm Hk. eapply valid_grows; [exact Hg |]. by eapply Hobjs.
  - intros l0 a0 Ha0. unfold st', set_arrays in Ha0. cbn [arrays] in Ha0.
    destruct (decide (l = l0)) as [<- | Hne].
    + rewrite list_lookup_insert_eq in Ha0 by exact Hl. injection Ha0 as <-.
      split; intros; (eapply valid_grows; [exact Hg |]); eauto.
    + rewrite list_lookup_insert_ne in Ha0 by exact Hne.
      destruct (Harrs l0 a0 Ha0) as [Hi Hn].
      split; intros; (eapply valid_grows; [exact Hg |]); eauto.
Qed.

(** An address below the length names a container. *)
Lemma stored {A : Type} (l : list A) (i : loc) : i < length l -> exists a, l !! i = Some a.
Proof. apply lookup_lt_is_Some_2. Qed.

Lemma sound_new (p : loc) (st : State) :
  well_formed st -> p < length (envs st) ->
  sound_after is_scope st (Env.new (Some p) st).
Proof.
  intros Hwf Hp. unfold Env.new. cbn [sound_after]. split; [| split].
  - unfold grows, set_envs. cbn [envs objects arrays]. rewrite length_app. lia.
  - apply well_formed_new_scope; [done |]. by intros l [= <-].
  - unfold set_envs. cbn [envs]. rewrite length_app. cbn. lia.
Qed.

Lemma sound_resolve (this : loc) (x : option string) (st : State) :
  well_formed st -> this < length (envs st) ->
  sound_after (fun target st' => st' = st /\ target < length (envs st)) st
    (Env.resolve this x st).
Proof.
  intros Hwf Hthis. unfold Env.resolve.
  destruct (resolve_walk_ends x st (proj1 Hwf) (length (envs st)) this
              (Nat.lt_le_incl _ _ Hthis) Hthis) as [(target & e & -> & Hle & He & _) | ->]; cbn.
  - split; [apply grows_refl | split; [done | split; [done | lia]]].
  - split; [apply grows_refl | by split].
Qed.

Lemma variables_valid (st : State) (l : loc) (e : Environment) (x : option string) :
  well_formed st -> envs st !! l = Some e -> valid st (Env.get e x).
Proof.
  intros (_ & Hvars & _) He. destruct x as [x |]; cbn; [| done].
  destruct (variables e !! x) as [v |] eqn:Hx; cbn; [| done]. by eapply Hvars.
Qed.

Lemma rebound_valid (st : State) (l : loc) (e : Environment) (x : string)
  (v : RuntimeValue) :
  well_formed st -> envs st !! l = Some e -> valid st v ->
  forall y w, <[x := v]> (variables e) !! y = Some w -> valid st w.
Proof.
  intros (_ & Hvars & _) He Hv y w Hy.
  apply lookup_insert_Some in Hy as [[_ <-] | [_ Hy]]; [done |]. by eapply Hvars.
Qed.

Lemma sound_with_scope (st : State) (l : loc) (e e' : Environment) (v : RuntimeValue) :
  well_formed st ->
  envs st !! l = Some e ->
  parent e' = parent e ->
  (forall x w, variables e' !! x = Some w -> valid st w) ->
  valid st v ->
  sound_after is_valid st (Ret v (set_envs (fun es => <[l := e']> es) st)).
Proof.
  intros Hwf He Hparent He' Hv.
  assert (Hg : grows st (set_envs (fun es => <[l := e']> es) st)).
  { unfold grows, set_envs. cbn. rewrite length_insert. lia. }
  cbn [sound_after]. split; [exact Hg | split].
  - by apply (well_formed_with_scope st l e e').
  - by eapply valid_grows.
Qed.

Lemma sound_declareVariable (this : loc) (x : string) (v : RuntimeValue)
  (isConst : bool) (st : State) :
  well_formed st -> this < length (envs st) -> valid st v ->
  sound_after is_valid st (Env.declareVariable this x v isConst st).
Proof.
  intros Hwf Hthis Hv. destruct (stored _ _ Hthis) as [e He].
  unfold Env.declareVariable, Env.read, Env.write. unfold_m. rewrite He.
  destruct (Env.has e (Some x)).
  - cbn. auto using grows_refl.
  - apply (sound_with_scope st this e); try done. by eapply rebound_valid.
Qed.

Lemma sound_assignVariable (this : loc) (x : string) (v : RuntimeValue) (st : State) :
  well_formed st -> this < length (envs st) -> valid st v ->
  sound_after is_valid st (Env.assignVariable this x v st).
Proof.
  intros Hwf Hthis Hv. unfold Env.assignVariable, Env.resolve, Env.read, Env.write.
  unfold_m.
  destruct (resolve_walk_ends (Some x) st (proj1 Hwf) (length (envs st)) this
              (Nat.lt_le_incl _ _ Hthis) Hthis) as [(target & e & -> & Hle & He & _) | ->].
  - rewrite He. destruct (bool_decide (x ∈ constants e)).
    + cbn. auto using grows_refl.
    + apply (sound_with_scope st target e); try done. by eapply rebound_valid.
  - cbn. auto using grows_refl.
Qed.

Lemma sound_lookupVariable (this : loc) (x : string) (st : State) :
  well_formed st -> this < length (envs st) ->
  sound_after is_valid st (Env.lookupVariable this x st).
Proof.
  intros Hwf Hthis. unfold Env.lookupVariable, Env.resolve, Env.read. unfold_m.
  destruct (resolve_walk_ends (Some x) st (proj1 Hwf) (length (envs st)) this
              (Nat.lt_le_incl _ _ Hthis) Hthis) as [(target & e & -> & Hle & He & _) | ->].
  - rewrite He. cbn [sound_after ret]. split; [apply grows_refl | split; [done |]].
    exact (variables_valid st target e (Some x) Hwf He).
  - cbn. auto using grows_refl.
Qed.

Lemma sound_new_object (st : State) :
  well_formed st -> sound_after is_object st (new_object st).
Proof.
  intros Hwf. unfold new_object. cbn [sound_after]. split; [| split].
  - unfold grows, set_objects. cbn [envs objects arrays]. rewrite length_app. lia.
  - by apply well_formed_new_object.
  - unfold set_objects. cbn [objects]. rewrite length_app. cbn. lia.
Qed.

Lemma sound_object_set (l : loc) (key : option string) (v : RuntimeValue) (st : State) :
  well_formed st -> l < length (objects st) -> valid st v ->
  sound_after anything st (object_set l key v st).
Proof.
  intros Hwf Hl Hv. destruct (stored _ _ Hl) as [m Hm].
  unfold object_set. rewrite Hm. cbn [sound_after]. split; [| split; [| done]].
  - unfold grows, set_objects. cbn [envs objects arrays]. rewrite length_insert. lia.
  - apply (well_formed_object_set st l m); try done.
    intros k w Hk. apply lookup_insert_Some in Hk as [[_ <-] | [_ Hk]]; [done |].
    destruct Hwf as (_ & _ & Hobjs & _). by eapply Hobjs.
Qed.

Lemma sound_object_get (l : loc) (key : option string) (st : State) :
  well_formed st -> l < length (objects st) ->
  sound_after is_valid st (object_get l key st).
Proof.
  intros Hwf Hl. destruct (stored _ _ Hl) as [m Hm].
  unfold object_get. rewrite Hm. cbn. split; [apply grows_refl | split; [done |]].
  destruct (m !! key) as [v |] eqn:Hk; cbn; [| done].
  destruct Hwf as (_ & _ & Hobjs & _). by eapply Hobjs.
Qed.

Lemma sound_new_array (st : State) :
  well_formed st -> sound_after is_array st (new_array st).
Proof.
  intros Hwf. unfold new_array. cbn [sound_after]. split; [| split].
  - unfold grows, set_arrays. cbn [envs objects arrays]. rewrite length_app. lia.
  - by apply well_formed_new_array.
  - unfold set_arrays. cbn [arrays]. rewrite length_app. cbn. lia.
Qed.

Lemma array_store_valid (st : State) (num : float) (v : RuntimeValue) (a : JsArray) :
  (forall i w, items a !! i = Some w -> valid st w) ->
  (forall k w, (k, w) ∈ named a -> valid st w) ->
  valid st v ->
  (forall i w, items (array_store num v a) !! i = Some w -> valid st w)
  /\ (forall k w, (k, w) ∈ named (array_store num v a) -> valid st w).
Proof.
  intros Hitems Hnamed Hv. unfold array_store.
  destruct (array_index num) as [i |]; cbn; split; try done.
  - intros j w Hj. apply lookup_insert_Some in Hj as [[_ <-] | [_ Hj]]; eauto.
  - intros k w Hk. unfold named_set in Hk.
    apply elem_of_cons in Hk as [[= -> ->] | Hk]; [done |].
    apply list_elem_of_In, filter_In in Hk as [Hk _].
    apply list_elem_of_In in Hk. eauto.
Qed.

Lemma array_load_valid (st : State) (num : float) (a : JsArray) :
  (forall i w, items a !! i = Some w -> valid st w) ->
  (forall k w, (k, w) ∈ named a -> valid st w) ->
  valid st (array_load num a).
Proof.
  intros Hitems Hnamed. unfold array_load.
  destruct (array_index num) as [i |].
  - destruct (items a !! i) as [w |] eqn:Hi; cbn; eauto.
  - unfold named_get.
    destruct (List.find _ (named a)) as [[k w] |] eqn:Hfind; cbn; [| done].
    apply find_some in Hfind as [Hin _]. apply list_elem_of_In in Hin. eauto.
Qed.

Lemma sound_array_set (l : loc) (num : float) (v : RuntimeValue) (st : State) :
  well_formed st -> l < length (arrays st) -> valid st v ->
  sound_after anything st (array_set l num v st).
Proof.
  intros Hwf Hl Hv. destruct (stored _ _ Hl) as [a Ha].
  unfold array_set. rewrite Ha. cbn [sound_after].
  destruct (proj2 (proj2 (proj2 Hwf)) l a Ha) as [Hitems Hnamed].
  destruct (array_store_valid st num v a Hitems Hnamed Hv) as [Hitems' Hnamed'].
  split; [| split; [| done]].
  - unfold grows, set_arrays. cbn [envs objects arrays]. rewrite length_insert. lia.
  - by apply (well_formed_array_set st l a).
Qed.

Lemma sound_array_get (l : loc) (num : float) (st : State) :
  well_formed st -> l < length (arrays st) ->
  sound_after is_valid st (array_get l num st).
Proof.
  intros Hwf Hl. destruct (stored _ _ Hl) as [a Ha].
  unfold array_get. rewrite Ha. cbn.
  destruct (proj2 (proj2 (proj2 Hwf)) l a Ha) as [Hitems Hnamed].
  split; [apply grows_refl | split; [done |]]. by apply array_load_valid.
Qed.

Lemma sound_array_push (l : loc) (v : RuntimeValue) (st : State) :
  well_formed st -> l < length (arrays st) -> valid st v ->
  sound_after anything st (array_push l v st).
Proof.
  intros Hwf Hl Hv. destruct (stored _ _ Hl) as [a Ha].
  unfold array_push. rewrite Ha. cbn [sound_after].
  destruct (proj2 (proj2 (proj2 Hwf)) l a Ha) as [Hitems Hnamed].
  split; [| split; [| done]].
  - unfold grows, set_arrays. cbn [envs objects arrays]. rewrite length_insert. lia.
  - apply (well_formed_array_set st l a); try done. cbn.
    intros j w Hj. apply lookup_insert_Some in Hj as [[_ <-] | [_ Hj]]; eauto.
Qed.

(** *** The evaluator *)

Lemma get_field_throws (f : Field) (v e : RuntimeValue) (st : State) :
  get_field f v = Throw e -> valid st e.
Proof. destruct v; cbn; intros [= <-]; exact I. Qed.

Lemma get_type_throws (v e : RuntimeValue) (st : State) :
  get_type v = Throw e -> valid st e.
Proof. destruct v; cbn; intros [= <-]; exact I. Qed.

Lemma plain_valid (st : State) (v : RuntimeValue) : plain_value v = true -> valid st v.
Proof. by destruct v. Qed.

Lemma equals_plain (lhs rhs : RuntimeValue) (strict : bool) :
  plain_completion (equals lhs rhs strict) = true.
Proof. destruct lhs, rhs; reflexivity. Qed.

Lemma type_mismatch_throws (t : ValueType) (lhs rhs e : RuntimeValue) :
  type_mismatch t lhs rhs = Throw e -> plain_value e = true.
Proof.
  unfold type_mismatch. destruct lhs; cbn; try (intros [= <-]; reflexivity);
    case_bool_decide; try discriminate;
    destruct rhs; cbn; try discriminate; intros [= <-]; reflexivity.
Qed.

Lemma binary_plain (lhs rhs : RuntimeValue) (operator : string) :
  plain_completion (evaluateNumericBinaryExpression lhs rhs operator) = true.
Proof.
  unfold evaluateNumericBinaryExpression.
  repeat (case_match; try apply equals_plain; try reflexivity).
  all: cbn.
  all: try (destruct (type_mismatch _ lhs rhs) as [[] | e] eqn:Hm; cbn;
            try reflexivity; try by eapply type_mismatch_throws).
  all: repeat (case_match; try reflexivity).
Qed.

Lemma default_valid (st : State) (args : list RuntimeValue) (i : nat) :
  Forall (valid st) args -> valid st (default HostUndefined (args !! i)).
Proof.
  intros Hargs. destruct (args !! i) as [v |] eqn:Hi; cbn; [| done].
  by eapply Forall_lookup_1.
Qed.

Lemma Forall_valid_grows (st st' : State) (vs : list RuntimeValue) :
  grows st st' -> Forall (valid st) vs -> Forall (valid st') vs.
Proof.
  intros Hg H. eapply Forall_impl; [exact H |]. intros v. by apply valid_grows.
Qed.

Variable native_call : nat -> list RuntimeValue -> loc -> M RuntimeValue.

Hypothesis sound_native : forall call args env st,
  well_formed st -> env < length (envs st) -> Forall (valid st) args ->
  sound_after is_valid st (native_call call args env st).

(** What held before a step holds in the store it ends in. *)
Ltac carry :=
  repeat match goal with
  | Hg : grows ?st ?st', H : valid ?st ?v |- _ =>
    lazymatch goal with
    | _ : valid st' v |- _ => fail
    | _ => pose proof (valid_grows st st' v Hg H)
    end
  | Hg : grows ?st ?st', H : Forall (valid ?st) ?vs |- _ =>
    lazymatch goal with
    | _ : Forall (valid st') vs |- _ => fail
    | _ => pose proof (Forall_valid_grows st st' vs Hg H)
    end
  end.

Ltac side :=
  solve [ assumption | exact I
        | unfold grows in *; cbn [valid]; lia
        | by apply default_valid
        | by eapply get_field_throws | by eapply get_type_throws ].

Ltac sound_prim :=
  lazymatch goal with
  | |- forall _, _ => cbv beta; intros ? ? ? ? ?; cbv beta in *; carry
  | |- sound_after _ _ (bind (lift _) _ _) =>
    eapply (sound_bind (fun _ _ => True));
    [apply sound_lift; [assumption | done | intros ? ?; side] |]
  | |- sound_after _ _ (bind (@ret RuntimeValue _) _ _) =>
    eapply (sound_bind is_valid); [apply sound_ret; [assumption | side] |]
  | |- sound_after _ _ (bind _ _ _) => eapply sound_bind
  | |- sound_after _ _ (ret _ _) => apply sound_ret; [assumption | try side]
  | |- sound_after _ _ (throw _ _) => apply sound_throw; [assumption | exact I]
  | |- sound_after _ _ (Abort OutOfFuel) => apply sound_abort
  | |- sound_after _ _ (Env.new _ _) => apply sound_new; side
  | |- sound_after _ _ (Env.declareVariable _ _ _ _ _) =>
    apply sound_declareVariable; side
  | |- sound_after _ _ (Env.assignVariable _ _ _ _) =>
    apply sound_assignVariable; side
  | |- sound_after _ _ (Env.lookupVariable _ _ _) =>
    apply sound_lookupVariable; side
  | |- sound_after _ _ (new_object _) => apply sound_new_object; side
  | |- sound_after _ _ (object_set _ _ _ _) => apply sound_object_set; side
  | |- sound_after _ _ (object_get _ _ _) => apply sound_object_get; side
  | |- sound_after _ _ (new_array _) => apply sound_new_array; side
  | |- sound_after _ _ (array_set _ _ _ _) => apply sound_array_set; side
  | |- sound_after _ _ (array_get _ _ _) => apply sound_array_get; side
  | |- sound_after _ _ (array_push _ _ _) => apply sound_array_push; side
  | |- sound_after _ _ (native_call _ _ _ _) => apply sound_native; side
  end.

Ltac split_case :=
  lazymatch goal with
  | |- sound_after _ _ ((if ?b then _ else _) _) => destruct b eqn:?
  | |- sound_after _ _ (match ?x with _ => _ end _) => destruct x eqn:?
  | |- sound_after _ _ (match ?x with _ => _ end) => destruct x eqn:?
  end.

Section Step.

Variable ev : Stmt -> loc -> M RuntimeValue.

Hypothesis sound_ev : forall node env st,
  well_formed st -> env < length (envs st) ->
  sound_after is_valid st (ev node env st).

Ltac sound_call :=
  lazymatch goal with
  | |- sound_after _ _ (ev _ _ _) => apply sound_ev; side
  end.

Lemma sound_evalStatements (body : list Stmt) :
  forall scope last st,
    well_formed st -> scope < length (envs st) -> valid st last ->
    sound_after is_valid st (evalStatements ev body scope last st).
Proof.
  induction body as [| stmt rest IH]; intros scope last st Hwf Hscope Hlast;
    cbn [evalStatements]; repeat first [sound_prim | sound_call].
  apply IH; side.
Qed.

Lemma sound_evaluateVariableDeclaration (declaration : bool * string * option Stmt)
  (env : loc) (st : State) :
  well_formed st -> env < length (envs st) ->
  sound_after is_valid st (evaluateVariableDeclaration ev declaration env st).
Proof.
  intros Hwf Henv. destruct declaration as [[constant identifier] [value |]];
    cbn [evaluateVariableDeclaration]; repeat first [sound_prim | sound_call].
Qed.

Lemma sound_evalFunctionDeclaration (name : string) (params : list string)
  (body : list Stmt) (body_ref : nat) (env : loc) (st : State) :
  well_formed st -> env < length (envs st) ->
  sound_after is_valid st (evalFunctionDeclaration name params body body_ref env st).
Proof.
  intros Hwf Henv. unfold evalFunctionDeclaration.
  repeat first [sound_prim | split_case].
Qed.

Lemma sound_evalBody (body : list Stmt) (env : loc) (newEnv : bool) (st : State) :
  well_formed st -> env < length (envs st) ->
  sound_after is_valid st (evalBody ev body env newEnv st).
Proof.
  intros Hwf Henv. unfold evalBody. destruct newEnv.
  - repeat sound_prim. apply sound_evalStatements; side.
  - eapply (sound_bind (fun scope st' => scope < length (envs st')));
      [by apply sound_ret | cbv beta; intros ? ? ? ? ?].
    apply sound_evalStatements; side.
Qed.

Lemma sound_evalIfStatement (test : Stmt) (body : list Stmt)
  (alternate : option (list Stmt)) (env : loc) (st : State) :
  well_formed st -> env < length (envs st) ->
  sound_after is_valid st (evalIfStatement ev test body alternate env st).
Proof.
  intros Hwf Henv. unfold evalIfStatement.
  repeat first [sound_prim | sound_call | apply sound_evalBody; side | split_case].
Qed.

Lemma sound_accessMember (this : loc) (pastVal : RuntimeValue) (expr_property : Stmt)
  (value : RuntimeValue) (property : option Stmt) (st : State) :
  well_formed st -> this < length (envs st) -> valid st pastVal -> valid st value ->
  sound_after is_valid st
    (accessMember ev this pastVal expr_property value property st).
Proof.
  intros Hwf Hthis Hpast Hvalue. unfold accessMember.
  destruct pastVal; try (solve [sound_prim]).
  - eapply (sound_bind anything).
    + destruct (present value); [sound_prim | by apply sound_ret].
    + cbv beta. intros ? ? ? ? _. carry.
      repeat first [sound_prim | split_case].
  - repeat first [sound_prim | sound_call].
    split_case; [sound_prim |].
    eapply (sound_bind anything).
    + destruct (present value); [sound_prim | by apply sound_ret].
    + cbv beta. intros ? ? ? ? _. carry. sound_prim.
Qed.

Lemma sound_lookupOrMutObject (expr_object : Stmt) :
  forall this expr_property value property st,
    well_formed st -> this < length (envs st) -> valid st value ->
    sound_after is_valid st
      (lookupOrMutObject ev this expr_object expr_property value property st).
Proof.
  induction expr_object; intros this expr_property value0 property0 st Hwf Hthis Hvalue;
    cbn [lookupOrMutObject];
    (eapply (sound_bind is_valid);
     [| cbv beta; intros ? ? ? ? ?; carry; apply sound_accessMember; side]).
  all: try (eapply (sound_bind (fun target st' => st' = st /\ target < length (envs st)));
            [by apply sound_resolve |];
            cbv beta; intros target st' _ Hwf' [-> Htarget];
            destruct (stored _ _ Htarget) as [e He];
            unfold Env.read, bind; rewrite He;
            apply sound_ret; [assumption | by eapply variables_valid]).
  apply IHexpr_object1; side.
Qed.

Lemma sound_evaluateMemberExpression (env : loc) (node expr : option (Stmt * Stmt))
  (st : State) :
  well_formed st -> env < length (envs st) ->
  sound_after is_valid st (evaluateMemberExpression ev env node expr st).
Proof.
  intros Hwf Henv. unfold evaluateMemberExpression.
  destruct expr as [[object property] |]; [| destruct node as [[assignee value] |]].
  - apply sound_lookupOrMutObject; side.
  - repeat first [sound_prim | sound_call].
    destruct assignee; try (solve [sound_prim]).
    apply sound_lookupOrMutObject; side.
  - sound_prim.
Qed.

Lemma sound_evaluateAssignment (node : Stmt) (env : loc) (st : State) :
  well_formed st -> env < length (envs st) ->
  sound_after is_valid st (evaluateAssignment ev node env st).
Proof.
  intros Hwf Henv. unfold evaluateAssignment.
  destruct node; try (solve [sound_prim]).
  destruct node1; try (solve [sound_prim]).
  - apply sound_evaluateMemberExpression; side.
  - repeat first [sound_prim | sound_call].
Qed.

Lemma sound_evaluateBinaryExpression (lhs rhs : Stmt) (operator : string) (env : loc)
  (st : State) :
  well_formed st -> env < length (envs st) ->
  sound_after is_valid st (evaluateBinaryExpression ev lhs rhs operator env st).
Proof.
  intros Hwf Henv. unfold evaluateBinaryExpression.
  repeat first [sound_call | sound_prim].
  apply sound_lift; [assumption | |]; intros v Hv; apply plain_valid;
    pose proof (binary_plain a a0 operator) as Hplain; by rewrite Hv in Hplain.
Qed.

Lemma sound_fillProperties (object : loc) (properties : list (string * option Stmt))
  (env : loc) :
  forall st,
    well_formed st -> env < length (envs st) -> object < length (objects st) ->
    sound_after anything st (fillProperties ev object properties env st).
Proof.
  induction properties as [| [key [value |]] rest IH]; intros st Hwf Henv Hobject;
    cbn [fillProperties]; repeat first [sound_prim | sound_call].
  all: apply IH; side.
Qed.

Lemma sound_evaluateObjectExpression (properties : list (string * option Stmt))
  (env : loc) (st : State) :
  well_formed st -> env < length (envs st) ->
  sound_after is_valid st (evaluateObjectExpression ev properties env st).
Proof.
  intros Hwf Henv. unfold evaluateObjectExpression.
  sound_prim; [sound_prim | sound_prim].
  eapply (sound_bind anything); [apply sound_fillProperties; side |].
  cbv beta. intros ? ? ? ? _. sound_prim.
Qed.

Lemma sound_pushValues (array : loc) (values : list Stmt) (env : loc) :
  forall st,
    well_formed st -> env < length (envs st) -> array < length (arrays st) ->
    sound_after anything st (pushValues ev array values env st).
Proof.
  induction values as [| value rest IH]; intros st Hwf Henv Harray;
    cbn [pushValues]; repeat first [sound_prim | sound_call].
  apply IH; side.
Qed.

Lemma sound_evaluateArrayExpression (values : list Stmt) (env : loc) (st : State) :
  well_formed st -> env < length (envs st) ->
  sound_after is_valid st (evaluateArrayExpression ev values env st).
Proof.
  intros Hwf Henv. unfold evaluateArrayExpression.
  sound_prim; [sound_prim | sound_prim].
  eapply (sound_bind anything); [apply sound_pushValues; side |].
  cbv beta. intros ? ? ? ? _. sound_prim.
Qed.

Lemma sound_declareParams (scope : loc) (params : list string)
  (args : list RuntimeValue) :
  forall i st,
    well_formed st -> scope < length (envs st) -> Forall (valid st) args ->
    sound_after anything st (declareParams scope params args i st).
Proof.
  induction params as [| varname rest IH]; intros i st Hwf Hscope Hargs;
    cbn [declareParams]; repeat sound_prim.
  apply IH; side.
Qed.

Lemma sound_evaluateFunction (params : list string) (declarationEnv : loc)
  (body : list Stmt) (args : list RuntimeValue) (st : State) :
  well_formed st -> declarationEnv < length (envs st) -> Forall (valid st) args ->
  sound_after is_valid st (evaluateFunction ev params declarationEnv body args st).
Proof.
  intros Hwf Henv Hargs. unfold evaluateFunction.
  sound_prim; [sound_prim | sound_prim].
  eapply (sound_bind anything); [apply sound_declareParams; side |].
  cbv beta. intros ? ? ? ? _. apply sound_evalStatements; side.
Qed.

Lemma sound_evalArgs (args : list Stmt) (env : loc) :
  forall st,
    well_formed st -> env < length (envs st) ->
    sound_after (fun vs st' => Forall (valid st') vs) st (evalArgs ev args env st).
Proof.
  induction args as [| arg rest IH]; intros st Hwf Henv; cbn [evalArgs].
  - by apply sound_ret.
  - sound_prim; [sound_call | sound_prim].
    eapply sound_bind; [apply IH; side |].
    cbv beta. intros vs st2 Hg Hwf2 Hvs. cbv beta in *. carry.
    apply sound_ret; [assumption |]. by constructor.
Qed.

Lemma sound_callValue (fn : RuntimeValue) (args : list RuntimeValue) (env : loc)
  (st : State) :
  well_formed st -> env < length (envs st) -> valid st fn -> Forall (valid st) args ->
  sound_after is_valid st (callValue native_call ev fn args env st).
Proof.
  intros Hwf Henv Hfn Hargs. unfold callValue.
  destruct fn; try (solve [sound_prim]).
  apply sound_evaluateFunction; side.
Qed.

Lemma sound_evalCallExpression (callee : Stmt) (args : list Stmt) (env : loc)
  (st : State) :
  well_formed st -> env < length (envs st) ->
  sound_after is_valid st (evalCallExpression native_call ev callee args env st).
Proof.
  intros Hwf Henv. unfold evalCallExpression.
  eapply sound_bind; [apply sound_evalArgs; side |].
  cbv beta. intros vs st' Hg Hwf' Hvs.
  sound_prim; [sound_call | sound_prim]. apply sound_callValue; side.
Qed.

Lemma sound_doWhile (fuel : nat) (body : list Stmt) (update test : Stmt) (env : loc) :
  forall st,
    well_formed st -> env < length (envs st) ->
    sound_after anything st (doWhile ev fuel body update test env st).
Proof.
  induction fuel as [| fuel IH]; intros st Hwf Henv; cbn [doWhile];
    [apply sound_abort |].
  repeat first [sound_prim | sound_call | apply sound_evalBody; side
               | apply sound_evaluateAssignment; side].
  split_case; [apply IH; side | by apply sound_ret].
Qed.

Lemma sound_evalForStatement (fuel : nat) (init : bool * string * option Stmt)
  (test update : Stmt) (body : list Stmt) (env : loc) (st : State) :
  well_formed st -> env < length (envs st) ->
  sound_after is_valid st (evalForStatement ev fuel init test update body env st).
Proof.
  intros Hwf Henv. unfold evalForStatement.
  repeat first [sound_prim | sound_call
               | apply sound_evaluateVariableDeclaration; side].
  split_case; [sound_prim |].
  eapply (sound_bind anything); [apply sound_doWhile; side |].
  cbv beta. intros ? ? ? ? _. sound_prim.
Qed.

Lemma sound_evalTryCatchStatement (env : loc) (body alternate : list Stmt)
  (st : State) :
  well_formed st -> env < length (envs st) ->
  sound_after is_valid st (evalTryCatchStatement ev env body alternate st).
Proof.
  intros Hwf Henv. unfold evalTryCatchStatement.
  repeat sound_prim.
  eapply sound_try_catch.
  - apply sound_evalBody; side.
  - auto.
  - cbv beta. intros e st3 Hg Hwf3 He. carry.
    repeat sound_prim. apply sound_evalBody; side.
Qed.

End Step.

End Sound.

(** X28. Evaluation keeps the store sound. In a store where every parent
    link points to an older scope and every function, object and array
    value held by a scope or a container names a scope or container of
    the store, evaluating any node from a scope of the store never
    follows an address outside the store; however it ends, the store has
    lost no scope or container and is again such a store, and the value
    returned or raised names only what the store has. Native functions
    are assumed to do the same. *)
Theorem evaluation_keeps_the_store_sound
  (native_call : nat -> list RuntimeValue -> loc -> M RuntimeValue)
  (n : nat) (node : Stmt) (env : loc) (st : State) :
  (forall call args env' st',
      well_formed st' -> env' < length (envs st') -> Forall (valid st') args ->
      sound_after (fun v st'' => valid st'' v) st' (native_call call args env' st')) ->
  well_formed st ->
  env < length (envs st) ->
  sound_after (fun v st' => valid st' v) st (evaluate native_call n node env st).
Proof.
  intros Hnative. revert node env st.
  induction n as [| n IH]; intros node env st Hwf Henv; [apply sound_abort |].
  destruct node; cbn [evaluate].
  - by apply sound_evalStatements.
  - by apply sound_evaluateVariableDeclaration.
  - by apply sound_evalFunctionDeclaration.
  - by apply sound_evalIfStatement.
  - by apply sound_evalForStatement.
  - by apply sound_evalTryCatchStatement.
  - by apply sound_evaluateAssignment.
  - by apply sound_evaluateBinaryExpression.
  - by apply (sound_evalCallExpression native_call Hnative).
  - by apply sound_evaluateMemberExpression.
  - by apply sound_lookupVariable.
  - by apply sound_ret.
  - by apply sound_ret.
  - by apply sound_evaluateArrayExpression.
  - by apply sound_evaluateObjectExpression.
Qed.

(** *** Instances *)

Lemma initial_well_formed : well_formed initial.
Proof.
  split; [apply initial_well_scoped |]. split; [| split].
  - intros [| l] e x v He Hx; [| by destruct l].
    cbn in He. injection He as <-. cbn in Hx.
    repeat (apply lookup_insert_Some in Hx as [[_ <-] | [_ Hx]]; [exact I |]).
    by rewrite lookup_empty in Hx.
  - intros l m k v Hm. by destruct l.
  - intros l a Ha. by destruct l.
Qed.

(** X28 at [let o = { f: [1] }  fn g(x) { o.f }  g(o)], evaluated in
    the global scope of the initial store. *)
Lemma evaluation_keeps_the_store_sound_witness :
  sound_after (fun v st' => valid st' v) initial
    (evaluate no_natives 20
       (Program [VariableDeclaration false "o"
                   (Some (ObjectLiteral [("f", Some (ArrayLiteral [NumericLiteral 1]))]));
                 FunctionDeclaration "g" ["x"]
                   [MemberExpression (Identifier "o") (Identifier "f") false] 0;
                 CallExpression (Identifier "g") [Identifier "o"]])
       0 initial).
Proof.
  apply (evaluation_keeps_the_store_sound no_natives 20).
  - intros call args env' st' Hwf _ _. by apply sound_ret.
  - apply initial_well_formed.
  - cbn. lia.
Defined.

(** ** Whole words only *)

Section WholeWords.

Import Transcriber.

Lemma word_prefix_all (text : list ascii) :
  forallb isWord text = true -> word_prefix text = text.
Proof.
  induction text as [| c text IH]; [reflexivity |]. cbn [forallb word_prefix].
  intros H. apply andb_prop in H as [-> Htext]. by rewrite IH.
Qed.

(** The word a text starts with ends inside [target], or with it when
    no word character follows. *)
Lemma word_prefix_app (target rest : list ascii) :
  forallb isWord target = false \/ wordAt (head rest) = false ->
  word_prefix (target ++ rest) = word_prefix target.
Proof.
  induction target as [| t target IH]; cbn [app forallb word_prefix].
  - intros [H | H]; [discriminate |]. destruct rest as [| c rest]; [reflexivity |].
    cbn in H. cbn [word_prefix]. by rewrite H.
  - destruct (isWord t); [| reflexivity]. cbn [andb]. intros H. by rewrite IH.
Qed.

Lemma last_word (target : list ascii) :
  target <> [] -> forallb isWord target = true -> wordAt (last target) = true.
Proof.
  induction target as [| t target IH]; [done |]. intros _. cbn [forallb].
  intros H. apply andb_prop in H as [Ht Htarget].
  destruct target as [| t' target]; [exact Ht |].
  rewrite last_cons_cons. by apply IH.
Qed.

(** The pattern matches at the start of a whole word only, and only a
    word that is the first word of the target. *)
Lemma matchAt_whole_word (target : list ascii) (prev : option ascii) (text : list ascii) :
  word_prefix target <> [] ->
  word_prefix target ∉ whole_words prev text ->
  matchAt target prev text = None.
Proof.
  intros Hfirst Hnone. unfold matchAt.
  destruct (after target text) as [rest |] eqn:Hafter; [| reflexivity].
  apply after_Some in Hafter as ->.
  destruct target as [| t target]; [done |].
  cbn [word_prefix] in Hfirst. destruct (isWord t) eqn:Ht; [| done].
  change ((t :: target) ++ rest) with (t :: (target ++ rest)) in *.
  cbn [head]. unfold boundary at 1. cbn [wordAt from_option]. rewrite Ht.
  destruct (wordAt prev) eqn:Hprev; [reflexivity |].
  cbn [whole_words] in Hnone. rewrite Hprev, Ht in Hnone. cbn [negb andb app] in Hnone.
  apply not_elem_of_cons in Hnone as [Hne _].
  change (t :: (target ++ rest)) with ((t :: target) ++ rest) in Hne.
  destruct (boundary (last (t :: target)) (head rest)) eqn:Hend; [| reflexivity].
  exfalso. apply Hne. symmetry. apply word_prefix_app.
  destruct (forallb isWord (t :: target)) eqn:Hall; [right | by left].
  unfold boundary in Hend. rewrite last_word in Hend by done.
  by destruct (wordAt (head rest)).
Qed.

Lemma scan_whole_words (target replacement : list ascii) :
  word_prefix target <> [] ->
  forall text prev,
    word_prefix target ∉ whole_words prev text ->
    scan target replacement prev 0 text = text.
Proof.
  intros Hfirst. induction text as [| c text IH]; intros prev Hnone; [reflexivity |].
  cbn [scan]. rewrite (matchAt_whole_word _ _ _ Hfirst Hnone). f_equal.
  apply IH. cbn [whole_words] in Hnone. apply not_elem_of_app in Hnone. tauto.
Qed.

Lemma transcribe_with_whole_words (table : list (string * string)) (text : list ascii) :
  Forall (fun word => first_word word <> []) table ->
  Forall (fun word => first_word word ∉ whole_words None text) table ->
  transcribe_with table text = text.
Proof.
  unfold transcribe_with. induction table as [| word table IH]; [reflexivity |].
  intros Hfirst Hnone. apply Forall_cons in Hfirst as [Hfirst Hfirsts].
  apply Forall_cons in Hnone as [Hnone Hnones]. cbn [fold_left].
  unfold replace_str at 2. rewrite (scan_whole_words _ _ Hfirst _ _ Hnone).
  by apply IH.
Qed.

(** X29. Only whole words are rewritten. A text none of whose whole
    words (its longest runs of letters, digits and underscores) is a
    word of the table, or the first word of one, is left as it is: a
    word of the table inside a longer word is not rewritten. *)
Theorem only_whole_words_are_rewritten (text : list ascii) :
  Forall (fun word => first_word word ∉ whole_words None text) words ->
  transcribe_with words text = text.
Proof.
  apply transcribe_with_whole_words.
  apply (bool_decide_unpack _). vm_compute. reflexivity.
Qed.

End WholeWords.

(** *** Instances *)

(** X29 at [this.island = upper_cap]. *)
Lemma only_whole_words_are_rewritten_witness :
  Transcriber.transcribe_with Transcriber.words
    (String.list_ascii_of_string "this.island = upper_cap")
  = String.list_ascii_of_string "this.island = upper_cap".
Proof.
  apply only_whole_words_are_rewritten.
  apply (bool_decide_unpack _). vm_compute. reflexivity.
Defined.
